(** * Discussion portal: thread and comment life cycle across two stores

    A shallow embedding of the request handlers of the discussion portal
    (controllers/threadController.js, controllers/commentController.js,
    models/Post.js, middleware/errorHandler.js, utils/helpers.js and the
    table definitions of config/setupDatabase.js).

    Thread metadata lives in PostgreSQL (table [threads]), thread content in
    MongoDB (collection of [Post] documents).  A handler is a finite program
    over store calls; every [await] is one call whose promise is either
    resolved or rejected.  The stores answer the calls, and a schedule of
    faults decides which calls are rejected by the driver. *)

From Stdlib Require Import ZArith NArith List String Bool Lia.
Import ListNotations.

Local Open Scope string_scope.
Local Open Scope Z_scope.
Local Open Scope list_scope.

Set Implicit Arguments.

(** ** Identifiers, time, roles *)

(** UUIDs generated by PostgreSQL ([gen_random_uuid()]) and ObjectIds
    generated by the MongoDB driver are opaque and only ever compared for
    equality; both are drawn from counters kept in the world. *)
Definition Uuid := N.
Definition ObjectId := N.

(** [new Date()] and SQL [NOW()]: milliseconds since the epoch. *)
Definition Date := Z.

(** [CREATE TYPE user_role AS ENUM ('user', 'moderator', 'admin')]. *)
Inductive Role := RoleUser | RoleModerator | RoleAdmin.

(** [req.user], as attached by the authentication middleware. *)
Record User := mkUser {
  user_id : Uuid;
  username : string;
  role : Role
}.

(** [['moderator', 'admin'].includes(req.user.role)]. *)
Definition isModRole (r : Role) : bool :=
  match r with
  | RoleUser => false
  | RoleModerator | RoleAdmin => true
  end.

(** ** Errors and HTTP responses *)

(** A JavaScript error object, with the fields the global error handler
    looks at. *)
Record Err := mkErr {
  err_name : string;
  err_message : string;
  err_statusCode : option Z;
  err_code : option string;
  err_errors : list string
}.

(** [new AppError(message, statusCode)]. *)
Definition AppError (message : string) (statusCode : Z) : Err :=
  mkErr "Error" message (Some statusCode) None [].

(** ** The relational side: rows of [threads] and [categories] *)

Inductive CategoryStatus := CatActive | CatArchived.

Record CategoryRow := mkCategory {
  cat_id : Uuid;
  cat_status : CategoryStatus
}.

Record ThreadRow := mkThread {
  id : Uuid;
  title : string;
  slug : string;
  category_id : Uuid;
  author_id : Uuid;
  is_pinned : bool;
  is_locked : bool;
  view_count : Z;
  reply_count : Z;
  last_reply_at : option Date;
  last_reply_by : option Uuid;
  created_at : Date;
  updated_at : Date
}.

(** PostgreSQL [INTEGER] is a signed 32-bit integer; arithmetic that leaves
    the range raises error 22003 instead of wrapping. *)
Definition INT4_MAX : Z := 2147483647.

(** ** The document side: [CommentSchema] and [PostSchema] *)

Module Comment.
Record t := mk {
    _id : ObjectId;
    authorId : Uuid;
    authorUsername : string;
    content : string;
    parentCommentId : option ObjectId;
    isEdited : bool;
    editedAt : option Date;
    isDeleted : bool;
    deletedAt : option Date;
    upvotes : Z;
    upvotedBy : list Uuid
}.
End Comment.

Module OriginalPost.
Record t := mk {
    authorId : Uuid;
    authorUsername : string;
    content : string;
    isEdited : bool;
    editedAt : option Date;
    upvotes : Z;
    upvotedBy : list Uuid
}.
End OriginalPost.

Module Post.
Record t := mk {
    _id : ObjectId;
    threadId : Uuid;
    originalPost : OriginalPost.t;
    comments : list Comment.t;
    isLocked : bool;
    viewCount : Z;
    tags : list string;
    __v : Z
}.
End Post.

(** ** JavaScript string primitives, on ASCII text *)

(** The characters of a JavaScript string are UTF-16 code units; on text
    made of ASCII characters they are the characters below, and
    [toLowerCase] and [trim] are as written here. *)
Definition code (c : Ascii.ascii) : nat := Ascii.nat_of_ascii c.

Definition is_upper (c : Ascii.ascii) : bool :=
  (65 <=? code c)%nat && (code c <=? 90)%nat.

(** [\s] and what [trim()] removes: tab, line feed, vertical tab, form
    feed, carriage return, space. *)
Definition is_space (c : Ascii.ascii) : bool :=
  ((9 <=? code c)%nat && (code c <=? 13)%nat) || (code c =? 32)%nat.

(** [toLowerCase()] on one character. *)
Definition to_lower (c : Ascii.ascii) : Ascii.ascii :=
  if is_upper c then Ascii.ascii_of_nat (code c + 32) else c.

Fixpoint drop_while (test : Ascii.ascii -> bool) (text : list Ascii.ascii)
  : list Ascii.ascii :=
  match text with
  | [] => []
  | c :: rest => if test c then drop_while test rest else text
  end.

(** Dropping from both ends what passes [test]. *)
Definition trim_both (test : Ascii.ascii -> bool) (text : list Ascii.ascii)
  : list Ascii.ascii :=
  rev (drop_while test (rev (drop_while test text))).

(** ** JavaScript array primitives used on the voter arrays *)

(** [arr.indexOf(x)]: position of the first occurrence, [None] for -1. *)
Fixpoint indexOf (x : Uuid) (arr : list Uuid) : option nat :=
  match arr with
  | [] => None
  | y :: rest =>
      if N.eqb x y then Some O
      else match indexOf x rest with
           | Some i => Some (S i)
           | None => None
           end
  end.

(** [arr.push(x)]. *)
Definition push {A : Type} (arr : list A) (x : A) : list A := arr ++ [x].

(** [arr.splice(idx, 1)]: drop the element at position [idx]. *)
Fixpoint splice1 {A : Type} (idx : nat) (arr : list A) : list A :=
  match arr, idx with
  | [], _ => []
  | _ :: rest, O => rest
  | y :: rest, S i => y :: splice1 i rest
  end.

(** [arr.includes(x)]. *)
Definition includes (x : Uuid) (arr : list Uuid) : bool :=
  existsb (N.eqb x) arr.

(** ** In-memory operations on a loaded document *)

(** The body of [PostSchema.methods.toggleUpvote] before [this.save()]:
    the mutation of [this.originalPost]. *)
Definition toggleOriginalPost (userId : Uuid) (o : OriginalPost.t)
  : OriginalPost.t :=
  match indexOf userId (OriginalPost.upvotedBy o) with
  | None =>
      OriginalPost.mk (OriginalPost.authorId o) (OriginalPost.authorUsername o)
        (OriginalPost.content o) (OriginalPost.isEdited o)
        (OriginalPost.editedAt o)
        (OriginalPost.upvotes o + 1)
        (push (OriginalPost.upvotedBy o) userId)
  | Some idx =>
      OriginalPost.mk (OriginalPost.authorId o) (OriginalPost.authorUsername o)
        (OriginalPost.content o) (OriginalPost.isEdited o)
        (OriginalPost.editedAt o)
        (OriginalPost.upvotes o - 1)
        (splice1 idx (OriginalPost.upvotedBy o))
  end.

(** The toggle written out in [upvoteComment], on the comment found. *)
Definition toggleComment (userId : Uuid) (c : Comment.t) : Comment.t :=
  match indexOf userId (Comment.upvotedBy c) with
  | None =>
      Comment.mk (Comment._id c) (Comment.authorId c)
        (Comment.authorUsername c) (Comment.content c)
        (Comment.parentCommentId c) (Comment.isEdited c) (Comment.editedAt c)
        (Comment.isDeleted c) (Comment.deletedAt c)
        (Comment.upvotes c + 1)
        (push (Comment.upvotedBy c) userId)
  | Some idx =>
      Comment.mk (Comment._id c) (Comment.authorId c)
        (Comment.authorUsername c) (Comment.content c)
        (Comment.parentCommentId c) (Comment.isEdited c) (Comment.editedAt c)
        (Comment.isDeleted c) (Comment.deletedAt c)
        (Comment.upvotes c - 1)
        (splice1 idx (Comment.upvotedBy c))
  end.

(** [comment.content = content; comment.isEdited = true;
    comment.editedAt = new Date()] in [updateComment]. *)
Definition editComment (content : string) (now : Date) (c : Comment.t)
  : Comment.t :=
  Comment.mk (Comment._id c) (Comment.authorId c) (Comment.authorUsername c)
    content
    (Comment.parentCommentId c) true (Some now)
    (Comment.isDeleted c) (Comment.deletedAt c)
    (Comment.upvotes c) (Comment.upvotedBy c).

(** [comment.isDeleted = true; comment.deletedAt = new Date();
    comment.content = '[deleted]'] in [deleteComment]. *)
Definition tombstone (now : Date) (c : Comment.t) : Comment.t :=
  Comment.mk (Comment._id c) (Comment.authorId c) (Comment.authorUsername c)
    "[deleted]"
    (Comment.parentCommentId c) (Comment.isEdited c) (Comment.editedAt c)
    true (Some now)
    (Comment.upvotes c) (Comment.upvotedBy c).

(** [post.comments.id(commentId)]: the first subdocument with that [_id]. *)
Definition comments_id (commentId : ObjectId) (cs : list Comment.t)
  : option Comment.t :=
  find (fun c => N.eqb (Comment._id c) commentId) cs.

(** Apply [f] to the first element passing [test].  A handler mutates the
    subdocument that [comments.id] returned, which is that first element. *)
Fixpoint modify_first {A : Type} (test : A -> bool) (f : A -> A) (l : list A)
  : list A :=
  match l with
  | [] => []
  | x :: rest =>
      if test x then f x :: rest else x :: modify_first test f rest
  end.

(** Drop the first element passing [test]. *)
Fixpoint remove_first {A : Type} (test : A -> bool) (l : list A) : list A :=
  match l with
  | [] => []
  | x :: rest => if test x then rest else x :: remove_first test rest
  end.

Definition set_originalPost (o : OriginalPost.t) (p : Post.t) : Post.t :=
  Post.mk (Post._id p) (Post.threadId p) o (Post.comments p)
    (Post.isLocked p) (Post.viewCount p) (Post.tags p) (Post.__v p).

Definition set_comments (cs : list Comment.t) (p : Post.t) : Post.t :=
  Post.mk (Post._id p) (Post.threadId p) (Post.originalPost p) cs
    (Post.isLocked p) (Post.viewCount p) (Post.tags p) (Post.__v p).

Definition set_tags (ts : list string) (p : Post.t) : Post.t :=
  Post.mk (Post._id p) (Post.threadId p) (Post.originalPost p)
    (Post.comments p) (Post.isLocked p) (Post.viewCount p) ts (Post.__v p).

Definition set_version (v : Z) (p : Post.t) : Post.t :=
  Post.mk (Post._id p) (Post.threadId p) (Post.originalPost p)
    (Post.comments p) (Post.isLocked p) (Post.viewCount p) (Post.tags p) v.

(** The loaded document after the handler mutated the comment it found. *)
Definition mutate_comment (commentId : ObjectId) (f : Comment.t -> Comment.t)
  (p : Post.t) : Post.t :=
  set_comments
    (modify_first (fun c => N.eqb (Comment._id c) commentId) f
       (Post.comments p)) p.

(** [PostSchema.virtual('commentCount')]. *)
Definition commentCount (p : Post.t) : nat :=
  List.length (filter (fun c => negb (Comment.isDeleted c)) (Post.comments p)).

(** ** What [doc.save()] sends *)

(** Mongoose tracks what a handler does to a document it loaded, and
    [doc.save()] sends an update of the paths that changed, not the
    document: an assignment that changes the value is a [$set] of the path,
    [arr.push(x)] is a [$push], [arr.splice(...)] is a [$set] of the whole
    array.  A comment is addressed by its position in [comments]. *)
Inductive Update :=
(* $set originalPost.upvotes *)
| SetPostVotes (n : Z)
(* $push originalPost.upvotedBy *)
| PushPostVoter (userId : Uuid)
(* $set originalPost.upvotedBy *)
| SetPostVoters (voters : list Uuid)
(* $set comments.i.upvotes *)
| SetCommentVotes (i : nat) (n : Z)
(* $push comments.i.upvotedBy *)
| PushCommentVoter (i : nat) (userId : Uuid)
(* $set comments.i.upvotedBy *)
| SetCommentVoters (i : nat) (voters : list Uuid)
(* $set comments.i.content, .isEdited, .editedAt, .isDeleted, .deletedAt *)
| SetCommentContent (i : nat) (content : string)
| SetCommentIsEdited (i : nat) (b : bool)
| SetCommentEditedAt (i : nat) (d : Date)
| SetCommentIsDeleted (i : nat) (b : bool)
| SetCommentDeletedAt (i : nat) (d : Date).

(** The position of the subdocument [comments.id(commentId)] returns. *)
Fixpoint comment_index (commentId : ObjectId) (cs : list Comment.t) : nat :=
  match cs with
  | [] => O
  | c :: rest =>
      if N.eqb (Comment._id c) commentId then O
      else S (comment_index commentId rest)
  end.

(** What [toggleUpvote] leaves for [save()] to send. *)
Definition toggleOriginalPost_changes (userId : Uuid) (o : OriginalPost.t)
  : list Update :=
  match indexOf userId (OriginalPost.upvotedBy o) with
  | None => [PushPostVoter userId; SetPostVotes (OriginalPost.upvotes o + 1)]
  | Some idx =>
      [SetPostVoters (splice1 idx (OriginalPost.upvotedBy o));
       SetPostVotes (OriginalPost.upvotes o - 1)]
  end.

(** The same for the toggle of [upvoteComment], on the comment at [i]. *)
Definition toggleComment_changes (i : nat) (userId : Uuid) (c : Comment.t)
  : list Update :=
  match indexOf userId (Comment.upvotedBy c) with
  | None =>
      [PushCommentVoter i userId; SetCommentVotes i (Comment.upvotes c + 1)]
  | Some idx =>
      [SetCommentVoters i (splice1 idx (Comment.upvotedBy c));
       SetCommentVotes i (Comment.upvotes c - 1)]
  end.

(** An assignment of the value a path already has marks nothing. *)
Definition same_date (old : option Date) (now : Date) : bool :=
  match old with
  | Some d => d =? now
  | None => false
  end.

(** The three assignments of [updateComment], on the comment at [i]. *)
Definition editComment_changes (i : nat) (content : string) (now : Date)
  (c : Comment.t) : list Update :=
  (if String.eqb (Comment.content c) content then []
   else [SetCommentContent i content])
  ++ (if Comment.isEdited c then [] else [SetCommentIsEdited i true])
  ++ (if same_date (Comment.editedAt c) now then []
      else [SetCommentEditedAt i now]).

(** The three assignments of [deleteComment], on the comment at [i]. *)
Definition tombstone_changes (i : nat) (now : Date) (c : Comment.t)
  : list Update :=
  (if Comment.isDeleted c then [] else [SetCommentIsDeleted i true])
  ++ (if same_date (Comment.deletedAt c) now then []
      else [SetCommentDeletedAt i now])
  ++ (if String.eqb (Comment.content c) "[deleted]" then []
      else [SetCommentContent i "[deleted]"]).

(** The version key [__v] guards array positions.  Mongoose decides per
    update what [save()] does with it ([operand] in lib/model.js): check
    that the stored version is the loaded one ([VERSION_WHERE]), increment
    it ([VERSION_INC]), or both ([VERSION_ALL]). *)
Inductive Versioning :=
| VERSION_NONE | VERSION_WHERE | VERSION_INC | VERSION_ALL.

(** A [$push] on a path through an array position, or a [$set] of an
    array, checks and increments; a [$push] on another path increments; a
    [$set] below an array position checks; [VERSION_ALL] stays. *)
Definition operand (v : Versioning) (u : Update) : Versioning :=
  match v with
  | VERSION_ALL => VERSION_ALL
  | _ =>
      match u with
      | SetPostVotes _ => v
      | PushPostVoter _ => VERSION_INC
      | SetPostVoters _ => VERSION_ALL
      | PushCommentVoter _ _ => VERSION_ALL
      | SetCommentVoters _ _ => VERSION_ALL
      | SetCommentVotes _ _ => VERSION_WHERE
      | SetCommentContent _ _ => VERSION_WHERE
      | SetCommentIsEdited _ _ => VERSION_WHERE
      | SetCommentEditedAt _ _ => VERSION_WHERE
      | SetCommentIsDeleted _ _ => VERSION_WHERE
      | SetCommentDeletedAt _ _ => VERSION_WHERE
      end
  end.

Definition versioning (changes : list Update) : Versioning :=
  fold_left operand changes VERSION_NONE.

(** [where.__v = loaded version]. *)
Definition checks_version (v : Versioning) : bool :=
  match v with
  | VERSION_WHERE | VERSION_ALL => true
  | _ => false
  end.

(** [$inc: { __v: 1 }]. *)
Definition increments_version (v : Versioning) : bool :=
  match v with
  | VERSION_INC | VERSION_ALL => true
  | _ => false
  end.

(** Rewrite the element at position [i]; a list that short is left alone
    (the comments of a stored document are never fewer than those of a
    copy loaded earlier: nothing removes a comment). *)
Fixpoint update_at {A : Type} (i : nat) (f : A -> A) (l : list A) : list A :=
  match l, i with
  | [], _ => []
  | x :: rest, O => f x :: rest
  | x :: rest, S j => x :: update_at j f rest
  end.

Definition set_post_votes (n : Z) (o : OriginalPost.t) : OriginalPost.t :=
  OriginalPost.mk (OriginalPost.authorId o) (OriginalPost.authorUsername o)
    (OriginalPost.content o) (OriginalPost.isEdited o)
    (OriginalPost.editedAt o) n (OriginalPost.upvotedBy o).

Definition set_post_voters (voters : list Uuid) (o : OriginalPost.t)
  : OriginalPost.t :=
  OriginalPost.mk (OriginalPost.authorId o) (OriginalPost.authorUsername o)
    (OriginalPost.content o) (OriginalPost.isEdited o)
    (OriginalPost.editedAt o) (OriginalPost.upvotes o) voters.

Definition set_comment_votes (n : Z) (c : Comment.t) : Comment.t :=
  Comment.mk (Comment._id c) (Comment.authorId c) (Comment.authorUsername c)
    (Comment.content c) (Comment.parentCommentId c) (Comment.isEdited c)
    (Comment.editedAt c) (Comment.isDeleted c) (Comment.deletedAt c)
    n (Comment.upvotedBy c).

Definition set_comment_voters (voters : list Uuid) (c : Comment.t)
  : Comment.t :=
  Comment.mk (Comment._id c) (Comment.authorId c) (Comment.authorUsername c)
    (Comment.content c) (Comment.parentCommentId c) (Comment.isEdited c)
    (Comment.editedAt c) (Comment.isDeleted c) (Comment.deletedAt c)
    (Comment.upvotes c) voters.

Definition set_comment_content (content : string) (c : Comment.t)
  : Comment.t :=
  Comment.mk (Comment._id c) (Comment.authorId c) (Comment.authorUsername c)
    content (Comment.parentCommentId c) (Comment.isEdited c)
    (Comment.editedAt c) (Comment.isDeleted c) (Comment.deletedAt c)
    (Comment.upvotes c) (Comment.upvotedBy c).

Definition set_comment_isEdited (b : bool) (c : Comment.t) : Comment.t :=
  Comment.mk (Comment._id c) (Comment.authorId c) (Comment.authorUsername c)
    (Comment.content c) (Comment.parentCommentId c) b
    (Comment.editedAt c) (Comment.isDeleted c) (Comment.deletedAt c)
    (Comment.upvotes c) (Comment.upvotedBy c).

Definition set_comment_editedAt (d : Date) (c : Comment.t) : Comment.t :=
  Comment.mk (Comment._id c) (Comment.authorId c) (Comment.authorUsername c)
    (Comment.content c) (Comment.parentCommentId c) (Comment.isEdited c)
    (Some d) (Comment.isDeleted c) (Comment.deletedAt c)
    (Comment.upvotes c) (Comment.upvotedBy c).

Definition set_comment_isDeleted (b : bool) (c : Comment.t) : Comment.t :=
  Comment.mk (Comment._id c) (Comment.authorId c) (Comment.authorUsername c)
    (Comment.content c) (Comment.parentCommentId c) (Comment.isEdited c)
    (Comment.editedAt c) b (Comment.deletedAt c)
    (Comment.upvotes c) (Comment.upvotedBy c).

Definition set_comment_deletedAt (d : Date) (c : Comment.t) : Comment.t :=
  Comment.mk (Comment._id c) (Comment.authorId c) (Comment.authorUsername c)
    (Comment.content c) (Comment.parentCommentId c) (Comment.isEdited c)
    (Comment.editedAt c) (Comment.isDeleted c) (Some d)
    (Comment.upvotes c) (Comment.upvotedBy c).

Definition at_post (f : OriginalPost.t -> OriginalPost.t) (p : Post.t)
  : Post.t :=
  set_originalPost (f (Post.originalPost p)) p.

Definition at_comment (i : nat) (f : Comment.t -> Comment.t) (p : Post.t)
  : Post.t :=
  set_comments (update_at i f (Post.comments p)) p.

(** One update operator, applied by the store to the stored document. *)
Definition apply_update (u : Update) (p : Post.t) : Post.t :=
  match u with
  | SetPostVotes n => at_post (set_post_votes n) p
  | PushPostVoter userId =>
      at_post (fun o => set_post_voters (push (OriginalPost.upvotedBy o) userId)
                          o) p
  | SetPostVoters voters => at_post (set_post_voters voters) p
  | SetCommentVotes i n => at_comment i (set_comment_votes n) p
  | PushCommentVoter i userId =>
      at_comment i
        (fun c => set_comment_voters (push (Comment.upvotedBy c) userId) c) p
  | SetCommentVoters i voters => at_comment i (set_comment_voters voters) p
  | SetCommentContent i content =>
      at_comment i (set_comment_content content) p
  | SetCommentIsEdited i b => at_comment i (set_comment_isEdited b) p
  | SetCommentEditedAt i d => at_comment i (set_comment_editedAt d) p
  | SetCommentIsDeleted i b => at_comment i (set_comment_isDeleted b) p
  | SetCommentDeletedAt i d => at_comment i (set_comment_deletedAt d) p
  end.

Definition apply_changes (changes : list Update) (p : Post.t) : Post.t :=
  fold_left (fun q u => apply_update u q) changes p.

(** The stored document after a [save()] that matched it. *)
Definition saved (changes : list Update) (p : Post.t) : Post.t :=
  let q := apply_changes changes p in
  if increments_version (versioning changes)
  then set_version (Post.__v p + 1) q
  else q.

(** ** The activity log ([models/ActivityLog.js]) *)

Inductive Action :=
| LOGIN | LOGOUT | REGISTER
| CREATE_THREAD | UPDATE_THREAD | DELETE_THREAD
| CREATE_COMMENT | UPDATE_COMMENT | DELETE_COMMENT
| UPVOTE_POST | UPVOTE_COMMENT
| BAN_USER | UNBAN_USER
| CHANGE_ROLE | UPDATE_PROFILE
| CREATE_CATEGORY | UPDATE_CATEGORY.

(** The resource strings the handlers build: [thread:<id>],
    [thread:<id>:comment:<cid>] and [comment:<cid>]. *)
Inductive Resource :=
| ResThread (threadId : Uuid)
| ResThreadComment (threadId : Uuid) (commentId : ObjectId)
| ResComment (commentId : ObjectId).

Record ActivityLog := mkActivity {
  log_userId : Uuid;
  log_action : Action;
  log_resource : option Resource
}.

(** ** The world: both stores, the pooled client, and the fault schedule *)

(** What the driver does with one store call: answer it, reject it before the
    store applied it, or reject it although the store applied it (a lost
    acknowledgement or a timeout). *)
Inductive Fault :=
| Healthy
| FailBefore (e : Err)
| FailAfter (e : Err).

Record World := mkWorld {
  threads : list ThreadRow;          (* committed rows of [threads] *)
  categories : list CategoryRow;
  tx : option (list ThreadRow);      (* rows inserted by the open transaction *)
  leased : nat;                      (* clients checked out of the pool *)
  posts : list Post.t;               (* the Post collection *)
  activity : list ActivityLog;
  next_uuid : N;
  next_oid : N;
  faults : list Fault                (* one entry per coming store call *)
}.

Definition set_threads (ts : list ThreadRow) (w : World) : World :=
  mkWorld ts (categories w) (tx w) (leased w) (posts w) (activity w)
    (next_uuid w) (next_oid w) (faults w).

Definition set_categories (cs : list CategoryRow) (w : World) : World :=
  mkWorld (threads w) cs (tx w) (leased w) (posts w) (activity w)
    (next_uuid w) (next_oid w) (faults w).

Definition set_tx (t : option (list ThreadRow)) (w : World) : World :=
  mkWorld (threads w) (categories w) t (leased w) (posts w) (activity w)
    (next_uuid w) (next_oid w) (faults w).

Definition set_leased (n : nat) (w : World) : World :=
  mkWorld (threads w) (categories w) (tx w) n (posts w) (activity w)
    (next_uuid w) (next_oid w) (faults w).

Definition set_posts (ps : list Post.t) (w : World) : World :=
  mkWorld (threads w) (categories w) (tx w) (leased w) ps (activity w)
    (next_uuid w) (next_oid w) (faults w).

Definition set_activity (a : list ActivityLog) (w : World) : World :=
  mkWorld (threads w) (categories w) (tx w) (leased w) (posts w) a
    (next_uuid w) (next_oid w) (faults w).

Definition set_next_uuid (n : N) (w : World) : World :=
  mkWorld (threads w) (categories w) (tx w) (leased w) (posts w) (activity w)
    n (next_oid w) (faults w).

Definition set_next_oid (n : N) (w : World) : World :=
  mkWorld (threads w) (categories w) (tx w) (leased w) (posts w) (activity w)
    (next_uuid w) n (faults w).

Definition set_faults (fs : list Fault) (w : World) : World :=
  mkWorld (threads w) (categories w) (tx w) (leased w) (posts w) (activity w)
    (next_uuid w) (next_oid w) fs.

(** A settled promise. *)
Inductive Settled (X : Type) : Type :=
| Resolved (x : X)
| Rejected (e : Err).
Arguments Resolved {X} x.
Arguments Rejected {X} e.

(** ** Store calls *)

(** Every call the handlers make, indexed by what its promise resolves to. *)
Inductive StoreOp : Type -> Type :=
(* pool.query(...) *)
| SelectActiveCategory (categoryId : Uuid) : StoreOp (option CategoryRow)
| SelectThread (threadId : Uuid) : StoreOp (option ThreadRow)
| UpdateThreadTitle (newTitle : string) (threadId : Uuid) (now : Date)
    : StoreOp unit
| UpdateReplyCreated (userId threadId : Uuid) (now : Date) : StoreOp unit
| UpdateReplyDeleted (threadId : Uuid) (now : Date) : StoreOp unit
| DeleteThreadRow (threadId : Uuid) : StoreOp unit
| TogglePinned (threadId : Uuid) (now : Date) : StoreOp (option ThreadRow)
| ToggleLocked (threadId : Uuid) (now : Date) : StoreOp (option ThreadRow)
| SelectThreadBySlug (wanted : string) : StoreOp (option ThreadRow)
| UpdateViewCount (threadId : Uuid) (now : Date) : StoreOp unit
(* getClient(), client.query(...), client.release() *)
| GetClient : StoreOp unit
| Begin : StoreOp unit
| InsertThread (newTitle newSlug : string) (categoryId authorId : Uuid)
    (now : Date) : StoreOp ThreadRow
| Commit : StoreOp unit
| Rollback : StoreOp unit
| Release : StoreOp unit
(* the Post model *)
| PostCreate (threadId authorId : Uuid) (authorUsername content : string)
    (tags : list string) : StoreOp Post.t
| PostFindOne (threadId : Uuid) : StoreOp (option Post.t)
| PostFindOneByComment (threadId : Uuid) (commentId : ObjectId)
    : StoreOp (option Post.t)
| PostPushComment (threadId authorId : Uuid) (authorUsername content : string)
    (parentCommentId : option ObjectId) : StoreOp (option Post.t)
| PostSetFields (threadId : Uuid) (content : option (string * Date))
    (tags : option (list string)) : StoreOp (option Post.t)
| PostSave (doc : Post.t) (changes : list Update) : StoreOp unit
| PostDeleteOne (threadId : option Uuid) : StoreOp unit
(* ActivityLog.create(...) *)
| ActivityCreate (entry : ActivityLog) : StoreOp unit.

(** *** PostgreSQL *)

(** [WHERE id = $1], first row of the result. *)
Definition thread_by_id (threadId : Uuid) (ts : list ThreadRow)
  : option ThreadRow :=
  find (fun r => N.eqb (id r) threadId) ts.

(** [UPDATE threads SET ... WHERE id = $1]: every matching row is rewritten. *)
Definition update_where_id (threadId : Uuid) (f : ThreadRow -> ThreadRow)
  (ts : list ThreadRow) : list ThreadRow :=
  map (fun r => if N.eqb (id r) threadId then f r else r) ts.

(** Trigger [trg_threads_updated_at]: [NEW.updated_at = NOW()]. *)
Definition touch (now : Date) (r : ThreadRow) : ThreadRow :=
  mkThread (id r) (title r) (slug r) (category_id r) (author_id r)
    (is_pinned r) (is_locked r) (view_count r) (reply_count r)
    (last_reply_at r) (last_reply_by r) (created_at r) now.

(** [SET title = $1]. *)
Definition row_set_title (newTitle : string) (r : ThreadRow) : ThreadRow :=
  mkThread (id r) newTitle (slug r) (category_id r) (author_id r)
    (is_pinned r) (is_locked r) (view_count r) (reply_count r)
    (last_reply_at r) (last_reply_by r) (created_at r) (updated_at r).

(** [SET reply_count = reply_count + 1, last_reply_at = NOW(),
    last_reply_by = $1]. *)
Definition row_reply_created (userId : Uuid) (now : Date) (r : ThreadRow)
  : ThreadRow :=
  mkThread (id r) (title r) (slug r) (category_id r) (author_id r)
    (is_pinned r) (is_locked r) (view_count r) (reply_count r + 1)
    (Some now) (Some userId) (created_at r) (updated_at r).

(** [SET reply_count = GREATEST(reply_count - 1, 0)]. *)
Definition row_reply_deleted (r : ThreadRow) : ThreadRow :=
  mkThread (id r) (title r) (slug r) (category_id r) (author_id r)
    (is_pinned r) (is_locked r) (view_count r)
    (Z.max (reply_count r - 1) 0)
    (last_reply_at r) (last_reply_by r) (created_at r) (updated_at r).

(** [SET view_count = view_count + 1]. *)
Definition row_viewed (r : ThreadRow) : ThreadRow :=
  mkThread (id r) (title r) (slug r) (category_id r) (author_id r)
    (is_pinned r) (is_locked r) (view_count r + 1) (reply_count r)
    (last_reply_at r) (last_reply_by r) (created_at r) (updated_at r).

(** [SET is_pinned = NOT is_pinned]. *)
Definition row_toggle_pinned (r : ThreadRow) : ThreadRow :=
  mkThread (id r) (title r) (slug r) (category_id r) (author_id r)
    (negb (is_pinned r)) (is_locked r) (view_count r) (reply_count r)
    (last_reply_at r) (last_reply_by r) (created_at r) (updated_at r).

(** [SET is_locked = NOT is_locked]. *)
Definition row_toggle_locked (r : ThreadRow) : ThreadRow :=
  mkThread (id r) (title r) (slug r) (category_id r) (author_id r)
    (is_pinned r) (negb (is_locked r)) (view_count r) (reply_count r)
    (last_reply_at r) (last_reply_by r) (created_at r) (updated_at r).

(** The row [INSERT INTO threads (title, slug, category_id, author_id)]
    builds, the other columns taking their declared defaults. *)
Definition new_thread_row (newId : Uuid) (newTitle newSlug : string)
  (categoryId authorId : Uuid) (now : Date) : ThreadRow :=
  mkThread newId newTitle newSlug categoryId authorId
    false false 0 0 None None now now.

Definition pg_error (code message : string) : Err :=
  mkErr "error" message None (Some code) [].

(** [slug VARCHAR(500) UNIQUE]. *)
(** A value that does not fit a [VARCHAR(n)] column. *)
Definition too_long (n : nat) (s : string) : bool :=
  (n <? String.length s)%nat.

Definition slug_taken (s : string) (ts : list ThreadRow) : bool :=
  existsb (fun r => String.eqb (slug r) s) ts.

(** Does [reply_count + 1] leave the INTEGER range on a row the update
    touches? *)
Definition reply_overflow (threadId : Uuid) (ts : list ThreadRow) : bool :=
  existsb (fun r => N.eqb (id r) threadId && (INT4_MAX <=? reply_count r)) ts.

(** Does [view_count + 1] leave the INTEGER range on a row the update
    touches? *)
Definition view_overflow (threadId : Uuid) (ts : list ThreadRow) : bool :=
  existsb (fun r => N.eqb (id r) threadId && (INT4_MAX <=? view_count r)) ts.

(** *** MongoDB *)

Definition post_by_thread (threadId : Uuid) (ps : list Post.t)
  : option Post.t :=
  find (fun p => N.eqb (Post.threadId p) threadId) ps.

(** The filter [{ threadId, 'comments._id': commentId }]. *)
Definition has_comment (commentId : ObjectId) (p : Post.t) : bool :=
  existsb (fun c => N.eqb (Comment._id c) commentId) (Post.comments p).

(** A comment as the schema casts the pushed object: fresh [_id], defaults
    for the flags, the counter and the voter array. *)
Definition new_comment (newId : ObjectId) (authorId : Uuid)
  (authorUsername content : string) (parentCommentId : option ObjectId)
  : Comment.t :=
  Comment.mk newId authorId authorUsername content parentCommentId
    false None false None 0 [].

(** The document [Post.create] builds, with the schema defaults. *)
(** [tags: [{ type: String, lowercase: true, trim: true }]]: the setters
    Mongoose runs on every tag it stores, by [create] and by an update
    (here on ASCII text). *)
Definition normalize_tag (tag : string) : string :=
  string_of_list_ascii
    (trim_both is_space (map to_lower (list_ascii_of_string tag))).

(** The document [Post.create] builds, with the schema defaults and the
    version key at 0. *)
Definition new_post (newId : ObjectId) (threadId authorId : Uuid)
  (authorUsername content : string) (tags : list string) : Post.t :=
  Post.mk newId threadId
    (OriginalPost.mk authorId authorUsername content false None 0 [])
    [] false 0 (map normalize_tag tags) 0.

(** [$set] of [originalPost.content], [originalPost.isEdited] and
    [originalPost.editedAt]. *)
Definition set_post_content (content : string) (now : Date) (p : Post.t)
  : Post.t :=
  let o := Post.originalPost p in
  set_originalPost
    (OriginalPost.mk (OriginalPost.authorId o) (OriginalPost.authorUsername o)
       content true (Some now)
       (OriginalPost.upvotes o) (OriginalPost.upvotedBy o)) p.

Definition apply_fields (content : option (string * Date))
  (tags : option (list string)) (p : Post.t) : Post.t :=
  let p1 := match content with
            | Some (c, now) => set_post_content c now p
            | None => p
            end in
  match tags with
  | Some ts => set_tags (map normalize_tag ts) p1
  | None => p1
  end.

(** The filter of the [updateOne] that [doc.save()] sends: the [_id], and
    the loaded version when the changes call for the check. *)
Definition matches_save (doc : Post.t) (changes : list Update) (p : Post.t)
  : bool :=
  N.eqb (Post._id p) (Post._id doc)
  && (negb (checks_version (versioning changes))
      || (Post.__v p =? Post.__v doc)).

(** *** What a store does with a call it receives *)

Definition answer {X : Type} (op : StoreOp X) (w : World)
  : Settled X * World :=
  match op in StoreOp X return Settled X * World with
  | SelectActiveCategory categoryId =>
      (Resolved
         (find (fun c => N.eqb (cat_id c) categoryId
                         && match cat_status c with
                            | CatActive => true
                            | CatArchived => false
                            end) (categories w)), w)
  | SelectThread threadId =>
      (Resolved (thread_by_id threadId (threads w)), w)
  | UpdateThreadTitle newTitle threadId now =>
      (Resolved tt,
       set_threads
         (update_where_id threadId
            (fun r => touch now (row_set_title newTitle r)) (threads w)) w)
  | UpdateReplyCreated userId threadId now =>
      if reply_overflow threadId (threads w)
      then (Rejected (pg_error "22003" "integer out of range"), w)
      else (Resolved tt,
            set_threads
              (update_where_id threadId
                 (fun r => touch now (row_reply_created userId now r))
                 (threads w)) w)
  | UpdateReplyDeleted threadId now =>
      (Resolved tt,
       set_threads
         (update_where_id threadId
            (fun r => touch now (row_reply_deleted r)) (threads w)) w)
  | DeleteThreadRow threadId =>
      (Resolved tt,
       set_threads
         (filter (fun r => negb (N.eqb (id r) threadId)) (threads w)) w)
  | TogglePinned threadId now =>
      let ts := update_where_id threadId
                  (fun r => touch now (row_toggle_pinned r)) (threads w) in
      (Resolved (thread_by_id threadId ts), set_threads ts w)
  | ToggleLocked threadId now =>
      let ts := update_where_id threadId
                  (fun r => touch now (row_toggle_locked r)) (threads w) in
      (Resolved (thread_by_id threadId ts), set_threads ts w)
  | SelectThreadBySlug wanted =>
      (* [JOIN categories c ON c.id = t.category_id WHERE t.slug = $1]; the
         join with [users] always matches, [author_id] being a foreign key *)
      (Resolved
         (find (fun r => String.eqb (slug r) wanted
                         && existsb (fun c => N.eqb (cat_id c) (category_id r))
                              (categories w)) (threads w)), w)
  | UpdateViewCount threadId now =>
      if view_overflow threadId (threads w)
      then (Rejected (pg_error "22003" "integer out of range"), w)
      else (Resolved tt,
            set_threads
              (update_where_id threadId
                 (fun r => touch now (row_viewed r)) (threads w)) w)
  | GetClient => (Resolved tt, set_leased (S (leased w)) w)
  | Begin =>
      match tx w with
      | Some _ => (Resolved tt, w)     (* already in a transaction: a warning *)
      | None => (Resolved tt, set_tx (Some []) w)
      end
  | InsertThread newTitle newSlug categoryId authorId now =>
      let row := new_thread_row (next_uuid w) newTitle newSlug
                   categoryId authorId now in
      let w1 := set_next_uuid (N.succ (next_uuid w)) w in
      (* [slug VARCHAR(500)]; a slug is ASCII text.  [title VARCHAR(500)]
         is never exceeded: [schemas.createThread] and [schemas.updateThread]
         let no longer title through to the handler. *)
      if too_long 500 newSlug
      then (Rejected
              (pg_error "22001"
                 "value too long for type character varying(500)"), w1)
      else
      match tx w with
      | Some pending =>
          if slug_taken newSlug (threads w ++ pending)
          then (Rejected
                  (pg_error "23505"
                     "duplicate key value violates unique constraint"), w1)
          else (Resolved row, set_tx (Some (pending ++ [row])) w1)
      | None =>
          if slug_taken newSlug (threads w)
          then (Rejected
                  (pg_error "23505"
                     "duplicate key value violates unique constraint"), w1)
          else (Resolved row, set_threads (threads w ++ [row]) w1)
      end
  | Commit =>
      match tx w with
      | Some pending =>
          (Resolved tt, set_tx None (set_threads (threads w ++ pending) w))
      | None => (Resolved tt, w)       (* no transaction open: a warning *)
      end
  | Rollback => (Resolved tt, set_tx None w)
  | Release => (Resolved tt, set_leased (Nat.pred (leased w)) w)
  | PostCreate threadId authorId authorUsername content tags =>
      let doc := new_post (next_oid w) threadId authorId authorUsername
                   content tags in
      (Resolved doc,
       set_next_oid (N.succ (next_oid w)) (set_posts (posts w ++ [doc]) w))
  | PostFindOne threadId =>
      (Resolved (post_by_thread threadId (posts w)), w)
  | PostFindOneByComment threadId commentId =>
      (Resolved
         (find (fun p => N.eqb (Post.threadId p) threadId
                         && has_comment commentId p) (posts w)), w)
  | PostPushComment threadId authorId authorUsername content parent =>
      let c := new_comment (next_oid w) authorId authorUsername content
                 parent in
      let ps := modify_first (fun p => N.eqb (Post.threadId p) threadId)
                  (fun p => set_comments (push (Post.comments p) c) p)
                  (posts w) in
      (Resolved (post_by_thread threadId ps),
       set_next_oid (N.succ (next_oid w)) (set_posts ps w))
  | PostSetFields threadId content tags =>
      let ps := modify_first (fun p => N.eqb (Post.threadId p) threadId)
                  (apply_fields content tags) (posts w) in
      (Resolved (post_by_thread threadId ps), set_posts ps w)
  | PostSave doc changes =>
      (* [updateOne({ _id, __v? }, delta)]: no document matched is a
         VersionError when the version key took part, and a
         DocumentNotFoundError otherwise *)
      if existsb (matches_save doc changes) (posts w)
      then (Resolved tt,
            set_posts
              (modify_first (matches_save doc changes) (saved changes)
                 (posts w)) w)
      else (Rejected
              match versioning changes with
              | VERSION_NONE =>
                  mkErr "DocumentNotFoundError" "No document found for query"
                    None None []
              | _ =>
                  (* the message goes on with the id, the version and the
                     modified paths *)
                  mkErr "VersionError" "No matching document found for id"
                    None None []
              end, w)
  | PostDeleteOne (Some threadId) =>
      (Resolved tt,
       set_posts
         (remove_first (fun p => N.eqb (Post.threadId p) threadId) (posts w))
         w)
  | PostDeleteOne None =>
      (* [{ threadId: undefined }]: no document lacks its required threadId *)
      (Resolved tt, w)
  | ActivityCreate entry =>
      (Resolved tt, set_activity (activity w ++ [entry]) w)
  end.

(** The next entry of the fault schedule; an exhausted schedule is healthy. *)
Definition next_fault (w : World) : Fault * World :=
  match faults w with
  | [] => (Healthy, w)
  | f :: rest => (f, set_faults rest w)
  end.

(** One store call as the handler sees it.  [client.release()] is a local,
    synchronous call and takes no part in the schedule. *)
Definition exec {X : Type} (op : StoreOp X) (w : World) : Settled X * World :=
  match op with
  | Release => answer op w
  | _ =>
      let (f, w0) := next_fault w in
      match f with
      | Healthy => answer op w0
      | FailBefore e => (Rejected e, w0)
      | FailAfter e => (Rejected e, snd (answer op w0))
      end
  end.

(** ** Handlers as programs over store calls *)

Inductive Prog (A : Type) : Type :=
| Ret (a : A)
| Throw (e : Err)
| Call (X : Type) (op : StoreOp X) (k : Settled X -> Prog A).
Arguments Ret {A} a.
Arguments Throw {A} e.
Arguments Call {A X} op k.

Fixpoint bind {A B : Type} (p : Prog A) (f : A -> Prog B) : Prog B :=
  match p with
  | Ret a => f a
  | Throw e => Throw e
  | Call op k => Call op (fun r => bind (k r) f)
  end.

Declare Scope prog_scope.
Delimit Scope prog_scope with prog.
Notation "x <- p ;; q" := (bind p (fun x => q))
  (at level 61, p at next level, right associativity) : prog_scope.
Notation "p ;; q" := (bind p (fun _ => q))
  (at level 61, right associativity) : prog_scope.
Local Open Scope prog_scope.

(** [await op]: a rejected promise throws. *)
Definition await {X : Type} (op : StoreOp X) : Prog X :=
  Call op (fun r => match r with
                    | Resolved x => Ret x
                    | Rejected e => Throw e
                    end).

(** [op.catch(() => {})], awaited: a rejection is swallowed. *)
Definition await_swallow {X : Type} (op : StoreOp X) : Prog unit :=
  Call op (fun _ => Ret tt).

(** [try { p } catch (err) { h err }]. *)
Fixpoint try_catch {A : Type} (p : Prog A) (h : Err -> Prog A) : Prog A :=
  match p with
  | Ret a => Ret a
  | Throw e => h e
  | Call op k => Call op (fun r => try_catch (k r) h)
  end.

(** [try { p } finally { f }], where [f] does not throw. *)
Fixpoint try_finally {A : Type} (p : Prog A) (f : Prog unit) : Prog A :=
  match p with
  | Ret a => f ;; Ret a
  | Throw e => f ;; Throw e
  | Call op k => Call op (fun r => try_finally (k r) f)
  end.

(** Running a program to completion against the world. *)
Fixpoint run {A : Type} (p : Prog A) (w : World) : Settled A * World :=
  match p with
  | Ret a => (Resolved a, w)
  | Throw e => (Rejected e, w)
  | Call op k => let (r, w') := exec op w in run (k r) w'
  end.

(** ** Responses ([utils/helpers.js], [middleware/errorHandler.js]) *)

(** The data a handler spreads into its JSON answer. *)
Inductive Body :=
| BodyNone
| BodyThread (thread : ThreadRow)
| BodyThreadPost (thread : ThreadRow) (post : option Post.t)
| BodyComment (comment : option Comment.t)
| BodyVote (votes : Z) (upvoted : bool)
| BodyPinned (pinned : bool)
| BodyLocked (locked : bool).

Record Response := mkResponse {
  status : Z;
  success : bool;
  message : string;
  body : Body
}.

(** [successResponse(res, data, message, statusCode)]. *)
Definition successResponse (data : Body) (msg : string) (statusCode : Z)
  : Response :=
  mkResponse statusCode true msg data.

Fixpoint join (sep : string) (parts : list string) : string :=
  match parts with
  | [] => ""
  | [s] => s
  | s :: rest => String.append s (String.append sep (join sep rest))
  end.

Definition code_is (c : string) (err : Err) : bool :=
  match err_code err with
  | Some c' => String.eqb c' c
  | None => false
  end.

(** [errorHandler]: the status and message start from the error's own and
    are overridden, in this order, for the known error kinds. *)
Definition errorHandler (err : Err) : Response :=
  let s0 := match err_statusCode err with
            | Some s => if s =? 0 then 500 else s
            | None => 500
            end in
  let m0 := if String.eqb (err_message err) ""
            then "Internal Server Error" else err_message err in
  let '(s1, m1) := if code_is "23505" err
                   then (409, "Resource already exists.") else (s0, m0) in
  let '(s2, m2) := if code_is "23503" err
                   then (400, "Referenced resource not found.")
                   else (s1, m1) in
  let '(s3, m3) := if code_is "23514" err
                   then (400, "Invalid data provided.") else (s2, m2) in
  let '(s4, m4) := if String.eqb (err_name err) "ValidationError"
                   then (400, join ", " (err_errors err)) else (s3, m3) in
  let '(s5, m5) := if String.eqb (err_name err) "CastError"
                   then (400, "Invalid ID format.") else (s4, m4) in
  let '(s6, m6) := if String.eqb (err_name err) "JsonWebTokenError"
                   then (401, "Invalid token.") else (s5, m5) in
  mkResponse s6 false m6 BodyNone.

(** [asyncHandler(fn)]: a handler that throws ends in [errorHandler]. *)
Definition asyncHandler (fn : Prog Response) (w : World) : Response * World :=
  match run fn w with
  | (Resolved res, w') => (res, w')
  | (Rejected err, w') => (errorHandler err, w')
  end.

(** [logActivity]: [ActivityLog.create(...).catch(...)], never thrown on. *)
Definition logActivity (userId : Uuid) (action : Action)
  (resource : option Resource) : Prog unit :=
  await_swallow (ActivityCreate (mkActivity userId action resource)).

(** A JavaScript string used as a condition: the empty string is falsy. *)
Definition truthy (s : option string) : option string :=
  match s with
  | Some "" => None
  | other => other
  end.

(** ** [controllers/threadController.js] *)

(** The view count is bumped by a query nobody awaits. *)
Definition getThread (now : Date) (wanted : string) : Prog Response :=
  found <- await (SelectThreadBySlug wanted) ;;
  match found with
  | None => Throw (AppError "Thread not found." 404)
  | Some thread =>
      await_swallow (UpdateViewCount (id thread) now) ;;
      loaded <- await (PostFindOne (id thread)) ;;
      match loaded with
      | None => Throw (AppError "Thread content not found." 404)
      | Some post =>
          Ret (successResponse (BodyThreadPost thread (Some post)) "Success"
                 200)
      end
  end.

(** The [catch] block of [createThread].  [thread] is still undefined there
    when [BEGIN] or the [INSERT] threw. *)
Definition createThread_catch {A : Type} (thread : option ThreadRow)
  (err : Err) : Prog A :=
  await Rollback ;;
  await_swallow (PostDeleteOne (option_map id thread)) ;;
  Throw err.

(** [slugged] is the value [slugify(title)] took in this call; it depends on
    [Math.random()]. *)
Definition createThread (user : User) (now : Date) (newTitle content : string)
  (categoryId : Uuid) (tags : option (list string)) (slugged : string)
  : Prog Response :=
  cat <- await (SelectActiveCategory categoryId) ;;
  match cat with
  | None => Throw (AppError "Category not found or inactive." 404)
  | Some _ =>
      await GetClient ;;
      thread <-
        try_finally
          (thread <-
             try_catch
               (await Begin ;;
                await (InsertThread newTitle slugged categoryId
                         (user_id user) now))
               (createThread_catch None) ;;
           try_catch
             (await (PostCreate (id thread) (user_id user) (username user)
                       content
                       match tags with Some ts => ts | None => [] end) ;;
              await Commit ;;
              Ret thread)
             (createThread_catch (Some thread)))
          (await_swallow Release) ;;
      logActivity (user_id user) CREATE_THREAD (Some (ResThread (id thread))) ;;
      Ret (successResponse (BodyThread thread) "Thread created" 201)
  end.

Definition updateThread (user : User) (now : Date) (threadId : Uuid)
  (newTitle content : option string) (tags : option (list string))
  : Prog Response :=
  found <- await (SelectThread threadId) ;;
  match found with
  | None => Throw (AppError "Thread not found." 404)
  | Some thread =>
      let isOwner := N.eqb (author_id thread) (user_id user) in
      let isMod := isModRole (role user) in
      if negb isOwner && negb isMod
      then Throw (AppError "Permission denied." 403)
      else
        match truthy newTitle with
        | Some t => await (UpdateThreadTitle t threadId now)
        | None => Ret tt
        end ;;
        post <- await (PostSetFields threadId
                         match truthy content with
                         | Some c => Some (c, now)
                         | None => None
                         end
                         tags) ;;
        logActivity (user_id user) UPDATE_THREAD (Some (ResThread threadId)) ;;
        Ret (successResponse
               (BodyThreadPost
                  match truthy newTitle with
                  | Some t => row_set_title t thread
                  | None => thread
                  end
                  post)
               "Thread updated" 200)
  end.

Definition deleteThread (user : User) (threadId : Uuid) : Prog Response :=
  found <- await (SelectThread threadId) ;;
  match found with
  | None => Throw (AppError "Thread not found." 404)
  | Some _ =>
      await (DeleteThreadRow threadId) ;;
      await (PostDeleteOne (Some threadId)) ;;
      logActivity (user_id user) DELETE_THREAD (Some (ResThread threadId)) ;;
      Ret (successResponse BodyNone "Thread deleted" 200)
  end.

Definition pinThread (now : Date) (threadId : Uuid) : Prog Response :=
  found <- await (TogglePinned threadId now) ;;
  match found with
  | None => Throw (AppError "Thread not found." 404)
  | Some row =>
      Ret (successResponse (BodyPinned (is_pinned row))
             (if is_pinned row then "Thread pinned" else "Thread unpinned")
             200)
  end.

Definition lockThread (now : Date) (threadId : Uuid) : Prog Response :=
  found <- await (ToggleLocked threadId now) ;;
  match found with
  | None => Throw (AppError "Thread not found." 404)
  | Some row =>
      Ret (successResponse (BodyLocked (is_locked row))
             (if is_locked row then "Thread locked" else "Thread unlocked")
             200)
  end.

(** ** [models/Post.js]: instance methods *)

(** [PostSchema.methods.toggleUpvote]: mutate [this.originalPost], then
    [this.save()], which sends the changes.  The program returns the
    mutated document, which the caller goes on reading. *)
Definition toggleUpvote (userId : Uuid) (this : Post.t) : Prog Post.t :=
  let o := Post.originalPost this in
  await (PostSave this (toggleOriginalPost_changes userId o)) ;;
  Ret (set_originalPost (toggleOriginalPost userId o) this).

(** ** [controllers/commentController.js] *)

(** [post.comments[post.comments.length - 1]]. *)
Definition last_comment (p : Post.t) : option Comment.t :=
  nth_error (Post.comments p) (List.length (Post.comments p) - 1).

(** [const comment = post.comments.id(commentId);
    if (!comment || comment.isDeleted) throw ...]: the comment when the
    test lets it through. *)
Definition live_comment (commentId : ObjectId) (p : Post.t)
  : option Comment.t :=
  match comments_id commentId (Post.comments p) with
  | Some c => if Comment.isDeleted c then None else Some c
  | None => None
  end.

Definition createComment (user : User) (now : Date) (threadId : Uuid)
  (content : string) (parentCommentId : option ObjectId) : Prog Response :=
  found <- await (SelectThread threadId) ;;
  match found with
  | None => Throw (AppError "Thread not found." 404)
  | Some thread =>
      if is_locked thread
      then Throw (AppError "Thread is locked. No new replies allowed." 403)
      else
        match parentCommentId with
        | Some parent =>
            holder <- await (PostFindOneByComment threadId parent) ;;
            match holder with
            | None => Throw (AppError "Parent comment not found." 404)
            | Some _ => Ret tt
            end
        | None => Ret tt
        end ;;
        pushed <- await (PostPushComment threadId (user_id user)
                           (username user) content parentCommentId) ;;
        match pushed with
        | None => Throw (AppError "Thread content not found." 404)
        | Some post =>
            let comment := last_comment post in
            await (UpdateReplyCreated (user_id user) threadId now) ;;
            logActivity (user_id user) CREATE_COMMENT
              (Some (ResThread threadId)) ;;
            Ret (successResponse (BodyComment comment) "Comment added" 201)
        end
  end.

Definition updateComment (user : User) (now : Date) (threadId : Uuid)
  (commentId : ObjectId) (content : string) : Prog Response :=
  loaded <- await (PostFindOne threadId) ;;
  match loaded with
  | None => Throw (AppError "Thread not found." 404)
  | Some post =>
      match live_comment commentId post with
      | None => Throw (AppError "Comment not found." 404)
      | Some comment =>
          let isOwner := N.eqb (Comment.authorId comment) (user_id user) in
          let isMod := isModRole (role user) in
          if negb isOwner && negb isMod
          then Throw (AppError "Permission denied." 403)
          else
            await (PostSave post
                     (editComment_changes
                        (comment_index commentId (Post.comments post))
                        content now comment)) ;;
            logActivity (user_id user) UPDATE_COMMENT
              (Some (ResThreadComment threadId commentId)) ;;
            Ret (successResponse
                   (BodyComment (Some (editComment content now comment)))
                   "Comment updated" 200)
      end
  end.

Definition deleteComment (user : User) (now : Date) (threadId : Uuid)
  (commentId : ObjectId) : Prog Response :=
  loaded <- await (PostFindOne threadId) ;;
  match loaded with
  | None => Throw (AppError "Thread not found." 404)
  | Some post =>
      match live_comment commentId post with
      | None => Throw (AppError "Comment not found." 404)
      | Some comment =>
          let isOwner := N.eqb (Comment.authorId comment) (user_id user) in
          let isMod := isModRole (role user) in
          if negb isOwner && negb isMod
          then Throw (AppError "Permission denied." 403)
          else
            await (PostSave post
                     (tombstone_changes
                        (comment_index commentId (Post.comments post))
                        now comment)) ;;
            await (UpdateReplyDeleted threadId now) ;;
            logActivity (user_id user) DELETE_COMMENT
              (Some (ResThreadComment threadId commentId)) ;;
            Ret (successResponse BodyNone "Comment deleted" 200)
      end
  end.

Definition upvoteThread (user : User) (threadId : Uuid) : Prog Response :=
  let userId := user_id user in
  loaded <- await (PostFindOne threadId) ;;
  match loaded with
  | None => Throw (AppError "Thread not found." 404)
  | Some post =>
      post' <- toggleUpvote userId post ;;
      logActivity userId UPVOTE_POST (Some (ResThread threadId)) ;;
      Ret (successResponse
             (BodyVote (OriginalPost.upvotes (Post.originalPost post'))
                (includes userId
                   (OriginalPost.upvotedBy (Post.originalPost post'))))
             "Vote recorded" 200)
  end.

Definition upvoteComment (user : User) (threadId : Uuid)
  (commentId : ObjectId) : Prog Response :=
  let userId := user_id user in
  loaded <- await (PostFindOne threadId) ;;
  match loaded with
  | None => Throw (AppError "Thread not found." 404)
  | Some post =>
      match live_comment commentId post with
      | None => Throw (AppError "Comment not found." 404)
      | Some comment =>
          let comment' := toggleComment userId comment in
          await (PostSave post
                   (toggleComment_changes
                      (comment_index commentId (Post.comments post))
                      userId comment)) ;;
          logActivity userId UPVOTE_COMMENT (Some (ResComment commentId)) ;;
          Ret (successResponse
                 (BodyVote (Comment.upvotes comment')
                    (includes userId (Comment.upvotedBy comment')))
                 "Vote recorded" 200)
      end
  end.

(** ** Requests and reachable worlds *)

Inductive Request :=
| ReqGetThread (now : Date) (wanted : string)
| ReqCreateThread (user : User) (now : Date) (newTitle content : string)
    (categoryId : Uuid) (tags : option (list string)) (slugged : string)
| ReqUpdateThread (user : User) (now : Date) (threadId : Uuid)
    (newTitle content : option string) (tags : option (list string))
| ReqDeleteThread (user : User) (threadId : Uuid)
| ReqPinThread (now : Date) (threadId : Uuid)
| ReqLockThread (now : Date) (threadId : Uuid)
| ReqCreateComment (user : User) (now : Date) (threadId : Uuid)
    (content : string) (parentCommentId : option ObjectId)
| ReqUpdateComment (user : User) (now : Date) (threadId : Uuid)
    (commentId : ObjectId) (content : string)
| ReqDeleteComment (user : User) (now : Date) (threadId : Uuid)
    (commentId : ObjectId)
| ReqUpvoteThread (user : User) (threadId : Uuid)
| ReqUpvoteComment (user : User) (threadId : Uuid) (commentId : ObjectId).

(** The route table of [routes/threadRoutes.js], handlers only. *)
Definition handler (r : Request) : Prog Response :=
  match r with
  | ReqGetThread now s => getThread now s
  | ReqCreateThread u now t c cat tags s => createThread u now t c cat tags s
  | ReqUpdateThread u now i t c tags => updateThread u now i t c tags
  | ReqDeleteThread u i => deleteThread u i
  | ReqPinThread now i => pinThread now i
  | ReqLockThread now i => lockThread now i
  | ReqCreateComment u now i c parent => createComment u now i c parent
  | ReqUpdateComment u now i cid c => updateComment u now i cid c
  | ReqDeleteComment u now i cid => deleteComment u now i cid
  | ReqUpvoteThread u i => upvoteThread u i
  | ReqUpvoteComment u i cid => upvoteComment u i cid
  end.

(** Serving one request to completion. *)
Definition serve (r : Request) (w : World) : Response * World :=
  asyncHandler (handler r) w.

(** Serving requests one after the other. *)
Fixpoint serve_all (rs : list Request) (w : World) : list Response * World :=
  match rs with
  | [] => ([], w)
  | r :: rest =>
      let (res, w1) := serve r w in
      let (more, w2) := serve_all rest w1 in
      (res :: more, w2)
  end.

(** Both stores empty, with the given categories and fault schedule. *)
Definition boot (cats : list CategoryRow) (fs : list Fault) : World :=
  mkWorld [] cats None O [] [] 0%N 0%N fs.

(** The worlds the portal gets into when it serves its requests one at a
    time, each handler running to completion before the next starts: it
    boots empty; the environment schedules faults at any point; the
    category handlers rewrite the categories and nothing else; the activity
    log is also written by the other handlers and expires on its own.
    Handlers that overlap are the matter of [race] and
    [reachable_in_parallel] below. *)
Inductive reachable : World -> Prop :=
| reach_boot : forall cats fs, reachable (boot cats fs)
| reach_serve : forall w r, reachable w -> reachable (snd (serve r w))
| reach_faults : forall w fs, reachable w -> reachable (set_faults fs w)
| reach_categories : forall w cats,
    reachable w -> reachable (set_categories cats w)
| reach_activity : forall w entries,
    reachable w -> reachable (set_activity entries w).

(** ** Two requests in flight *)

(** Requests run in parallel: between two store calls of one handler, the
    calls of another may reach the stores.  [advance] lets a handler make
    its next store call. *)
Definition advance {A : Type} (p : Prog A) (w : World) : Prog A * World :=
  match p with
  | Call op k => let (r, w') := exec op w in (k r, w')
  | _ => (p, w)
  end.

Inductive Turn := First | Second.

(** Two handlers interleaved as the schedule says; once it is used up, the
    first runs to completion, then the second. *)
Fixpoint race {A : Type} (schedule : list Turn) (p q : Prog A) (w : World)
  : Settled A * Settled A * World :=
  match schedule with
  | [] =>
      let (rp, w1) := run p w in
      let (rq, w2) := run q w1 in
      (rp, rq, w2)
  | First :: rest => let (p', w') := advance p w in race rest p' q w'
  | Second :: rest => let (q', w') := advance q w in race rest p q' w'
  end.

Unset Implicit Arguments.

(** * Specification vocabulary *)

(** The stored count agrees with the voter array. *)
Definition count_matches (votes : Z) (voters : list Uuid) : Prop :=
  votes = Z.of_nat (List.length voters).

(** The toggle, on the pair of a count and a voter array. *)
Definition toggled (userId : Uuid) (votes : Z) (voters : list Uuid)
  : Z * list Uuid :=
  match indexOf userId voters with
  | None => (votes + 1, push voters userId)
  | Some idx => (votes - 1, splice1 idx voters)
  end.

(** [triple P p Q]: from a world satisfying [P], the run of [p] ends with a
    result and a world satisfying [Q].  Runs are total, so this is a total
    correctness statement. *)
Definition triple {A : Type} (P : World -> Prop) (p : Prog A)
  (Q : Settled A -> World -> Prop) : Prop :=
  forall w, P w -> Q (fst (run p w)) (snd (run p w)).

(** A count and its voter array: the count is the array's length and no
    voter occurs twice. *)
Definition voters_ok (votes : Z) (voters : list Uuid) : Prop :=
  count_matches votes voters /\ NoDup voters.

Definition comment_ok (c : Comment.t) : Prop :=
  voters_ok (Comment.upvotes c) (Comment.upvotedBy c).

Definition post_ok (p : Post.t) : Prop :=
  voters_ok (OriginalPost.upvotes (Post.originalPost p))
    (OriginalPost.upvotedBy (Post.originalPost p))
  /\ Forall comment_ok (Post.comments p).

(** A metadata row: its count is not negative and its id was handed out. *)
Definition row_ok (next : N) (r : ThreadRow) : Prop :=
  0 <= reply_count r /\ (id r < next)%N.

(** What holds of every world the portal reaches. *)
Record well_formed (w : World) : Prop := mkWellFormed {
  wf_threadIds : NoDup (map Post.threadId (posts w));
  wf_ids : NoDup (map Post._id (posts w));
  wf_threadId_bound :
    Forall (fun p => (Post.threadId p < next_uuid w)%N) (posts w);
  wf_id_bound : Forall (fun p => (Post._id p < next_oid w)%N) (posts w);
  wf_posts : Forall post_ok (posts w);
  wf_rows : Forall (row_ok (next_uuid w)) (threads w);
  wf_pending :
    forall pending, tx w = Some pending ->
                    Forall (row_ok (next_uuid w)) pending
}.

(** The calls whose effect depends on their argument: the changes a
    [save()] sends must leave the stored document sound, a created document
    must carry a thread id no document has yet. *)
Definition safe_op {X : Type} (op : StoreOp X) (w : World) : Prop :=
  match op with
  | PostSave doc changes =>
      forall p, In p (posts w) -> Post._id p = Post._id doc ->
                post_ok (apply_changes changes p)
  | PostCreate threadId _ _ _ _ =>
      (threadId < next_uuid w)%N
      /\ ~ In threadId (map Post.threadId (posts w))
  | _ => True
  end.


(** The comment with this id is a tombstone in the document. *)
Definition tombstoned (commentId : ObjectId) (p : Post.t) : Prop :=
  exists c,
    comments_id commentId (Post.comments p) = Some c
    /\ Comment.isDeleted c = true
    /\ Comment.content c = "[deleted]".

(** The thread id has been handed out, and whenever the thread has a
    document, the comment is a tombstone in it. *)
Definition entombed (threadId : Uuid) (commentId : ObjectId) (w : World)
  : Prop :=
  (threadId < next_uuid w)%N
  /\ forall p, post_by_thread threadId (posts w) = Some p ->
               tombstoned commentId p.



(** A well-formed world in which the comment is entombed. *)
Definition kept (threadId : Uuid) (commentId : ObjectId) (w : World) : Prop :=
  well_formed w /\ entombed threadId commentId w.

(** The store calls of [createThread] in order: the category lookup,
    [getClient], [BEGIN], the [INSERT], [Post.create], and then either
    [COMMIT] or [ROLLBACK] and the clean-up [deleteOne].  Here the first four
    are answered and [Post.create] is rejected with [e], before or after the
    store applied it; [rest] schedules the remaining calls. *)
Definition content_write_fails (w : World) (e : Err) (f : Fault)
  (rest : list Fault) : Prop :=
  faults w = Healthy :: Healthy :: Healthy :: Healthy :: f :: rest
  /\ (f = FailBefore e \/ f = FailAfter e).

(** The category is active, no transaction is open on the client, and the
    slug is free and fits its column: the [INSERT] goes through when it is
    answered. *)
Definition insert_goes_through (w : World) (categoryId : Uuid)
  (slugged : string) : Prop :=
  (exists cat,
     find (fun c => N.eqb (cat_id c) categoryId
                    && match cat_status c with
                       | CatActive => true
                       | CatArchived => false
                       end) (categories w) = Some cat)
  /\ tx w = None
  /\ slug_taken slugged (threads w) = false
  /\ (String.length slugged <= 500)%nat.

(** The claim that after a failed content write neither the metadata row
    nor the content document of the new thread exists, and the original
    error is what the caller gets. *)
Definition saga_leaves_neither (w : World) (user : User) (now : Date)
  (newTitle content : string) (categoryId : Uuid)
  (tags : option (list string)) (slugged : string) : Prop :=
  forall e f rest,
    content_write_fails w e f rest ->
    insert_goes_through w categoryId slugged ->
    let out := run (createThread user now newTitle content categoryId tags
                      slugged) w in
    fst out = Rejected e
    /\ thread_by_id (next_uuid w) (threads (snd out)) = None
    /\ post_by_thread (next_uuid w) (posts (snd out)) = None.

(** The store calls of [createComment] in order: the thread lookup, the
    parent lookup when a parent is given, the [$push], the counter update.
    Here all are answered but the counter update, which is rejected with
    [e], before or after the store applied it. *)
Definition counter_update_fails (w : World) (parent : option ObjectId)
  (e : Err) (f : Fault) (rest : list Fault) : Prop :=
  faults w
  = Healthy
    :: match parent with Some _ => [Healthy] | None => [] end
    ++ Healthy :: f :: rest
  /\ (f = FailBefore e \/ f = FailAfter e).

(** The claim that a caller can tell a comment written with a stale counter
    from a call that wrote nothing: whenever serving [req] in [drift] writes
    to the documents and serving it in [failed] writes nothing, the two
    answers differ. *)
Definition partial_success_distinguishable (req : Request)
  (drift failed : World) : Prop :=
  posts (snd (serve req drift)) <> posts drift ->
  posts (snd (serve req failed)) = posts failed ->
  fst (serve req drift) <> fst (serve req failed).


(** * Concrete users and worlds *)

Definition carol : User := mkUser 3%N "carol" RoleModerator.

(** A world with the metadata row of thread 0 and no content document. *)
Definition orphan_row_world : World :=
  mkWorld
    [new_thread_row 0%N "Hello World" "hello-world-a3f7" 7%N 1%N 100]
    [mkCategory 7%N CatActive] None O [] [] 1%N 0%N [].

Definition alice : User := mkUser 1%N "alice" RoleUser.
Definition bob : User := mkUser 2%N "bob" RoleUser.
Definition dave : User := mkUser 4%N "dave" RoleAdmin.

Definition general : CategoryRow := mkCategory 7%N CatActive.

(** Thread 0 by alice, freshly created. *)
Definition hello_world : World :=
  snd (serve (ReqCreateThread alice 100 "Hello World" "body of ten chars"
                7%N None "hello-world-a3f7")
         (boot [general] [])).

(** Then locked by a moderator. *)
Definition hello_locked : World :=
  snd (serve (ReqLockThread 150 0%N) hello_world).

(** Thread 0 with the comment Hi (id 1), then that comment soft-deleted. *)
Definition hello_hi : World :=
  snd (serve (ReqCreateComment bob 200 0%N "Hi" None) hello_world).

Definition hello_hi_deleted : World :=
  snd (serve (ReqDeleteComment bob 300 0%N 1%N) hello_hi).

(** What a commenter submits, and what a deleter targets. *)
Record Draft := mkDraft {
  draft_user : User;
  draft_now : Date;
  draft_content : string;
  draft_parent : option ObjectId
}.

Record Removal := mkRemoval {
  removal_user : User;
  removal_now : Date;
  removal_commentId : ObjectId
}.

Definition addComment_on (threadId : Uuid) (d : Draft) : Request :=
  ReqCreateComment (draft_user d) (draft_now d) threadId (draft_content d)
    (draft_parent d).

Definition softDelete_on (threadId : Uuid) (r : Removal) : Request :=
  ReqDeleteComment (removal_user r) (removal_now r) threadId
    (removal_commentId r).

Definition succeeded (res : Response) : Prop := success res = true.

(** A driver error: the call timed out. *)
Definition timed_out : Err :=
  mkErr "MongoNetworkTimeoutError" "connection timed out" None None [].

(** An empty portal in which [Post.create] times out after the store wrote
    the document, and the clean-up [deleteOne] is rejected as well. *)
Definition lost_acknowledgement : World :=
  boot [general]
    [Healthy; Healthy; Healthy; Healthy; FailAfter timed_out; Healthy;
     FailBefore timed_out].

(** An empty portal in which [Post.create] times out after the store wrote
    the document, and the clean-up goes through. *)
Definition write_times_out : World :=
  boot [general]
    [Healthy; Healthy; Healthy; Healthy; FailAfter timed_out; Healthy;
     Healthy].

(** A driver error of the relational store. *)
Definition pg_unreachable : Err :=
  mkErr "Error" "Connection terminated unexpectedly" None None [].

(** Thread 0 exists; the relational store drops out for the counter update
    of the next comment. *)
Definition counter_unreachable : World :=
  set_faults [Healthy; Healthy; FailBefore pg_unreachable] hello_world.

(** Thread 0 exists; the relational store is already out for the first
    lookup. *)
Definition lookup_unreachable : World :=
  set_faults [FailBefore pg_unreachable] hello_world.

(** * More of the code: middleware, helpers, routes *)

(** ** [middleware/auth.js]: [authorize] *)

(** [ROLE_HIERARCHY = { user: 1, moderator: 2, admin: 3 }]. *)
Definition role_level (r : Role) : Z :=
  match r with
  | RoleUser => 1
  | RoleModerator => 2
  | RoleAdmin => 3
  end.

Definition role_name (r : Role) : string :=
  match r with
  | RoleUser => "user"
  | RoleModerator => "moderator"
  | RoleAdmin => "admin"
  end.

(** [Math.min(...levels)]; [None] stands for [Infinity], the minimum of no
    number at all. *)
Fixpoint math_min (levels : list Z) : option Z :=
  match levels with
  | [] => None
  | x :: rest =>
      match math_min rest with
      | None => Some x
      | Some m => Some (Z.min x m)
      end
  end.

(** What a middleware does: call [next()], or answer itself. *)
Inductive Passage :=
| Next
| Answered (res : Response).

(** [authorize(...roles)], on [req.user].  The roles of the hierarchy all
    have a non-zero level, so the [|| 0] of the source never applies to
    them. *)
Definition authorize (roles : list Role) (user : option User) : Passage :=
  match user with
  | None => Answered (mkResponse 401 false "Not authenticated." BodyNone)
  | Some u =>
      let userLevel := role_level (role u) in
      let requiredLevel := math_min (map role_level roles) in
      if match requiredLevel with
         | None => true
         | Some m => userLevel <? m
         end
      then Answered
             (mkResponse 403 false
                (String.append "Access denied. Required role: "
                   (String.append (join " or " (map role_name roles)) "."))
                BodyNone)
      else Next
  end.

(** ** [routes/threadRoutes.js]: the routes behind a role check *)

(** [authorize(...roles), handler] for an authenticated user. *)
Definition guarded (roles : list Role) (user : User) (h : Prog Response)
  : Prog Response :=
  match authorize roles (Some user) with
  | Next => h
  | Answered res => Ret res
  end.

(** [router.delete('/:id', authenticate, authorize('moderator', 'admin'),
    deleteThread)]. *)
Definition route_deleteThread (user : User) (threadId : Uuid)
  : Prog Response :=
  guarded [RoleModerator; RoleAdmin] user (deleteThread user threadId).

(** [router.patch('/:id/pin', authenticate,
    authorize('moderator', 'admin'), pinThread)]. *)
Definition route_pinThread (user : User) (now : Date) (threadId : Uuid)
  : Prog Response :=
  guarded [RoleModerator; RoleAdmin] user (pinThread now threadId).

(** [router.patch('/:id/lock', authenticate,
    authorize('moderator', 'admin'), lockThread)]. *)
Definition route_lockThread (user : User) (now : Date) (threadId : Uuid)
  : Prog Response :=
  guarded [RoleModerator; RoleAdmin] user (lockThread now threadId).

(** ** [utils/helpers.js]: pagination *)

(** What [parseInt] gives, and what the arithmetic on it gives: [NaN], an
    infinity (from a digit string beyond the range of a double), or an
    integer.  JavaScript numbers are doubles; the integer arithmetic below
    is theirs as long as every operand and result stays within 2^53 in
    magnitude, which the theorems on these functions assume. *)
Inductive JsNumber :=
| NaN
| NegInfinity
| PosInfinity
| Num (z : Z).

(** [x || d]: [NaN] and [0] are falsy. *)
Definition or_default (x : JsNumber) (d : Z) : JsNumber :=
  match x with
  | NaN => Num d
  | Num 0 => Num d
  | other => other
  end.

(** [Math.max(a, x)] and [Math.min(a, x)] for an integer [a]. *)
Definition math_max (a : Z) (x : JsNumber) : JsNumber :=
  match x with
  | NaN => NaN
  | NegInfinity => Num a
  | PosInfinity => PosInfinity
  | Num z => Num (Z.max a z)
  end.

Definition math_min_with (a : Z) (x : JsNumber) : JsNumber :=
  match x with
  | NaN => NaN
  | NegInfinity => NegInfinity
  | PosInfinity => Num a
  | Num z => Num (Z.min a z)
  end.

(** [x - 1]. *)
Definition js_pred (x : JsNumber) : JsNumber :=
  match x with
  | Num z => Num (z - 1)
  | other => other
  end.

(** [x * y]: an infinity times zero is [NaN]. *)
Definition js_mul (x y : JsNumber) : JsNumber :=
  let signed (positive : bool) :=
    if positive then PosInfinity else NegInfinity in
  let scaled (positive : bool) (z : Z) :=
    if z =? 0 then NaN else signed (Bool.eqb positive (0 <? z)) in
  match x, y with
  | NaN, _ => NaN
  | _, NaN => NaN
  | Num a, Num b => Num (a * b)
  | PosInfinity, Num b => scaled true b
  | NegInfinity, Num b => scaled false b
  | Num a, PosInfinity => scaled true a
  | Num a, NegInfinity => scaled false a
  | PosInfinity, PosInfinity => PosInfinity
  | NegInfinity, NegInfinity => PosInfinity
  | PosInfinity, NegInfinity => NegInfinity
  | NegInfinity, PosInfinity => NegInfinity
  end.

Record Pagination := mkPagination {
  page : JsNumber;
  limit : JsNumber;
  offset : JsNumber
}.

(** [getPagination(query)], on the values [parseInt(query.page)] and
    [parseInt(query.limit)]. *)
Definition getPagination (parsedPage parsedLimit : JsNumber) : Pagination :=
  let page := math_max 1 (or_default parsedPage 1) in
  let limit := math_min_with 100 (math_max 1 (or_default parsedLimit 20)) in
  mkPagination page limit (js_mul (js_pred page) limit).

(** The largest page whose offset is exact: 2^53 / 100. *)
Definition MAX_EXACT_PAGE : Z := 90071992547409.

Record PageInfo := mkPageInfo {
  total : Z;
  info_page : Z;
  info_limit : Z;
  totalPages : Z;
  hasNext : bool;
  hasPrev : bool
}.

(** [Math.ceil(total / limit)], for a non-zero [limit]; the division is
    one of doubles, and exact enough for [Math.ceil] on the totals and
    limits of X4. *)
Definition ceil_div (a b : Z) : Z := - ((- a) / b).

(** The [pagination] object of [paginatedResponse(data, total, page,
    limit)], for a finite [page] and [limit]. *)
Definition paginatedResponse (total page limit : Z) : PageInfo :=
  mkPageInfo total page limit (ceil_div total limit)
    (page * limit <? total) (1 <? page).

(** ** [middleware/errorHandler.js], read as a table *)

(** The rules of [errorHandler] from the strongest to the weakest: the
    source tests them in the opposite order and lets each later test
    overwrite the earlier result. *)
Definition errorHandler_rules (err : Err) : list (bool * (Z * string)) :=
  [ (String.eqb (err_name err) "JsonWebTokenError", (401, "Invalid token."));
    (String.eqb (err_name err) "CastError", (400, "Invalid ID format."));
    (String.eqb (err_name err) "ValidationError",
     (400, join ", " (err_errors err)));
    (code_is "23514" err, (400, "Invalid data provided."));
    (code_is "23503" err, (400, "Referenced resource not found."));
    (code_is "23505" err, (409, "Resource already exists.")) ].

(** The status and message of the first rule that applies, or else the
    error's own, with 500 and a fixed text for what the error lacks. *)
Fixpoint first_rule (rules : list (bool * (Z * string)))
  (otherwise : Z * string) : Z * string :=
  match rules with
  | [] => otherwise
  | (true, answer) :: _ => answer
  | (false, _) :: rest => first_rule rest otherwise
  end.

Definition errorHandler_table (err : Err) : Response :=
  let own :=
    (match err_statusCode err with
     | Some s => if s =? 0 then 500 else s
     | None => 500
     end,
     if String.eqb (err_message err) ""
     then "Internal Server Error" else err_message err) in
  let answer := first_rule (errorHandler_rules err) own in
  mkResponse (fst answer) false (snd answer) BodyNone.

(** ** [utils/helpers.js]: [slugify], on ASCII text *)

(** On text made of ASCII characters the classes [\w] and [\s] of the
    regular expressions are as written here. *)
Definition is_ascii (text : list Ascii.ascii) : Prop :=
  Forall (fun c => (code c < 128)%nat) text.

Definition is_lower (c : Ascii.ascii) : bool :=
  (97 <=? code c)%nat && (code c <=? 122)%nat.

Definition is_digit (c : Ascii.ascii) : bool :=
  (48 <=? code c)%nat && (code c <=? 57)%nat.

Definition is_hyphen (c : Ascii.ascii) : bool := (code c =? 45)%nat.

Definition is_underscore (c : Ascii.ascii) : bool := (code c =? 95)%nat.

(** [\w]: [[A-Za-z0-9_]]. *)
Definition is_word (c : Ascii.ascii) : bool :=
  is_upper c || is_lower c || is_digit c || is_underscore c.

(** [[\s_-]]. *)
Definition is_separator (c : Ascii.ascii) : bool :=
  is_space c || is_underscore c || is_hyphen c.

Definition hyphen : Ascii.ascii := Ascii.ascii_of_nat 45.

(** [.replace(/[\s_-]+/g, '-')]: every maximal run of separators becomes one
    hyphen.  [inRun] tells that the previous character was a separator. *)
Fixpoint collapse (inRun : bool) (text : list Ascii.ascii)
  : list Ascii.ascii :=
  match text with
  | [] => []
  | c :: rest =>
      if is_separator c
      then if inRun then collapse true rest else hyphen :: collapse true rest
      else c :: collapse false rest
  end.

(** The [base] of [slugify]: lower case, trimmed, without the characters
    outside [[\w\s-]], runs of separators collapsed, hyphens trimmed. *)
Definition slug_base (text : list Ascii.ascii) : list Ascii.ascii :=
  trim_both is_hyphen
    (collapse false
       (filter (fun c => is_word c || is_space c || is_hyphen c)
          (trim_both is_space (map to_lower text)))).

(** [slugify(text)], [suffix] being what
    [Math.random().toString(36).substring(2, 6)] gave in this call. *)
Definition slugify (text suffix : string) : string :=
  String.append
    (string_of_list_ascii (slug_base (list_ascii_of_string text)))
    (String.append "-" suffix).

(** The characters a slug base is made of: [[a-z0-9-]]. *)
Definition is_slug_char (c : Ascii.ascii) : bool :=
  is_lower c || is_digit c || is_hyphen c.

(** No two hyphens in a row. *)
Fixpoint no_double_hyphen (text : list Ascii.ascii) : Prop :=
  match text with
  | [] => True
  | c :: rest =>
      match rest with
      | [] => True
      | d :: _ => ~ (is_hyphen c = true /\ is_hyphen d = true)
      end /\ no_double_hyphen rest
  end.

(** The first character, if any, fails [test]. *)
Definition starts_clean (test : Ascii.ascii -> bool)
  (text : list Ascii.ascii) : Prop :=
  match text with
  | [] => True
  | c :: _ => test c = false
  end.

(** [[A-Za-z0-9]]. *)
Definition is_alnum (c : Ascii.ascii) : bool :=
  is_upper c || is_lower c || is_digit c.

(** ** Schedules and worlds for the creation saga *)

(** The first five calls of [createThread] are answered and [COMMIT] is
    rejected with [e]; the [ROLLBACK] and the clean-up delete that follow
    are answered. *)
Definition commit_fails (w : World) (e : Err) (f : Fault) (rest : list Fault)
  : Prop :=
  faults w
  = Healthy :: Healthy :: Healthy :: Healthy :: Healthy :: f
    :: Healthy :: Healthy :: rest
  /\ (f = FailBefore e \/ f = FailAfter e).

(** An empty portal where the acknowledgement of [COMMIT] is lost. *)
Definition commit_unacknowledged : World :=
  boot [general]
    [Healthy; Healthy; Healthy; Healthy; Healthy; FailAfter pg_unreachable;
     Healthy; Healthy].

(** An empty portal where [COMMIT] does not reach the store. *)
Definition commit_unreachable : World :=
  boot [general]
    [Healthy; Healthy; Healthy; Healthy; Healthy; FailBefore pg_unreachable;
     Healthy; Healthy].

(** The arguments of the thread of [hello_world], once more. *)
Definition hello_again : Request :=
  ReqCreateThread bob 500 "Hello World" "another body of text" 7%N None
    "hello-world-a3f7".

(** A category that was archived. *)
Definition archive : CategoryRow := mkCategory 8%N CatArchived.

(** * Properties *)

(** ** Voter arrays *)

Lemma indexOf_None (x : Uuid) (arr : list Uuid) :
  indexOf x arr = None <-> ~ In x arr.
Proof.
  induction arr as [|y rest IH]; simpl.
  - tauto.
  - destruct (N.eqb_spec x y) as [->|Hne].
    + split; [discriminate | intros H; exfalso; apply H; now left].
    + destruct (indexOf x rest) eqn:E.
      * split; [discriminate|].
        intros H. exfalso. apply H. right.
        destruct (in_dec N.eq_dec x rest) as [Hin|Hout]; [exact Hin|].
        apply IH in Hout. discriminate.
      * split; [|reflexivity].
        intros _ [Heq|Hin]; [congruence|].
        now apply IH in Hin.
Qed.

Lemma indexOf_Some_lt (x : Uuid) (arr : list Uuid) (i : nat) :
  indexOf x arr = Some i -> (i < List.length arr)%nat.
Proof.
  revert i. induction arr as [|y rest IH]; simpl; intros i H.
  - discriminate.
  - destruct (N.eqb x y).
    + injection H as <-. lia.
    + destruct (indexOf x rest) as [j|]; [|discriminate].
      injection H as <-. specialize (IH j eq_refl). lia.
Qed.


Lemma length_push {A : Type} (arr : list A) (x : A) :
  List.length (push arr x) = S (List.length arr).
Proof. unfold push. rewrite length_app. simpl. lia. Qed.

Lemma length_splice1 {A : Type} (i : nat) (arr : list A) :
  (i < List.length arr)%nat ->
  S (List.length (splice1 i arr)) = List.length arr.
Proof.
  revert i. induction arr as [|y rest IH]; simpl; intros i H.
  - lia.
  - destruct i as [|i]; [reflexivity|].
    simpl. rewrite IH by lia. reflexivity.
Qed.

Lemma In_splice1 {A : Type} (i : nat) (arr : list A) (y : A) :
  In y (splice1 i arr) -> In y arr.
Proof.
  revert i. induction arr as [|z rest IH]; intros i H.
  - destruct i; exact H.
  - destruct i as [|i]; simpl in *; [now right|].
    destruct H as [->|H]; [now left | right; eauto].
Qed.

Lemma NoDup_splice1 {A : Type} (i : nat) (arr : list A) :
  NoDup arr -> NoDup (splice1 i arr).
Proof.
  revert i. induction arr as [|z rest IH]; intros i H.
  - destruct i; constructor.
  - inversion H as [|? ? Hz Hrest]; subst.
    destruct i as [|i]; simpl; [exact Hrest|].
    constructor; [|now apply IH].
    intros Hin. apply Hz. eapply In_splice1; eauto.
Qed.

Lemma NoDup_push (arr : list Uuid) (x : Uuid) :
  NoDup arr -> ~ In x arr -> NoDup (push arr x).
Proof.
  intros Hnd Hout. unfold push.
  induction arr as [|y rest IH]; simpl.
  - constructor; [tauto | constructor].
  - inversion Hnd as [|? ? Hy Hrest]; subst.
    constructor.
    + rewrite in_app_iff. simpl. intros [H|[H|[]]]; [tauto|].
      apply Hout. now left.
    + apply IH; [exact Hrest|]. intros H. apply Hout. now right.
Qed.



Lemma toggleOriginalPost_toggled (userId : Uuid) (o : OriginalPost.t) :
  (OriginalPost.upvotes (toggleOriginalPost userId o),
   OriginalPost.upvotedBy (toggleOriginalPost userId o))
  = toggled userId (OriginalPost.upvotes o) (OriginalPost.upvotedBy o).
Proof.
  unfold toggleOriginalPost, toggled.
  destruct (indexOf userId (OriginalPost.upvotedBy o)); reflexivity.
Qed.

Lemma toggleComment_toggled (userId : Uuid) (c : Comment.t) :
  (Comment.upvotes (toggleComment userId c),
   Comment.upvotedBy (toggleComment userId c))
  = toggled userId (Comment.upvotes c) (Comment.upvotedBy c).
Proof.
  unfold toggleComment, toggled.
  destruct (indexOf userId (Comment.upvotedBy c)); reflexivity.
Qed.

Lemma toggled_count_matches (userId : Uuid) (votes : Z) (voters : list Uuid) :
  count_matches votes voters ->
  count_matches (fst (toggled userId votes voters))
    (snd (toggled userId votes voters)).
Proof.
  unfold count_matches, toggled. intros ->.
  destruct (indexOf userId voters) as [i|] eqn:E; simpl.
  - apply indexOf_Some_lt in E. apply length_splice1 in E. lia.
  - rewrite length_push. lia.
Qed.

Lemma toggled_NoDup (userId : Uuid) (votes : Z) (voters : list Uuid) :
  NoDup voters -> NoDup (snd (toggled userId votes voters)).
Proof.
  unfold toggled. intros Hnd.
  destruct (indexOf userId voters) as [i|] eqn:E; simpl.
  - now apply NoDup_splice1.
  - apply NoDup_push; [exact Hnd | now apply indexOf_None].
Qed.



(** ** Runs of composed programs *)

Lemma run_bind {A B : Type} (p : Prog A) (f : A -> Prog B) (w : World) :
  run (bind p f) w
  = match run p w with
    | (Resolved a, w') => run (f a) w'
    | (Rejected e, w') => (Rejected e, w')
    end.
Proof.
  revert w. induction p as [a|e|X op k IH]; intros w; simpl.
  - destruct (run (f a) w) as [[]]; reflexivity.
  - reflexivity.
  - destruct (exec op w) as [r w']. apply IH.
Qed.

Lemma run_try_catch {A : Type} (p : Prog A) (h : Err -> Prog A) (w : World) :
  run (try_catch p h) w
  = match run p w with
    | (Resolved a, w') => (Resolved a, w')
    | (Rejected e, w') => run (h e) w'
    end.
Proof.
  revert w. induction p as [a|e|X op k IH]; intros w; simpl.
  - reflexivity.
  - destruct (run (h e) w) as [[]]; reflexivity.
  - destruct (exec op w) as [r w']. apply IH.
Qed.

Lemma run_try_finally {A : Type} (p : Prog A) (f : Prog unit) (w : World) :
  run (try_finally p f) w
  = match run p w with
    | (r, w') =>
        match run f w' with
        | (Resolved _, w'') => (r, w'')
        | (Rejected e, w'') => (Rejected e, w'')
        end
    end.
Proof.
  revert w. induction p as [a|e|X op k IH]; intros w; simpl.
  - rewrite run_bind. destruct (run f w) as [[]]; reflexivity.
  - rewrite run_bind. destruct (run f w) as [[]]; reflexivity.
  - destruct (exec op w) as [r w']. apply IH.
Qed.

Lemma triple_ret {A : Type} (P : World -> Prop) (a : A)
  (Q : Settled A -> World -> Prop) :
  (forall w, P w -> Q (Resolved a) w) -> triple P (Ret a) Q.
Proof. intros H w Hw. now apply H. Qed.

Lemma triple_throw {A : Type} (P : World -> Prop) (e : Err)
  (Q : Settled A -> World -> Prop) :
  (forall w, P w -> Q (Rejected e) w) -> triple P (Throw e) Q.
Proof. intros H w Hw. now apply H. Qed.

Lemma triple_call {A X : Type} (P : World -> Prop) (op : StoreOp X)
  (k : Settled X -> Prog A) (R : Settled X -> World -> Prop)
  (Q : Settled A -> World -> Prop) :
  (forall w, P w -> R (fst (exec op w)) (snd (exec op w))) ->
  (forall r, triple (R r) (k r) Q) ->
  triple P (Call op k) Q.
Proof.
  intros Hop Hk w Hw. simpl.
  specialize (Hop w Hw). destruct (exec op w) as [r w']. now apply Hk.
Qed.

Lemma triple_bind {A B : Type} (P : World -> Prop) (p : Prog A)
  (f : A -> Prog B) (R : Settled A -> World -> Prop)
  (Q : Settled B -> World -> Prop) :
  triple P p R ->
  (forall a, triple (R (Resolved a)) (f a) Q) ->
  (forall e w, R (Rejected e) w -> Q (Rejected e) w) ->
  triple P (bind p f) Q.
Proof.
  intros Hp Hf He w Hw. rewrite run_bind.
  specialize (Hp w Hw). destruct (run p w) as [[a|e] w']; simpl in Hp.
  - now apply Hf.
  - now apply He.
Qed.

Lemma triple_try_catch {A : Type} (P : World -> Prop) (p : Prog A)
  (h : Err -> Prog A) (R Q : Settled A -> World -> Prop) :
  triple P p R ->
  (forall a w, R (Resolved a) w -> Q (Resolved a) w) ->
  (forall e, triple (R (Rejected e)) (h e) Q) ->
  triple P (try_catch p h) Q.
Proof.
  intros Hp Ha Hh w Hw. rewrite run_try_catch.
  specialize (Hp w Hw). destruct (run p w) as [[a|e] w']; simpl in Hp.
  - now apply Ha.
  - now apply Hh.
Qed.

Lemma triple_try_finally {A : Type} (P : World -> Prop) (p : Prog A)
  (f : Prog unit) (R Q : Settled A -> World -> Prop) :
  triple P p R ->
  (forall r, triple (R r) f
               (fun r' w => match r' with
                            | Resolved _ => Q r w
                            | Rejected e => Q (Rejected e) w
                            end)) ->
  triple P (try_finally p f) Q.
Proof.
  intros Hp Hf w Hw. rewrite run_try_finally.
  specialize (Hp w Hw). destruct (run p w) as [r w']; simpl in Hp.
  specialize (Hf r w' Hp). destruct (run f w') as [[u|e] w'']; exact Hf.
Qed.

Lemma triple_weaken {A : Type} (P P' : World -> Prop) (p : Prog A)
  (Q Q' : Settled A -> World -> Prop) :
  triple P' p Q' ->
  (forall w, P w -> P' w) ->
  (forall r w, Q' r w -> Q r w) ->
  triple P p Q.
Proof. intros H HP HQ w Hw. apply HQ, H, HP, Hw. Qed.

(** ** Lists rewritten in place *)

Lemma map_modify_first {A B : Type} (h : A -> B) (test : A -> bool)
  (g : A -> A) (l : list A) :
  (forall x, In x l -> test x = true -> h (g x) = h x) ->
  map h (modify_first test g l) = map h l.
Proof.
  induction l as [|x rest IH]; simpl; intros H; [reflexivity|].
  destruct (test x) eqn:E; simpl.
  - f_equal. apply H; [now left | exact E].
  - f_equal. apply IH. intros y Hy. apply H. now right.
Qed.

Lemma Forall_modify_first {A : Type} (P : A -> Prop) (test : A -> bool)
  (g : A -> A) (l : list A) :
  Forall P l ->
  (forall x, In x l -> test x = true -> P x -> P (g x)) ->
  Forall P (modify_first test g l).
Proof.
  induction l as [|x rest IH]; simpl; intros HF H; [constructor|].
  inversion HF as [|? ? Hx Hrest]; subst.
  destruct (test x) eqn:E.
  - constructor; [|exact Hrest]. apply H; auto.
  - constructor; [exact Hx|]. apply IH; [exact Hrest|].
    intros y Hy. apply H. now right.
Qed.

Lemma In_remove_first {A : Type} (test : A -> bool) (l : list A) (x : A) :
  In x (remove_first test l) -> In x l.
Proof.
  induction l as [|y rest IH]; simpl; [tauto|].
  destruct (test y); simpl; [tauto|].
  intros [->|H]; [now left | right; auto].
Qed.

Lemma Forall_remove_first {A : Type} (P : A -> Prop) (test : A -> bool)
  (l : list A) :
  Forall P l -> Forall P (remove_first test l).
Proof.
  rewrite !Forall_forall. intros H x Hx. apply H.
  eapply In_remove_first; eauto.
Qed.

Lemma NoDup_map_remove_first {A B : Type} (h : A -> B) (test : A -> bool)
  (l : list A) :
  NoDup (map h l) -> NoDup (map h (remove_first test l)).
Proof.
  induction l as [|y rest IH]; simpl; intros H; [constructor|].
  inversion H as [|? ? Hy Hrest]; subst.
  destruct (test y); simpl; [exact Hrest|].
  constructor; [|now apply IH].
  rewrite in_map_iff in *. intros [z [Hz Hin]]. apply Hy.
  exists z. split; [exact Hz|]. eapply In_remove_first; eauto.
Qed.

Lemma NoDup_map_inj {A B : Type} (h : A -> B) (l : list A) (a b : A) :
  NoDup (map h l) -> In a l -> In b l -> h a = h b -> a = b.
Proof.
  induction l as [|x rest IH]; simpl; intros Hnd Ha Hb Heq; [tauto|].
  inversion Hnd as [|? ? Hx Hrest]; subst.
  destruct Ha as [->|Ha], Hb as [->|Hb].
  - reflexivity.
  - exfalso. apply Hx. rewrite Heq. now apply in_map.
  - exfalso. apply Hx. rewrite <- Heq. now apply in_map.
  - now apply IH.
Qed.

Lemma find_In {A : Type} (test : A -> bool) (l : list A) (x : A) :
  find test l = Some x -> In x l /\ test x = true.
Proof. apply find_some. Qed.

(** The first match is rewritten, and found again when it still matches. *)
Lemma find_modify_first {A : Type} (test : A -> bool) (g : A -> A)
  (l : list A) (x : A) :
  find test l = Some x -> test (g x) = true ->
  find test (modify_first test g l) = Some (g x).
Proof.
  induction l as [|y rest IH]; simpl; [discriminate|].
  destruct (test y) eqn:E; intros H Hg.
  - injection H as ->. simpl. now rewrite Hg.
  - simpl. rewrite E. now apply IH.
Qed.

Lemma find_modify_first_none {A : Type} (test : A -> bool) (g : A -> A)
  (l : list A) :
  find test l = None -> modify_first test g l = l.
Proof.
  induction l as [|y rest IH]; simpl; [reflexivity|].
  destruct (test y); [discriminate|]. intros H. now rewrite IH.
Qed.

(** Rewriting the first match of one test leaves the first match of another
    test alone when the rewritten element fails that other test before and
    after. *)
Lemma find_modify_first_other {A : Type} (test test' : A -> bool)
  (g : A -> A) (l : list A) :
  (forall x, test x = true -> test' x = false /\ test' (g x) = false) ->
  find test' (modify_first test g l) = find test' l.
Proof.
  intros H. induction l as [|y rest IH]; simpl; [reflexivity|].
  destruct (test y) eqn:E; simpl.
  - destruct (H y E) as [H1 H2]. now rewrite H1, H2.
  - now rewrite IH.
Qed.

(** ** Well-formed worlds stay well-formed *)

Lemma well_formed_set_faults (fs : list Fault) (w : World) :
  well_formed w -> well_formed (set_faults fs w).
Proof. intros []. constructor; assumption. Qed.

Lemma well_formed_next_fault (w : World) :
  well_formed w -> well_formed (snd (next_fault w)).
Proof.
  unfold next_fault. destruct (faults w); simpl; [tauto|].
  apply well_formed_set_faults.
Qed.

Lemma Forall_update_where_id (P : ThreadRow -> Prop) (threadId : Uuid)
  (f : ThreadRow -> ThreadRow) (ts : list ThreadRow) :
  Forall P ts -> (forall r, P r -> P (f r)) ->
  Forall P (update_where_id threadId f ts).
Proof.
  intros H Hf. unfold update_where_id. apply Forall_map.
  eapply Forall_impl; [|exact H]. intros r Hr. simpl.
  destruct (N.eqb (id r) threadId); auto.
Qed.

Lemma Forall_filter_keep {A : Type} (P : A -> Prop) (test : A -> bool)
  (l : list A) :
  Forall P l -> Forall P (filter test l).
Proof.
  rewrite !Forall_forall. intros H x Hx. apply H.
  apply filter_In in Hx. tauto.
Qed.

Lemma post_ok_new_post (newId : ObjectId) (threadId authorId : Uuid)
  (authorUsername content : string) (tags : list string) :
  post_ok (new_post newId threadId authorId authorUsername content tags).
Proof.
  repeat split; simpl; constructor.
Qed.

Lemma post_ok_apply_fields (content : option (string * Date))
  (tags : option (list string)) (p : Post.t) :
  post_ok p -> post_ok (apply_fields content tags p).
Proof.
  unfold apply_fields. destruct content as [[c now]|], tags; exact (fun H => H).
Qed.

Lemma post_ok_push_comment (c : Comment.t) (p : Post.t) :
  comment_ok c -> post_ok p ->
  post_ok (set_comments (push (Post.comments p) c) p).
Proof.
  intros Hc [Ho Hcs]. split; [exact Ho|]. simpl. unfold push.
  apply Forall_app. split; [exact Hcs | now constructor].
Qed.

Lemma post_ok_mutate_comment (commentId : ObjectId)
  (f : Comment.t -> Comment.t) (p : Post.t) :
  (forall c, comment_ok c -> comment_ok (f c)) ->
  post_ok p -> post_ok (mutate_comment commentId f p).
Proof.
  intros Hf [Ho Hcs]. split; [exact Ho|]. simpl.
  apply Forall_modify_first; auto.
Qed.

Lemma voters_ok_toggled (userId : Uuid) (votes : Z) (voters : list Uuid) :
  voters_ok votes voters ->
  voters_ok (fst (toggled userId votes voters))
    (snd (toggled userId votes voters)).
Proof.
  intros [Hc Hnd]. split.
  - now apply toggled_count_matches.
  - now apply toggled_NoDup.
Qed.

Lemma comment_ok_toggleComment (userId : Uuid) (c : Comment.t) :
  comment_ok c -> comment_ok (toggleComment userId c).
Proof.
  unfold comment_ok. intros H.
  pose proof (toggleComment_toggled userId c) as E.
  apply (voters_ok_toggled userId) in H.
  rewrite <- E in H. exact H.
Qed.

Lemma post_ok_toggleOriginalPost (userId : Uuid) (p : Post.t) :
  post_ok p ->
  post_ok (set_originalPost
             (toggleOriginalPost userId (Post.originalPost p)) p).
Proof.
  intros [Ho Hcs]. split; [|exact Hcs]. simpl.
  pose proof (toggleOriginalPost_toggled userId (Post.originalPost p)) as E.
  apply (voters_ok_toggled userId) in Ho.
  rewrite <- E in Ho. exact Ho.
Qed.

(** ** The changes a handler tracks, applied by the store *)

Lemma update_at_modify_first (commentId : ObjectId)
  (f : Comment.t -> Comment.t) (cs : list Comment.t) :
  update_at (comment_index commentId cs) f cs
  = modify_first (fun c => N.eqb (Comment._id c) commentId) f cs.
Proof.
  induction cs as [|c rest IH]; simpl; [reflexivity|].
  destruct (N.eqb (Comment._id c) commentId); simpl;
    [reflexivity | now rewrite IH].
Qed.

Lemma update_at_twice {A : Type} (i : nat) (f g : A -> A) (l : list A) :
  update_at i f (update_at i g l) = update_at i (fun x => f (g x)) l.
Proof.
  revert i. induction l as [|x rest IH]; intros [|i]; simpl;
    try reflexivity. now rewrite IH.
Qed.

Lemma update_at_ext {A : Type} (i : nat) (f g : A -> A) (l : list A) (x : A) :
  nth_error l i = Some x -> f x = g x -> update_at i f l = update_at i g l.
Proof.
  revert i. induction l as [|y rest IH]; intros [|i]; simpl;
    try discriminate.
  - intros [= ->] ->. reflexivity.
  - intros Hx Hfg. now rewrite (IH i Hx Hfg).
Qed.

Lemma update_at_same {A : Type} (i : nat) (l : list A) :
  update_at i (fun x => x) l = l.
Proof.
  revert i. induction l as [|y rest IH]; intros [|i]; simpl;
    try reflexivity. now rewrite IH.
Qed.

Lemma Forall_update_at {A : Type} (P : A -> Prop) (i : nat) (f : A -> A)
  (l : list A) :
  (forall x, In x l -> P x -> P (f x)) ->
  Forall P l -> Forall P (update_at i f l).
Proof.
  revert i. induction l as [|y rest IH]; intros i Hf H; simpl;
    [destruct i; constructor|].
  inversion H as [|? ? Hy Hrest]; subst.
  destruct i as [|i]; constructor; auto.
  - apply Hf; [now left | exact Hy].
  - apply IH; auto. intros x Hx. apply Hf. now right.
Qed.

Lemma map_update_at {A B : Type} (h : A -> B) (i : nat) (f : A -> A)
  (l : list A) :
  (forall x, h (f x) = h x) -> map h (update_at i f l) = map h l.
Proof.
  intros Hf. revert i. induction l as [|y rest IH]; intros [|i]; simpl;
    try reflexivity; [now rewrite Hf | now rewrite IH].
Qed.

Lemma comment_index_nth (commentId : ObjectId) (cs : list Comment.t)
  (c : Comment.t) :
  comments_id commentId cs = Some c ->
  nth_error cs (comment_index commentId cs) = Some c.
Proof.
  unfold comments_id. induction cs as [|x rest IH]; simpl; [discriminate|].
  destruct (N.eqb (Comment._id x) commentId); simpl; [congruence | exact IH].
Qed.

Lemma at_comment_twice (i : nat) (f g : Comment.t -> Comment.t) (p : Post.t) :
  at_comment i f (at_comment i g p) = at_comment i (fun c => f (g c)) p.
Proof. unfold at_comment, set_comments. simpl. now rewrite update_at_twice. Qed.

Lemma at_comment_same (i : nat) (p : Post.t) :
  at_comment i (fun c => c) p = p.
Proof.
  unfold at_comment, set_comments. rewrite update_at_same. now destruct p.
Qed.

Lemma at_comment_ext (i : nat) (f g : Comment.t -> Comment.t) (p : Post.t)
  (c : Comment.t) :
  nth_error (Post.comments p) i = Some c -> f c = g c ->
  at_comment i f p = at_comment i g p.
Proof.
  intros Hc Hfg. unfold at_comment. now rewrite (update_at_ext i f g _ c).
Qed.

Lemma mutate_comment_at (commentId : ObjectId) (f : Comment.t -> Comment.t)
  (p : Post.t) :
  mutate_comment commentId f p
  = at_comment (comment_index commentId (Post.comments p)) f p.
Proof.
  unfold mutate_comment, at_comment. now rewrite update_at_modify_first.
Qed.

(** Applied to the very document the handler loaded, the tracked changes
    give the document the handler holds in memory. *)
Lemma apply_toggleOriginalPost_changes (userId : Uuid) (p : Post.t) :
  apply_changes (toggleOriginalPost_changes userId (Post.originalPost p)) p
  = set_originalPost (toggleOriginalPost userId (Post.originalPost p)) p.
Proof.
  unfold toggleOriginalPost_changes, toggleOriginalPost.
  destruct (indexOf userId (OriginalPost.upvotedBy (Post.originalPost p)));
    reflexivity.
Qed.

Ltac at_loaded_comment c Hnth :=
  unfold apply_changes; simpl fold_left; unfold apply_update;
  rewrite ?at_comment_twice;
  try match goal with
      | |- ?p = at_comment ?i _ ?p => rewrite <- (at_comment_same i p) at 1
      end;
  apply (at_comment_ext _ _ _ _ c Hnth).

Lemma apply_toggleComment_changes (commentId : ObjectId) (userId : Uuid)
  (p : Post.t) (c : Comment.t) :
  comments_id commentId (Post.comments p) = Some c ->
  apply_changes
    (toggleComment_changes (comment_index commentId (Post.comments p))
       userId c) p
  = mutate_comment commentId (toggleComment userId) p.
Proof.
  intros Hc. apply comment_index_nth in Hc. rewrite mutate_comment_at.
  unfold toggleComment_changes.
  destruct (indexOf userId (Comment.upvotedBy c)) eqn:E;
    at_loaded_comment c Hc; unfold toggleComment; rewrite E; reflexivity.
Qed.

Lemma same_date_eq (old : option Date) (now : Date) :
  same_date old now = true -> old = Some now.
Proof.
  destruct old as [d|]; simpl; [|discriminate].
  intros H. apply Z.eqb_eq in H. now subst.
Qed.

Lemma apply_editComment_changes (commentId : ObjectId) (content : string)
  (now : Date) (p : Post.t) (c : Comment.t) :
  comments_id commentId (Post.comments p) = Some c ->
  apply_changes
    (editComment_changes (comment_index commentId (Post.comments p))
       content now c) p
  = mutate_comment commentId (editComment content now) p.
Proof.
  intros Hc. apply comment_index_nth in Hc. rewrite mutate_comment_at.
  unfold editComment_changes.
  destruct (String.eqb_spec (Comment.content c) content) as [Hs|Hs];
    destruct (Comment.isEdited c) eqn:He;
    destruct (same_date (Comment.editedAt c) now) eqn:Hd;
    try apply same_date_eq in Hd;
    at_loaded_comment c Hc;
    destruct c; simpl in *; subst; reflexivity.
Qed.

Lemma apply_tombstone_changes (commentId : ObjectId) (now : Date)
  (p : Post.t) (c : Comment.t) :
  comments_id commentId (Post.comments p) = Some c ->
  apply_changes
    (tombstone_changes (comment_index commentId (Post.comments p)) now c) p
  = mutate_comment commentId (tombstone now) p.
Proof.
  intros Hc. apply comment_index_nth in Hc. rewrite mutate_comment_at.
  unfold tombstone_changes.
  destruct (String.eqb_spec (Comment.content c) "[deleted]") as [Hs|Hs];
    destruct (Comment.isDeleted c) eqn:He;
    destruct (same_date (Comment.deletedAt c) now) eqn:Hd;
    try apply same_date_eq in Hd;
    at_loaded_comment c Hc;
    destruct c; simpl in *; subst; reflexivity.
Qed.

Lemma live_comment_found (commentId : ObjectId) (p : Post.t) (c : Comment.t) :
  live_comment commentId p = Some c ->
  comments_id commentId (Post.comments p) = Some c
  /\ Comment.isDeleted c = false.
Proof.
  unfold live_comment.
  destruct (comments_id commentId (Post.comments p)) as [c'|];
    [|discriminate].
  destruct (Comment.isDeleted c') eqn:E; [discriminate|].
  intros [= <-]. auto.
Qed.

(** What the store keeps of a document under any changes. *)
Lemma apply_update_keeps (u : Update) (p : Post.t) :
  Post._id (apply_update u p) = Post._id p
  /\ Post.threadId (apply_update u p) = Post.threadId p
  /\ Post.__v (apply_update u p) = Post.__v p
  /\ map Comment._id (Post.comments (apply_update u p))
     = map Comment._id (Post.comments p).
Proof.
  destruct u; simpl; repeat split;
    unfold at_comment; simpl; now apply map_update_at.
Qed.

Lemma apply_changes_keeps (changes : list Update) (p : Post.t) :
  Post._id (apply_changes changes p) = Post._id p
  /\ Post.threadId (apply_changes changes p) = Post.threadId p
  /\ Post.__v (apply_changes changes p) = Post.__v p
  /\ map Comment._id (Post.comments (apply_changes changes p))
     = map Comment._id (Post.comments p).
Proof.
  unfold apply_changes. revert p.
  induction changes as [|u rest IH]; intros p; simpl; [auto|].
  destruct (IH (apply_update u p)) as (H1 & H2 & H3 & H4).
  destruct (apply_update_keeps u p) as (K1 & K2 & K3 & K4).
  repeat split; congruence.
Qed.

Lemma saved_keeps (changes : list Update) (p : Post.t) :
  Post._id (saved changes p) = Post._id p
  /\ Post.threadId (saved changes p) = Post.threadId p
  /\ Post.originalPost (saved changes p)
     = Post.originalPost (apply_changes changes p)
  /\ Post.comments (saved changes p)
     = Post.comments (apply_changes changes p).
Proof.
  destruct (apply_changes_keeps changes p) as (H1 & H2 & _).
  unfold saved. destruct (increments_version _); simpl; auto.
Qed.

Lemma post_ok_saved (changes : list Update) (p : Post.t) :
  post_ok (apply_changes changes p) -> post_ok (saved changes p).
Proof.
  destruct (saved_keeps changes p) as (_ & _ & Ho & Hc).
  unfold post_ok. now rewrite Ho, Hc.
Qed.

Lemma matches_save_id (doc : Post.t) (changes : list Update) (p : Post.t) :
  matches_save doc changes p = true -> Post._id p = Post._id doc.
Proof.
  unfold matches_save. intros H. apply andb_prop in H.
  now apply N.eqb_eq.
Qed.

Lemma matches_save_loaded (p : Post.t) (changes : list Update) :
  matches_save p changes p = true.
Proof.
  unfold matches_save. rewrite N.eqb_refl, Z.eqb_refl.
  now destruct (checks_version _).
Qed.

Lemma N_lt_succ_weaken {A : Type} (h : A -> N) (n : N) (l : list A) :
  Forall (fun x => (h x < n)%N) l -> Forall (fun x => (h x < N.succ n)%N) l.
Proof.
  apply Forall_impl. intros x Hx. lia.
Qed.

Lemma bound_not_In {A : Type} (h : A -> N) (n : N) (l : list A) :
  Forall (fun x => (h x < n)%N) l -> ~ In n (map h l).
Proof.
  rewrite Forall_forall, in_map_iff. intros H [x [Hx Hin]].
  specialize (H x Hin). lia.
Qed.

Lemma NoDup_map_snoc {A B : Type} (h : A -> B) (l : list A) (x : A) :
  NoDup (map h l) -> ~ In (h x) (map h l) -> NoDup (map h (l ++ [x])).
Proof.
  intros Hnd Hout. rewrite map_app. simpl.
  apply NoDup_app; repeat split.
  - exact Hnd.
  - constructor; [tauto | constructor].
  - intros y Hy [<-|[]]. contradiction.
Qed.

Lemma row_ok_succ (n : N) (rows : list ThreadRow) :
  Forall (row_ok n) rows -> Forall (row_ok (N.succ n)) rows.
Proof.
  apply Forall_impl. intros r [H1 H2]. split; [exact H1 | lia].
Qed.

Lemma answer_well_formed {X : Type} (op : StoreOp X) (w : World) :
  well_formed w -> safe_op op w -> well_formed (snd (answer op w)).
Proof.
  intros Hwf Hsafe.
  pose proof Hwf as [Ht Hi Htb Hib Hp Hr Hpend].
  destruct op; simpl in *; try exact Hwf.
  - (* UpdateThreadTitle *)
    constructor; simpl; auto.
    apply Forall_update_where_id; auto.
  - (* UpdateReplyCreated *)
    destruct (reply_overflow threadId (threads w)); simpl; [exact Hwf|].
    constructor; simpl; auto.
    apply Forall_update_where_id; auto.
    intros r [H1 H2]. split; simpl; [lia | exact H2].
  - (* UpdateReplyDeleted *)
    constructor; simpl; auto.
    apply Forall_update_where_id; auto.
    intros r [H1 H2]. split; simpl; [lia | exact H2].
  - (* DeleteThreadRow *)
    constructor; simpl; auto. now apply Forall_filter_keep.
  - (* TogglePinned *)
    constructor; simpl; auto. apply Forall_update_where_id; auto.
  - (* ToggleLocked *)
    constructor; simpl; auto. apply Forall_update_where_id; auto.
  - (* UpdateViewCount *)
    destruct (view_overflow threadId (threads w)); simpl; [exact Hwf|].
    constructor; simpl; auto. apply Forall_update_where_id; auto.
  - (* GetClient *)
    constructor; simpl; auto.
  - (* Begin *)
    destruct (tx w) eqn:E; simpl; [exact Hwf|].
    constructor; simpl; auto. intros pending [= <-]. constructor.
  - (* InsertThread *)
    assert (Hnew : row_ok (N.succ (next_uuid w))
                     (new_thread_row (next_uuid w) newTitle newSlug
                        categoryId authorId now))
      by (split; simpl; lia).
    destruct (too_long 500 newSlug); simpl.
    { constructor; simpl; auto using N_lt_succ_weaken, row_ok_succ. }
    destruct (tx w) as [pending|] eqn:E.
    + specialize (Hpend pending eq_refl).
      destruct (slug_taken newSlug (threads w ++ pending)); simpl;
        constructor; simpl; auto using N_lt_succ_weaken, row_ok_succ;
        rewrite ?E; intros pending' [= <-]; auto using row_ok_succ.
      apply Forall_app. split; [auto using row_ok_succ|].
      constructor; [exact Hnew | constructor].
    + destruct (slug_taken newSlug (threads w)); simpl;
        constructor; simpl; auto using N_lt_succ_weaken, row_ok_succ;
        rewrite ?E; try discriminate.
      apply Forall_app. split; [auto using row_ok_succ|].
      constructor; [exact Hnew | constructor].
  - (* Commit *)
    destruct (tx w) as [pending|] eqn:E; simpl; [|exact Hwf].
    constructor; simpl; auto; try discriminate.
    apply Forall_app. split; auto.
  - (* Rollback *)
    constructor; simpl; auto; discriminate.
  - (* Release *)
    constructor; simpl; auto.
  - (* PostCreate *)
    destruct Hsafe as [Hlt Hfresh].
    constructor; simpl; auto.
    + now apply NoDup_map_snoc.
    + apply NoDup_map_snoc; [exact Hi|]. simpl.
      now apply bound_not_In.
    + apply Forall_app. split; [exact Htb|].
      constructor; [exact Hlt | constructor].
    + apply Forall_app. split; [now apply N_lt_succ_weaken|].
      constructor; [simpl; lia | constructor].
    + apply Forall_app. split; [exact Hp|].
      constructor; [apply post_ok_new_post | constructor].
  - (* PostPushComment *)
    constructor; simpl; auto.
    + rewrite map_modify_first; auto.
    + rewrite map_modify_first; auto.
    + apply Forall_modify_first; auto.
    + apply N_lt_succ_weaken. apply Forall_modify_first; auto.
    + apply Forall_modify_first; auto. intros p _ _ Hok.
      apply post_ok_push_comment; [|exact Hok].
      split; simpl; [reflexivity | constructor].
  - (* PostSetFields *)
    assert (Hid : forall p, Post._id (apply_fields content tags p) = Post._id p)
      by (intros p; unfold apply_fields;
          destruct content as [[? ?]|], tags; reflexivity).
    assert (Htid : forall p, Post.threadId (apply_fields content tags p)
                             = Post.threadId p)
      by (intros p; unfold apply_fields;
          destruct content as [[? ?]|], tags; reflexivity).
    constructor; simpl; auto.
    + rewrite map_modify_first; auto.
    + rewrite map_modify_first; auto.
    + apply Forall_modify_first; auto. intros p _ _. now rewrite Htid.
    + apply Forall_modify_first; auto. intros p _ _. now rewrite Hid.
    + apply Forall_modify_first; auto. intros p _ _.
      apply post_ok_apply_fields.
  - (* PostSave *)
    destruct (existsb _ (posts w)); simpl; [|exact Hwf].
    constructor; simpl; auto.
    + rewrite map_modify_first; auto.
      intros q _ _. apply saved_keeps.
    + rewrite map_modify_first; auto.
      intros q _ _. apply saved_keeps.
    + apply Forall_modify_first; auto.
      intros q _ _. destruct (saved_keeps changes q) as (_ & -> & _). auto.
    + apply Forall_modify_first; auto.
      intros q _ _. destruct (saved_keeps changes q) as (-> & _). auto.
    + apply Forall_modify_first; auto.
      intros q Hq Heq _. apply post_ok_saved, Hsafe; [exact Hq|].
      now apply (matches_save_id doc changes).
  - (* PostDeleteOne *)
    destruct threadId as [threadId|]; simpl; [|exact Hwf].
    constructor; simpl; auto using Forall_remove_first.
    + now apply NoDup_map_remove_first.
    + now apply NoDup_map_remove_first.
  - (* ActivityCreate *)
    constructor; simpl; auto.
Qed.

Lemma safe_op_set_faults {X : Type} (op : StoreOp X) (fs : list Fault)
  (w : World) :
  safe_op op w -> safe_op op (set_faults fs w).
Proof. destruct op; exact (fun H => H). Qed.

Lemma safe_op_next_fault {X : Type} (op : StoreOp X) (w : World) :
  safe_op op w -> safe_op op (snd (next_fault w)).
Proof.
  unfold next_fault. destruct (faults w); simpl; [tauto|].
  apply safe_op_set_faults.
Qed.

Lemma exec_well_formed {X : Type} (op : StoreOp X) (w : World) :
  well_formed w -> safe_op op w -> well_formed (snd (exec op w)).
Proof.
  intros Hwf Hsafe.
  pose proof (well_formed_next_fault w Hwf) as Hwf0.
  pose proof (safe_op_next_fault op w Hsafe) as Hsafe0.
  pose proof (answer_well_formed op _ Hwf0 Hsafe0) as Hans.
  pose proof (answer_well_formed op _ Hwf Hsafe) as Hrel.
  unfold exec.
  destruct op; try exact Hrel;
    destruct (next_fault w) as [f w0]; simpl in *; destruct f; simpl; auto.
Qed.

(** The stores behind two worlds agree; only the fault schedules differ. *)
Lemma next_fault_stores (w : World) :
  exists fs, snd (next_fault w) = set_faults fs w.
Proof.
  unfold next_fault. destruct (faults w) as [|f rest] eqn:E; simpl.
  - exists []. destruct w; simpl in *. now subst.
  - now exists rest.
Qed.

(** A resolved call was answered by the store, from the world the schedule
    left. *)
Lemma exec_resolved {X : Type} (op : StoreOp X) (w : World) (x : X) :
  fst (exec op w) = Resolved x ->
  exists fs, exec op w = answer op (set_faults fs w).
Proof.
  unfold exec. intros H.
  destruct (next_fault_stores w) as [fs Hfs].
  assert (Hrel : exists fs', answer op w = answer op (set_faults fs' w)).
  { exists (faults w). destruct w; reflexivity. }
  destruct op; try exact Hrel;
    destruct (next_fault w) as [f w0]; simpl in *; subst w0;
    destruct f; try discriminate; now exists fs.
Qed.

Lemma triple_await {A X : Type} (P : World -> Prop) (op : StoreOp X)
  (f : X -> Prog A) (R : Settled X -> World -> Prop)
  (Q : Settled A -> World -> Prop) :
  (forall w, P w -> R (fst (exec op w)) (snd (exec op w))) ->
  (forall x, triple (R (Resolved x)) (f x) Q) ->
  (forall e w, R (Rejected e) w -> Q (Rejected e) w) ->
  triple P (bind (await op) f) Q.
Proof.
  intros Hop Hf He. simpl. eapply triple_call; [exact Hop|].
  intros [x|e]; simpl; [apply Hf|]. apply triple_throw. apply He.
Qed.

Lemma triple_await_last {X : Type} (P : World -> Prop) (op : StoreOp X)
  (Q : Settled X -> World -> Prop) :
  (forall w, P w -> Q (fst (exec op w)) (snd (exec op w))) ->
  triple P (await op) Q.
Proof.
  intros Hop. eapply triple_call; [exact Hop|].
  intros [x|e]; simpl; [apply triple_ret | apply triple_throw]; auto.
Qed.

Lemma triple_swallow {A X : Type} (P R : World -> Prop) (op : StoreOp X)
  (f : unit -> Prog A) (Q : Settled A -> World -> Prop) :
  (forall w, P w -> R (snd (exec op w))) ->
  triple R (f tt) Q ->
  triple P (bind (await_swallow op) f) Q.
Proof.
  intros Hop Hf. simpl.
  eapply triple_call with (R := fun _ w => R w); [exact Hop|].
  intros r. simpl. exact Hf.
Qed.

(** A document loaded by [findOne] is one of the stored documents. *)
Lemma exec_PostFindOne (threadId : Uuid) (w : World) :
  posts (snd (exec (PostFindOne threadId) w)) = posts w
  /\ forall p, fst (exec (PostFindOne threadId) w) = Resolved (Some p) ->
               post_by_thread threadId (posts w) = Some p.
Proof.
  unfold exec, next_fault.
  destruct (faults w) as [|[|e|e] rest]; simpl; split;
    try reflexivity; congruence.
Qed.

Lemma post_by_thread_In (threadId : Uuid) (ps : list Post.t) (p : Post.t) :
  post_by_thread threadId ps = Some p ->
  In p ps /\ Post.threadId p = threadId.
Proof.
  intros H. apply find_In in H. destruct H as [Hin Heq].
  split; [exact Hin | now apply N.eqb_eq].
Qed.

(** Loading a document and saving sound changes to it. *)
Lemma load_save_well_formed {A : Type} (threadId : Uuid)
  (f : Post.t -> Prog A) :
  (forall p, triple (fun w => well_formed w /\ In p (posts w))
               (f p) (fun _ w => well_formed w)) ->
  triple well_formed
    (loaded <- await (PostFindOne threadId) ;;
     match loaded with
     | None => Throw (AppError "Thread not found." 404)
     | Some post => f post
     end)
    (fun _ w => well_formed w).
Proof.
  intros Hf.
  eapply triple_await
    with (R := fun r w => well_formed w
                          /\ forall p, r = Resolved (Some p) -> In p (posts w)).
  - intros w Hw. split; [apply exec_well_formed; simpl; auto|].
    destruct (exec_PostFindOne threadId w) as [Hposts Hfound].
    intros p Hp. rewrite Hposts.
    apply Hfound in Hp. now apply post_by_thread_In in Hp.
  - intros [p|].
    + eapply triple_weaken; [apply (Hf p) | | auto].
      intros w [Hw Hin]. split; [exact Hw | now apply Hin].
    + apply triple_throw. tauto.
  - tauto.
Qed.

(** The document a handler loaded is still the stored one when the handler
    saves, as long as no other handler runs in between: the changes are
    then applied to the loaded document. *)
Lemma save_rewrite_safe (p : Post.t) (changes : list Update) (w : World) :
  well_formed w -> In p (posts w) ->
  (post_ok p -> post_ok (apply_changes changes p)) ->
  safe_op (PostSave p changes) w.
Proof.
  intros Hw Hin Hok. simpl. intros q Hq Hid.
  assert (q = p).
  { apply (NoDup_map_inj Post._id (posts w)); auto. exact (wf_ids w Hw). }
  subst q. apply Hok. destruct Hw as [_ _ _ _ Hp _ _].
  rewrite Forall_forall in Hp. now apply Hp.
Qed.

Ltac wf_done :=
  match goal with
  | |- triple _ (Ret _) _ => apply triple_ret; tauto
  | |- triple _ (Throw _) _ => apply triple_throw; tauto
  end.

Ltac wf_branches :=
  intros [?|?]; simpl; [|wf_done].

Ltac wf_step :=
  simpl;
  eapply triple_call with (R := fun _ w => well_formed w);
  [ intros ? ?; apply exec_well_formed; simpl; auto
  | wf_branches ].

Ltac wf_log :=
  simpl;
  eapply triple_call with (R := fun _ w => well_formed w);
  [ intros ? ?; apply exec_well_formed; simpl; auto
  | intros _; simpl ].

Ltac wf_save p :=
  simpl;
  eapply triple_call with (R := fun _ w => well_formed w);
  [ intros ? [? ?]; apply exec_well_formed; [assumption|];
    apply (save_rewrite_safe p); auto
  | wf_branches ].

Lemma upvoteThread_well_formed (user : User) (threadId : Uuid) :
  triple well_formed (upvoteThread user threadId) (fun _ w => well_formed w).
Proof.
  unfold upvoteThread. apply load_save_well_formed. intros p.
  unfold toggleUpvote. wf_save p.
  - rewrite apply_toggleOriginalPost_changes.
    apply post_ok_toggleOriginalPost.
  - wf_log. wf_done.
Qed.

Lemma upvoteComment_well_formed (user : User) (threadId : Uuid)
  (commentId : ObjectId) :
  triple well_formed (upvoteComment user threadId commentId)
    (fun _ w => well_formed w).
Proof.
  unfold upvoteComment. apply load_save_well_formed. intros p.
  destruct (live_comment commentId p) as [c|] eqn:Hc; [|wf_done].
  apply live_comment_found in Hc. destruct Hc as [Hc _].
  wf_save p.
  - rewrite apply_toggleComment_changes by exact Hc.
    apply post_ok_mutate_comment. apply comment_ok_toggleComment.
  - wf_log. wf_done.
Qed.

Lemma updateComment_well_formed (user : User) (now : Date) (threadId : Uuid)
  (commentId : ObjectId) (content : string) :
  triple well_formed (updateComment user now threadId commentId content)
    (fun _ w => well_formed w).
Proof.
  unfold updateComment. apply load_save_well_formed. intros p.
  destruct (live_comment commentId p) as [c|] eqn:Hc; [|wf_done].
  apply live_comment_found in Hc. destruct Hc as [Hc _].
  destruct (_ && _); [wf_done|].
  wf_save p.
  - rewrite apply_editComment_changes by exact Hc.
    apply post_ok_mutate_comment. intros c0 Hc0. exact Hc0.
  - wf_log. wf_done.
Qed.

Lemma deleteComment_well_formed (user : User) (now : Date) (threadId : Uuid)
  (commentId : ObjectId) :
  triple well_formed (deleteComment user now threadId commentId)
    (fun _ w => well_formed w).
Proof.
  unfold deleteComment. apply load_save_well_formed. intros p.
  destruct (live_comment commentId p) as [c|] eqn:Hc; [|wf_done].
  apply live_comment_found in Hc. destruct Hc as [Hc _].
  destruct (_ && _); [wf_done|].
  wf_save p.
  - rewrite apply_tombstone_changes by exact Hc.
    apply post_ok_mutate_comment. intros c0 Hc0. exact Hc0.
  - wf_step. wf_log. wf_done.
Qed.

Lemma createComment_well_formed (user : User) (now : Date) (threadId : Uuid)
  (content : string) (parentCommentId : option ObjectId) :
  triple well_formed (createComment user now threadId content parentCommentId)
    (fun _ w => well_formed w).
Proof.
  unfold createComment. wf_step.
  destruct x as [thread|]; [|wf_done].
  destruct (is_locked thread); [wf_done|].
  destruct parentCommentId as [parent|].
  - wf_step. destruct x as [holder|]; simpl; [|wf_done].
    wf_step. destruct x as [post|]; [|wf_done].
    wf_step. wf_log. wf_done.
  - wf_step. destruct x as [post|]; [|wf_done].
    wf_step. wf_log. wf_done.
Qed.

Lemma updateThread_well_formed (user : User) (now : Date) (threadId : Uuid)
  (newTitle content : option string) (tags : option (list string)) :
  triple well_formed (updateThread user now threadId newTitle content tags)
    (fun _ w => well_formed w).
Proof.
  unfold updateThread. wf_step.
  destruct x as [thread|]; [|wf_done].
  destruct (_ && _); [wf_done|].
  destruct (truthy newTitle) as [t|].
  - wf_step. wf_step. wf_log. wf_done.
  - wf_step. wf_log. wf_done.
Qed.

Lemma deleteThread_well_formed (user : User) (threadId : Uuid) :
  triple well_formed (deleteThread user threadId) (fun _ w => well_formed w).
Proof.
  unfold deleteThread. wf_step.
  destruct x as [thread|]; [|wf_done].
  wf_step. wf_step. wf_log. wf_done.
Qed.

Lemma pinThread_well_formed (now : Date) (threadId : Uuid) :
  triple well_formed (pinThread now threadId) (fun _ w => well_formed w).
Proof.
  unfold pinThread. wf_step. destruct x; wf_done.
Qed.

Lemma lockThread_well_formed (now : Date) (threadId : Uuid) :
  triple well_formed (lockThread now threadId) (fun _ w => well_formed w).
Proof.
  unfold lockThread. wf_step. destruct x; wf_done.
Qed.

(** The id of an inserted row is below the next id to hand out, and no
    stored document carries it. *)
Lemma exec_InsertThread_fresh (newTitle newSlug : string)
  (categoryId authorId : Uuid) (now : Date) (w : World) (row : ThreadRow) :
  well_formed w ->
  fst (exec (InsertThread newTitle newSlug categoryId authorId now) w)
  = Resolved row ->
  let w' := snd (exec (InsertThread newTitle newSlug categoryId authorId now)
                   w) in
  (id row < next_uuid w')%N /\ ~ In (id row) (map Post.threadId (posts w')).
Proof.
  intros Hwf Hres. cbv zeta.
  destruct (exec_resolved _ _ _ Hres) as [fs Hex].
  rewrite Hex in *. clear Hex. simpl in *.
  pose proof (wf_threadId_bound w Hwf) as Hb.
  destruct (too_long 500 newSlug); [discriminate|].
  destruct (tx w) as [pending|];
    [destruct (slug_taken newSlug (threads w ++ pending))
    |destruct (slug_taken newSlug (threads w))];
    simpl in *; try discriminate; injection Hres as <-; simpl;
    (split; [lia | now apply bound_not_In]).
Qed.

Ltac wf_auto :=
  simpl;
  lazymatch goal with
  | |- triple _ (Ret _) _ => apply triple_ret; tauto
  | |- triple _ (Throw _) _ => apply triple_throw; tauto
  | |- triple _ (Call _ _) _ =>
      eapply triple_call with (R := fun _ w => well_formed w);
      [ intros ? ?; apply exec_well_formed; simpl; auto
      | intros [?|?]; wf_auto ]
  end.

Lemma createThread_well_formed (user : User) (now : Date)
  (newTitle content : string) (categoryId : Uuid)
  (tags : option (list string)) (slugged : string) :
  triple well_formed
    (createThread user now newTitle content categoryId tags slugged)
    (fun _ w => well_formed w).
Proof.
  unfold createThread, createThread_catch, logActivity. wf_step.
  destruct x as [cat|]; [|wf_done].
  wf_step.
  eapply triple_call with (R := fun _ w => well_formed w);
    [intros ? ?; apply exec_well_formed; simpl; auto|].
  intros [[]|e]; simpl; [|wf_auto].
  (* BEGIN went through: the INSERT *)
  eapply triple_call
    with (R := fun r w =>
                 well_formed w
                 /\ forall row, r = Resolved row ->
                      (id row < next_uuid w)%N
                      /\ ~ In (id row) (map Post.threadId (posts w))).
  { intros w Hw. split; [apply exec_well_formed; simpl; auto|].
    intros row Hrow. now apply exec_InsertThread_fresh. }
  intros [row|e]; simpl.
  - (* the row is inserted: Post.create *)
    eapply triple_call with (R := fun _ w => well_formed w).
    + intros w [Hw Hfresh]. apply exec_well_formed; [exact Hw|].
      simpl. now apply Hfresh.
    + intros [doc|e]; wf_auto.
  - eapply triple_weaken with (P' := well_formed)
                              (Q' := fun _ w => well_formed w);
      [|tauto|auto].
    wf_auto.
Qed.

Lemma getThread_well_formed (now : Date) (wanted : string) :
  triple well_formed (getThread now wanted) (fun _ w => well_formed w).
Proof.
  unfold getThread. wf_step.
  destruct x as [thread|]; [|wf_done].
  wf_log. wf_step. destruct x as [post|]; wf_done.
Qed.

Theorem serve_well_formed (r : Request) (w : World) :
  well_formed w -> well_formed (snd (serve r w)).
Proof.
  intros Hw. unfold serve, asyncHandler.
  assert (H : well_formed (snd (run (handler r) w))).
  { destruct r; simpl;
      [ apply getThread_well_formed
      | apply createThread_well_formed | apply updateThread_well_formed
      | apply deleteThread_well_formed | apply pinThread_well_formed
      | apply lockThread_well_formed | apply createComment_well_formed
      | apply updateComment_well_formed | apply deleteComment_well_formed
      | apply upvoteThread_well_formed | apply upvoteComment_well_formed ];
      exact Hw. }
  destruct (run (handler r) w) as [[res|err] w']; exact H.
Qed.

Lemma well_formed_boot (cats : list CategoryRow) (fs : list Fault) :
  well_formed (boot cats fs).
Proof.
  constructor; simpl; try constructor. discriminate.
Qed.

Theorem reachable_well_formed (w : World) :
  reachable w -> well_formed w.
Proof.
  induction 1 as [cats fs|w r _ IH|w fs _ IH|w cats _ IH|w entries _ IH].
  - apply well_formed_boot.
  - now apply serve_well_formed.
  - now apply well_formed_set_faults.
  - destruct IH. constructor; assumption.
  - destruct IH. constructor; assumption.
Qed.

(** ** Calls under a known schedule *)

Lemma exec_idle {X : Type} (op : StoreOp X) (w : World) :
  faults w = [] -> exec op w = answer op w.
Proof.
  intros H. unfold exec, next_fault. rewrite H. destruct op; reflexivity.
Qed.

Lemma answer_faults {X : Type} (op : StoreOp X) (w : World) :
  faults (snd (answer op w)) = faults w.
Proof.
  destruct op; simpl; try reflexivity.
  - destruct (reply_overflow _ _); reflexivity.
  - destruct (view_overflow _ _); reflexivity.
  - destruct (tx w); reflexivity.
  - destruct (too_long 500 newSlug); [reflexivity|].
    destruct (tx w); [destruct (slug_taken _ _)|destruct (slug_taken _ _)];
      reflexivity.
  - destruct (tx w); reflexivity.
  - destruct (existsb _ _); reflexivity.
  - destruct threadId; reflexivity.
Qed.

Arguments thread_by_id : simpl never.
Arguments post_by_thread : simpl never.
Arguments update_where_id : simpl never.
Arguments reply_overflow : simpl never.
Arguments live_comment : simpl never.
Arguments truthy : simpl never.
Arguments last_comment : simpl never.
Arguments too_long : simpl never.
Arguments matches_save : simpl never.
Arguments saved : simpl never.
Arguments toggleOriginalPost_changes : simpl never.
Arguments toggleComment_changes : simpl never.
Arguments editComment_changes : simpl never.
Arguments tombstone_changes : simpl never.
Arguments comment_index : simpl never.

Lemma modify_first_absent (threadId : Uuid) (f : Post.t -> Post.t)
  (ps : list Post.t) :
  post_by_thread threadId ps = None ->
  modify_first (fun p => N.eqb (Post.threadId p) threadId) f ps = ps.
Proof. apply find_modify_first_none. Qed.

Lemma may_edit (owner : Uuid) (user : User) :
  owner = user_id user \/ isModRole (role user) = true ->
  negb (N.eqb owner (user_id user)) && negb (isModRole (role user)) = false.
Proof.
  intros [-> | ->].
  - now rewrite N.eqb_refl.
  - apply andb_false_r.
Qed.

Lemma errorHandler_fails (err : Err) : success (errorHandler err) = false.
Proof.
  unfold errorHandler.
  repeat match goal with
         | |- context [if ?c then _ else _] => destruct c
         end; reflexivity.
Qed.

Lemma errorHandler_AppError (msg : string) (code : Z) :
  code <> 0 -> msg <> "" ->
  errorHandler (AppError msg code) = mkResponse code false msg BodyNone.
Proof.
  intros Hc Hm. unfold errorHandler, AppError, code_is. simpl.
  destruct (Z.eqb_spec code 0) as [|_]; [contradiction|].
  destruct (String.eqb_spec msg "") as [|_]; [contradiction|].
  reflexivity.
Qed.

Lemma comments_id_has_comment (commentId : ObjectId) (p : Post.t)
  (c : Comment.t) :
  comments_id commentId (Post.comments p) = Some c ->
  has_comment commentId p = true.
Proof.
  unfold comments_id, has_comment. intros H. apply find_In in H.
  apply existsb_exists. exists c. exact H.
Qed.

(** When the first document of the thread holds the comment, the filter
    [{ threadId, 'comments._id': id }] finds a document. *)
Lemma find_by_comment_first (threadId : Uuid) (commentId : ObjectId)
  (ps : list Post.t) (p : Post.t) :
  post_by_thread threadId ps = Some p ->
  has_comment commentId p = true ->
  find (fun q => N.eqb (Post.threadId q) threadId && has_comment commentId q)
    ps = Some p.
Proof.
  unfold post_by_thread. induction ps as [|q rest IH]; simpl; [discriminate|].
  destruct (N.eqb (Post.threadId q) threadId); simpl.
  - intros [= ->] ->. reflexivity.
  - exact IH.
Qed.

Lemma last_comment_push (p : Post.t) (c : Comment.t) :
  last_comment (set_comments (push (Post.comments p) c) p) = Some c.
Proof.
  unfold last_comment, push. simpl. rewrite length_app. simpl.
  replace (List.length (Post.comments p) + 1 - 1)%nat
    with (List.length (Post.comments p) + 0)%nat by lia.
  rewrite nth_error_app2 by lia.
  replace (List.length (Post.comments p) + 0 - List.length (Post.comments p))%nat
    with O by lia.
  reflexivity.
Qed.

Lemma post_by_thread_pushed (threadId : Uuid) (ps : list Post.t) (p : Post.t)
  (f : Post.t -> Post.t) :
  post_by_thread threadId ps = Some p ->
  Post.threadId (f p) = Post.threadId p ->
  post_by_thread threadId
    (modify_first (fun q => N.eqb (Post.threadId q) threadId) f ps)
  = Some (f p).
Proof.
  intros H Hf. unfold post_by_thread in *.
  apply find_modify_first; [exact H|].
  rewrite Hf. apply find_In in H. tauto.
Qed.

(** ** Serving a vote, fault-free *)



Lemma existsb_matches_save (p : Post.t) (changes : list Update)
  (ps : list Post.t) :
  In p ps -> existsb (matches_save p changes) ps = true.
Proof.
  intros H. apply existsb_exists. exists p. split; [exact H|].
  apply matches_save_loaded.
Qed.



Lemma saved_editComment (commentId : ObjectId) (content : string)
  (now : Date) (p : Post.t) (c : Comment.t) :
  comments_id commentId (Post.comments p) = Some c ->
  saved (editComment_changes (comment_index commentId (Post.comments p))
           content now c) p
  = mutate_comment commentId (editComment content now) p.
Proof.
  intros Hc. unfold saved. rewrite apply_editComment_changes by exact Hc.
  unfold editComment_changes.
  destruct (String.eqb _ _), (Comment.isEdited c), (same_date _ _);
    reflexivity.
Qed.

Lemma saved_tombstone (commentId : ObjectId) (now : Date) (p : Post.t)
  (c : Comment.t) :
  comments_id commentId (Post.comments p) = Some c ->
  saved (tombstone_changes (comment_index commentId (Post.comments p))
           now c) p
  = mutate_comment commentId (tombstone now) p.
Proof.
  intros Hc. unfold saved. rewrite apply_tombstone_changes by exact Hc.
  unfold tombstone_changes.
  destruct (String.eqb _ _), (Comment.isDeleted c), (same_date _ _);
    reflexivity.
Qed.

(** Saving changes to the document of a thread as it was loaded: the
    thread's document is then the loaded one with the changes applied. *)
Lemma post_by_thread_saved (threadId : Uuid) (ps : list Post.t)
  (p : Post.t) (changes : list Update) :
  NoDup (map Post._id ps) ->
  post_by_thread threadId ps = Some p ->
  post_by_thread threadId
    (modify_first (matches_save p changes) (saved changes) ps)
  = Some (saved changes p).
Proof.
  unfold post_by_thread. intros Hnd Hp.
  destruct (saved_keeps changes p) as (_ & Htid & _).
  induction ps as [|x rest IH]; simpl in *; [discriminate|].
  inversion Hnd as [|? ? Hx Hrest]; subst.
  destruct (N.eqb (Post.threadId x) threadId) eqn:Ex.
  - injection Hp as ->. rewrite matches_save_loaded. simpl.
    now rewrite Htid, Ex.
  - destruct (matches_save p changes x) eqn:Hm.
    + exfalso. apply Hx. apply matches_save_id in Hm. rewrite Hm.
      apply in_map. apply find_In in Hp. tauto.
    + simpl. rewrite Ex. now apply IH.
Qed.

Lemma run_idle {A : Type} (p : Prog A) (w : World) :
  faults w = [] -> faults (snd (run p w)) = [].
Proof.
  revert w. induction p as [a|e|X op k IH]; intros w Hf; simpl; auto.
  rewrite (exec_idle op w Hf).
  destruct (answer op w) as [r w'] eqn:E. apply IH.
  pose proof (answer_faults op w) as Ha. rewrite E in Ha. simpl in Ha.
  congruence.
Qed.

Lemma serve_idle (r : Request) (w : World) :
  faults w = [] -> faults (snd (serve r w)) = [].
Proof.
  intros Hf. unfold serve, asyncHandler.
  pose proof (run_idle (handler r) w Hf) as H.
  destruct (run (handler r) w) as [[res|err] w']; exact H.
Qed.


Lemma comments_id_mutated (commentId : ObjectId) (f : Comment.t -> Comment.t)
  (cs : list Comment.t) (c : Comment.t) :
  comments_id commentId cs = Some c ->
  Comment._id (f c) = Comment._id c ->
  comments_id commentId
    (modify_first (fun x => N.eqb (Comment._id x) commentId) f cs)
  = Some (f c).
Proof.
  unfold comments_id. intros H Hf. apply find_modify_first; [exact H|].
  rewrite Hf. apply find_In in H. tauto.
Qed.




Lemma reachable_hello_world : reachable hello_world.
Proof. unfold hello_world. apply reach_serve, reach_boot. Qed.

Lemma reachable_hello_hi : reachable hello_hi.
Proof. unfold hello_hi. apply reach_serve, reachable_hello_world. Qed.



(** ** Reply counting, fault-free *)

Lemma thread_by_id_updated (threadId : Uuid) (f : ThreadRow -> ThreadRow)
  (ts : list ThreadRow) :
  (forall r, id (f r) = id r) ->
  thread_by_id threadId (update_where_id threadId f ts)
  = option_map f (thread_by_id threadId ts).
Proof.
  intros Hf. unfold thread_by_id, update_where_id.
  induction ts as [|r rest IH]; simpl; [reflexivity|].
  destruct (N.eqb (id r) threadId) eqn:E; simpl.
  - now rewrite Hf, E.
  - now rewrite E.
Qed.

Lemma createComment_counts (w : World) (user : User) (now : Date)
  (threadId : Uuid) (content : string) (parent : option ObjectId) :
  faults w = [] ->
  success (fst (serve (ReqCreateComment user now threadId content parent) w))
  = true ->
  threads (snd (serve (ReqCreateComment user now threadId content parent) w))
  = update_where_id threadId
      (fun r => touch now (row_reply_created (user_id user) now r))
      (threads w).
Proof.
  intros Hf.
  destruct w as [ts cats tx0 ls ps act nu nid fs]. simpl in *. subst fs.
  unfold serve, asyncHandler, handler, createComment. cbn.
  destruct (thread_by_id threadId ts) as [row|]; cbn; [|discriminate].
  destruct (is_locked row); cbn; [discriminate|].
  destruct parent as [parent|]; cbn.
  - destruct (find _ ps); cbn; [|discriminate].
    destruct (post_by_thread threadId _); cbn; [|discriminate].
    destruct (reply_overflow threadId ts); cbn; [discriminate|reflexivity].
  - destruct (post_by_thread threadId _); cbn; [|discriminate].
    destruct (reply_overflow threadId ts); cbn; [discriminate|reflexivity].
Qed.

Lemma deleteComment_counts (w : World) (user : User) (now : Date)
  (threadId : Uuid) (commentId : ObjectId) :
  faults w = [] ->
  success (fst (serve (ReqDeleteComment user now threadId commentId) w))
  = true ->
  threads (snd (serve (ReqDeleteComment user now threadId commentId) w))
  = update_where_id threadId (fun r => touch now (row_reply_deleted r))
      (threads w).
Proof.
  intros Hf.
  destruct w as [ts cats tx0 ls ps act nu nid fs]. simpl in *. subst fs.
  unfold serve, asyncHandler, handler, deleteComment. cbn.
  destruct (post_by_thread threadId ps) as [p|]; cbn; [|discriminate].
  destruct (live_comment commentId p) as [c|]; cbn; [|discriminate].
  destruct (_ && _); cbn; [discriminate|].
  destruct (existsb _ ps); cbn;
    [reflexivity | rewrite errorHandler_fails; discriminate].
Qed.

(** [n] creations in a row add [n] to the count of the thread. *)
Lemma creations_count (threadId : Uuid) (drafts : list Draft) :
  forall (w : World) (row : ThreadRow),
    faults w = [] ->
    thread_by_id threadId (threads w) = Some row ->
    let out := serve_all (map (addComment_on threadId) drafts) w in
    Forall succeeded (fst out) ->
    faults (snd out) = []
    /\ exists row',
         thread_by_id threadId (threads (snd out)) = Some row'
         /\ reply_count row'
            = reply_count row + Z.of_nat (List.length drafts).
Proof.
  induction drafts as [|d rest IH]; intros w row Hf Hrow; cbn zeta.
  - simpl. intros _. split; [exact Hf|]. exists row. split; [exact Hrow|].
    lia.
  - simpl map. simpl serve_all.
    destruct (serve (addComment_on threadId d) w) as [res w1] eqn:E1.
    destruct (serve_all (map (addComment_on threadId) rest) w1)
      as [more w2] eqn:E2.
    simpl. intros Hall. inversion Hall as [|? ? Hres Hmore]; subst.
    unfold addComment_on in E1.
    pose proof (createComment_counts w (draft_user d) (draft_now d) threadId
                  (draft_content d) (draft_parent d) Hf) as Hts.
    pose proof (serve_idle
                  (ReqCreateComment (draft_user d) (draft_now d) threadId
                     (draft_content d) (draft_parent d)) w Hf) as Hf1.
    rewrite E1 in Hts, Hf1. simpl in Hts, Hf1. specialize (Hts Hres).
    assert (Hrow1 : thread_by_id threadId (threads w1)
                    = Some (touch (draft_now d)
                              (row_reply_created (user_id (draft_user d))
                                 (draft_now d) row))).
    { rewrite Hts, thread_by_id_updated by reflexivity. now rewrite Hrow. }
    specialize (IH w1 _ Hf1 Hrow1). rewrite E2 in IH. simpl in IH.
    destruct (IH Hmore) as [Hf2 [row' [Hrow' Hcount]]].
    split; [exact Hf2|]. exists row'. split; [exact Hrow'|].
    rewrite Hcount. simpl. lia.
Qed.

(** [m] deletions in a row take [m] from the count, stopping at zero. *)
Lemma deletions_count (threadId : Uuid) (removals : list Removal) :
  forall (w : World) (row : ThreadRow),
    faults w = [] ->
    thread_by_id threadId (threads w) = Some row ->
    0 <= reply_count row ->
    let out := serve_all (map (softDelete_on threadId) removals) w in
    Forall succeeded (fst out) ->
    exists row',
      thread_by_id threadId (threads (snd out)) = Some row'
      /\ reply_count row'
         = Z.max 0 (reply_count row - Z.of_nat (List.length removals)).
Proof.
  induction removals as [|r rest IH]; intros w row Hf Hrow Hpos; cbn zeta.
  - simpl. intros _. exists row. split; [exact Hrow|]. lia.
  - simpl map. simpl serve_all.
    destruct (serve (softDelete_on threadId r) w) as [res w1] eqn:E1.
    destruct (serve_all (map (softDelete_on threadId) rest) w1)
      as [more w2] eqn:E2.
    simpl. intros Hall. inversion Hall as [|? ? Hres Hmore]; subst.
    unfold softDelete_on in E1.
    pose proof (deleteComment_counts w (removal_user r) (removal_now r)
                  threadId (removal_commentId r) Hf) as Hts.
    pose proof (serve_idle
                  (ReqDeleteComment (removal_user r) (removal_now r) threadId
                     (removal_commentId r)) w Hf) as Hf1.
    rewrite E1 in Hts, Hf1. simpl in Hts, Hf1. specialize (Hts Hres).
    assert (Hrow1 : thread_by_id threadId (threads w1)
                    = Some (touch (removal_now r) (row_reply_deleted row))).
    { rewrite Hts, thread_by_id_updated by reflexivity. now rewrite Hrow. }
    assert (Hpos1 : 0 <= reply_count
                           (touch (removal_now r) (row_reply_deleted row)))
      by (simpl; lia).
    specialize (IH w1 _ Hf1 Hrow1 Hpos1). rewrite E2 in IH. simpl in IH.
    destruct (IH Hmore) as [row' [Hrow' Hcount]].
    exists row'. split; [exact Hrow'|].
    rewrite Hcount. simpl. lia.
Qed.

Lemma serve_all_app (rs1 rs2 : list Request) (w : World) :
  serve_all (rs1 ++ rs2) w
  = (fst (serve_all rs1 w) ++ fst (serve_all rs2 (snd (serve_all rs1 w))),
     snd (serve_all rs2 (snd (serve_all rs1 w)))).
Proof.
  revert w. induction rs1 as [|r rest IH]; intros w; simpl.
  - now destruct (serve_all rs2 w).
  - destruct (serve r w) as [res w1]. rewrite IH.
    destruct (serve_all rest w1) as [more w2]. simpl.
    reflexivity.
Qed.

(** ** Tombstones stay *)

Lemma find_append {A : Type} (test : A -> bool) (l l' : list A) :
  find test (l ++ l')
  = match find test l with
    | Some x => Some x
    | None => find test l'
    end.
Proof.
  induction l as [|x rest IH]; simpl; [reflexivity|].
  destruct (test x); [reflexivity | exact IH].
Qed.



Lemma post_by_thread_unique (ps : list Post.t) (p : Post.t) :
  NoDup (map Post.threadId ps) -> In p ps ->
  post_by_thread (Post.threadId p) ps = Some p.
Proof.
  unfold post_by_thread. induction ps as [|x rest IH]; simpl; [tauto|].
  intros Hnd Hin. inversion Hnd as [|? ? Hx Hrest]; subst.
  destruct (N.eqb_spec (Post.threadId x) (Post.threadId p)) as [Heq|Hne].
  - destruct Hin as [->|Hin]; [reflexivity|].
    exfalso. apply Hx. rewrite Heq. now apply in_map.
  - destruct Hin as [->|Hin]; [congruence|]. now apply IH.
Qed.


Lemma post_by_thread_removed (threadId other : Uuid) (ps : list Post.t) :
  NoDup (map Post.threadId ps) ->
  post_by_thread threadId
    (remove_first (fun q => N.eqb (Post.threadId q) other) ps)
  = if N.eqb other threadId then None else post_by_thread threadId ps.
Proof.
  unfold post_by_thread. intros Hnd.
  induction ps as [|x rest IH]; simpl.
  - now destruct (N.eqb other threadId).
  - inversion Hnd as [|? ? Hx Hrest]; subst.
    destruct (N.eqb_spec (Post.threadId x) other) as [Heq|Hne]; simpl.
    + destruct (N.eqb_spec other threadId) as [Ho|Ho].
      * subst. destruct (find _ rest) as [q|] eqn:E; [|reflexivity].
        exfalso. apply find_In in E. destruct E as [Hq Ht].
        apply N.eqb_eq in Ht. apply Hx. rewrite <- Ht.
        now apply in_map.
      * destruct (N.eqb_spec (Post.threadId x) threadId); [congruence|].
        reflexivity.
    + rewrite (IH Hrest).
      destruct (N.eqb_spec (Post.threadId x) threadId) as [Hy|Hy];
        [|reflexivity].
      destruct (N.eqb_spec other threadId); [congruence | reflexivity].
Qed.





Lemma entombed_set_faults (threadId : Uuid) (commentId : ObjectId)
  (fs : list Fault) (w : World) :
  entombed threadId commentId w ->
  entombed threadId commentId (set_faults fs w).
Proof. exact (fun H => H). Qed.





Section Tombstone.

Variable tid : Uuid.
Variable cid : ObjectId.






















End Tombstone.






(** ** The creation saga *)

Lemma remove_first_absent (n : N) (ps : list Post.t) :
  Forall (fun p => (Post.threadId p < n)%N) ps ->
  remove_first (fun q => N.eqb (Post.threadId q) n) ps = ps.
Proof.
  induction 1 as [|p rest Hp _ IH]; simpl; [reflexivity|].
  destruct (N.eqb_spec (Post.threadId p) n); [lia|]. now rewrite IH.
Qed.

Lemma remove_first_snoc (n : N) (ps : list Post.t) (doc : Post.t) :
  Forall (fun p => (Post.threadId p < n)%N) ps ->
  Post.threadId doc = n ->
  remove_first (fun q => N.eqb (Post.threadId q) n) (ps ++ [doc]) = ps.
Proof.
  intros H Hdoc. induction H as [|p rest Hp _ IH]; simpl.
  - now rewrite Hdoc, N.eqb_refl.
  - destruct (N.eqb_spec (Post.threadId p) n); [lia|]. now rewrite IH.
Qed.

Lemma post_by_thread_absent (n : N) (ps : list Post.t) :
  Forall (fun p => (Post.threadId p < n)%N) ps ->
  post_by_thread n ps = None.
Proof.
  unfold post_by_thread. induction 1 as [|p rest Hp _ IH]; simpl;
    [reflexivity|].
  destruct (N.eqb_spec (Post.threadId p) n); [lia | exact IH].
Qed.

Arguments slug_taken : simpl never.
Arguments remove_first : simpl never.

Ltac run_schedule :=
  repeat first
    [ progress cbn
    | progress (unfold next_fault, set_faults; cbn)
    | match goal with
      | |- context [match ?l with [] => _ | _ :: _ => _ end] =>
          is_var l; destruct l as [|[|?|?] ?]
      end ].

Lemma fits_column (n : nat) (s : string) :
  (String.length s <= n)%nat -> too_long n s = false.
Proof. intros H. unfold too_long. now apply Nat.ltb_ge. Qed.

Lemma thread_by_id_absent (n : N) (ts : list ThreadRow) :
  Forall (row_ok n) ts -> thread_by_id n ts = None.
Proof.
  unfold thread_by_id. induction 1 as [|r rest [_ Hr] _ IH]; simpl;
    [reflexivity|].
  destruct (N.eqb_spec (id r) n); [lia | exact IH].
Qed.

(** ** Votes in flight *)






(** A save that finds the document of the thread under its filter rewrites
    that document, whoever loaded it and whenever. *)
Lemma post_by_thread_saved_over (threadId : Uuid) (ps : list Post.t)
  (q doc : Post.t) (changes : list Update) :
  NoDup (map Post._id ps) ->
  post_by_thread threadId ps = Some q ->
  matches_save doc changes q = true ->
  post_by_thread threadId
    (modify_first (matches_save doc changes) (saved changes) ps)
  = Some (saved changes q).
Proof.
  unfold post_by_thread. intros Hnd Hq Hhit.
  destruct (saved_keeps changes q) as (_ & Htid & _).
  induction ps as [|x rest IH]; simpl in *; [discriminate|].
  inversion Hnd as [|? ? Hx Hrest]; subst.
  destruct (N.eqb (Post.threadId x) threadId) eqn:Ex.
  - injection Hq as ->. rewrite Hhit. simpl. now rewrite Htid, Ex.
  - destruct (matches_save doc changes x) eqn:Hm.
    + exfalso. apply Hx. apply matches_save_id in Hm, Hhit. rewrite Hm, <- Hhit.
      apply in_map. apply find_In in Hq. tauto.
    + simpl. rewrite Ex. now apply IH.
Qed.



Lemma NoDup_map_modify_first {A B : Type} (h : A -> B) (test : A -> bool)
  (g : A -> A) (l : list A) :
  (forall x, h (g x) = h x) ->
  NoDup (map h l) -> NoDup (map h (modify_first test g l)).
Proof.
  intros Hg Hnd. rewrite map_modify_first; auto.
Qed.






Lemma truthy_spec (s : option string) :
  truthy s
  = match s with
    | Some t => if String.eqb t "" then None else Some t
    | None => None
    end.
Proof. destruct s as [[|ch t]|]; reflexivity. Qed.

Lemma thread_by_id_updated_other (threadId other : Uuid)
  (f : ThreadRow -> ThreadRow) (ts : list ThreadRow) :
  (forall r, id (f r) = id r) -> other <> threadId ->
  thread_by_id other (update_where_id threadId f ts) = thread_by_id other ts.
Proof.
  intros Hf Hne. unfold thread_by_id, update_where_id.
  induction ts as [|r rest IH]; simpl; [reflexivity|].
  destruct (N.eqb_spec (id r) threadId) as [Hr|Hr].
  - rewrite Hf.
    destruct (N.eqb_spec (id r) other); [congruence | exact IH].
  - destruct (N.eqb (id r) other); [reflexivity | exact IH].
Qed.

Lemma thread_by_id_found (threadId : Uuid) (ts : list ThreadRow)
  (row : ThreadRow) :
  thread_by_id threadId ts = Some row -> id row = threadId.
Proof.
  intros H. apply find_In in H. destruct H as [_ H]. now apply N.eqb_eq.
Qed.

(** * The claims *)

(** ** C10: [updateThread] tolerates a missing content document *)

(** C10.  When the metadata row exists and the caller is the author or a
    moderator/admin, but no content document exists for the thread id,
    [updateThread] (absent store faults) does not fail with NotFound: it
    answers 200 with a null post and the thread under the new title, and
    the stored row of the thread then carries the new title when one was
    given (an empty title counts as none), all its other columns being as
    before; the rows of other threads and the documents are untouched. *)
Theorem C10_updateThread_tolerates_missing_document
  (w : World) (user : User) (now : Date) (threadId : Uuid)
  (newTitle content : option string) (tags : option (list string))
  (row : ThreadRow) :
  faults w = [] ->
  thread_by_id threadId (threads w) = Some row ->
  author_id row = user_id user \/ isModRole (role user) = true ->
  post_by_thread threadId (posts w) = None ->
  let out := serve (ReqUpdateThread user now threadId newTitle content tags) w
  in
  let title' := match newTitle with
                | Some t => if String.eqb t "" then title row else t
                | None => title row
                end in
  status (fst out) = 200
  /\ success (fst out) = true
  /\ (exists shown,
        body (fst out) = BodyThreadPost shown None
        /\ id shown = threadId
        /\ author_id shown = author_id row
        /\ title shown = title')
  /\ (exists stored,
        thread_by_id threadId (threads (snd out)) = Some stored
        /\ title stored = title'
        /\ slug stored = slug row
        /\ category_id stored = category_id row
        /\ author_id stored = author_id row
        /\ is_pinned stored = is_pinned row
        /\ is_locked stored = is_locked row
        /\ view_count stored = view_count row
        /\ reply_count stored = reply_count row
        /\ last_reply_at stored = last_reply_at row
        /\ last_reply_by stored = last_reply_by row
        /\ created_at stored = created_at row)
  /\ (forall other, other <> threadId ->
        thread_by_id other (threads (snd out))
        = thread_by_id other (threads w))
  /\ posts (snd out) = posts w.
Proof.
  intros Hf Hrow Hauth Hpost.
  pose proof (thread_by_id_found _ _ _ Hrow) as Hid.
  destruct w as [ts cats tx0 ls ps act nu nid fs]. simpl in *. subst fs.
  unfold serve, asyncHandler, handler, updateThread.
  cbn. rewrite Hrow. cbn.
  rewrite (may_edit _ _ Hauth), truthy_spec.
  destruct newTitle as [t|]; [destruct (String.eqb t "")|]; cbn;
    rewrite (modify_first_absent _ _ _ Hpost), Hpost; cbn;
    (split; [reflexivity|]); (split; [reflexivity|]);
    (split; [eexists; split; [reflexivity|]; repeat split; exact Hid|]).
  - split; [exists row; repeat split; exact Hrow|]. split; reflexivity.
  - split; [|split; [|reflexivity]].
    + exists (touch now (row_set_title t row)).
      rewrite thread_by_id_updated by reflexivity. rewrite Hrow.
      repeat split.
    + intros other Hne. now apply thread_by_id_updated_other.
  - split; [exists row; repeat split; exact Hrow|]. split; reflexivity.
Qed.

Lemma C10_witness :
  let out := serve (ReqUpdateThread carol 200 0%N (Some "Hello again") None
                      None) orphan_row_world in
  status (fst out) = 200
  /\ (exists shown,
        body (fst out) = BodyThreadPost shown None
        /\ title shown = "Hello again")
  /\ (exists stored,
        thread_by_id 0%N (threads (snd out)) = Some stored
        /\ title stored = "Hello again"
        /\ slug stored = "hello-world-a3f7")
  /\ posts (snd out) = posts orphan_row_world.
Proof.
  cbv zeta.
  destruct (C10_updateThread_tolerates_missing_document orphan_row_world
              carol 200 0%N (Some "Hello again") None None
              (new_thread_row 0%N "Hello World" "hello-world-a3f7" 7%N 1%N
                 100))
    as (Hstatus & _ & (shown & Hbody & _ & _ & Htitle)
        & (stored & Hstored & Hnew & Hslug & _) & _ & Hposts).
  - reflexivity.
  - reflexivity.
  - right. reflexivity.
  - reflexivity.
  - split; [exact Hstatus|].
    split; [exists shown; split; [exact Hbody | exact Htitle]|].
    split; [|exact Hposts].
    exists stored. split; [exact Hstored|]. split; [exact Hnew | exact Hslug].
Defined.

(** ** C6: a locked thread takes no new comment *)

(** C6.  [addComment] on a thread whose metadata row has [is_locked] set
    never succeeds and leaves every content document (and the metadata) as
    it was, whatever the role of the acting user; when the lookup of the
    thread is answered by the store, the failure is 403 Forbidden. *)
Theorem C6_locked_thread_rejects_comment
  (w : World) (user : User) (now : Date) (threadId : Uuid)
  (content : string) (parentCommentId : option ObjectId) (row : ThreadRow) :
  thread_by_id threadId (threads w) = Some row ->
  is_locked row = true ->
  let out := serve (ReqCreateComment user now threadId content
                      parentCommentId) w in
  success (fst out) = false
  /\ posts (snd out) = posts w
  /\ threads (snd out) = threads w
  /\ (hd Healthy (faults w) = Healthy ->
      status (fst out) = 403
      /\ message (fst out) = "Thread is locked. No new replies allowed.").
Proof.
  intros Hrow Hlocked.
  destruct w as [ts cats tx0 ls ps act nu nid fs]. simpl in *.
  unfold serve, asyncHandler, handler, createComment.
  destruct fs as [|[|e|e] rest]; cbn; rewrite ?Hrow; cbn;
    rewrite ?Hlocked; cbn; rewrite ?errorHandler_fails;
    repeat split; auto; discriminate.
Qed.

Lemma C6_witness :
  let out := serve (ReqCreateComment dave 200 0%N "let me in" None)
               hello_locked in
  success (fst out) = false
  /\ posts (snd out) = posts hello_locked
  /\ threads (snd out) = threads hello_locked
  /\ (hd Healthy (faults hello_locked) = Healthy ->
      status (fst out) = 403
      /\ message (fst out) = "Thread is locked. No new replies allowed.").
Proof.
  apply (C6_locked_thread_rejects_comment hello_locked dave 200 0%N
           "let me in" None
           (touch 150
              (row_toggle_locked
                 (new_thread_row 0%N "Hello World" "hello-world-a3f7" 7%N 1%N
                    100)))).
  - reflexivity.
  - reflexivity.
Defined.

(** ** C7: the parent of a reply must exist, deleted or not *)

(** C7.  For [addComment] with a [parentCommentId], on a thread that is not
    locked and absent store faults: when no document of the thread holds a
    comment with that id the call fails with 404 NotFound and writes
    nothing; when the thread's document holds such a comment, tombstoned or
    not, the call succeeds with 201 and appends the reply under that
    parent. *)
Theorem C7_parent_must_exist_deleted_or_not
  (w : World) (user : User) (now : Date) (threadId : Uuid)
  (content : string) (parent : ObjectId) :
  faults w = [] ->
  (forall row, thread_by_id threadId (threads w) = Some row ->
               is_locked row = false) ->
  let out := serve (ReqCreateComment user now threadId content (Some parent))
               w in
  (find (fun p => N.eqb (Post.threadId p) threadId && has_comment parent p)
     (posts w) = None ->
   status (fst out) = 404 /\ success (fst out) = false
   /\ posts (snd out) = posts w /\ threads (snd out) = threads w)
  /\ (forall row p c,
        thread_by_id threadId (threads w) = Some row ->
        post_by_thread threadId (posts w) = Some p ->
        comments_id parent (Post.comments p) = Some c ->
        reply_overflow threadId (threads w) = false ->
        let reply := new_comment (next_oid w) (user_id user) (username user)
                       content (Some parent) in
        status (fst out) = 201 /\ success (fst out) = true
        /\ body (fst out) = BodyComment (Some reply)
        /\ post_by_thread threadId (posts (snd out))
           = Some (set_comments (push (Post.comments p) reply) p)).
Proof.
  intros Hf Hunlocked.
  destruct w as [ts cats tx0 ls ps act nu nid fs]. simpl in *. subst fs.
  unfold serve, asyncHandler, handler, createComment. split.
  - intros Hnone. cbn.
    destruct (thread_by_id threadId ts) as [row|] eqn:Hrow; cbn.
    + rewrite (Hunlocked row eq_refl). cbn. rewrite Hnone. cbn. auto.
    + auto.
  - intros row p c Hrow Hp Hc Hover. cbn. rewrite Hrow. cbn.
    rewrite (Hunlocked row Hrow). cbn.
    rewrite (find_by_comment_first _ _ _ _ Hp
               (comments_id_has_comment _ _ _ Hc)). cbn.
    erewrite post_by_thread_pushed; [|exact Hp|reflexivity]. cbn.
    rewrite Hover. cbn. rewrite last_comment_push.
    repeat split. erewrite post_by_thread_pushed; [|exact Hp|]; reflexivity.
Qed.

Lemma C7_witness :
  let out := serve (ReqCreateComment alice 400 0%N "still here?" (Some 1%N))
               hello_hi_deleted in
  status (fst out) = 201 /\ success (fst out) = true
  /\ body (fst out)
     = BodyComment
         (Some (new_comment 2%N 1%N "alice" "still here?" (Some 1%N)))
  /\ option_map (fun p => map Comment.isDeleted (Post.comments p))
       (post_by_thread 0%N (posts (snd out)))
     = Some [true; false].
Proof.
  pose proof (C7_parent_must_exist_deleted_or_not hello_hi_deleted alice 400
                0%N "still here?" 1%N) as H.
  cbv zeta in *.
  assert (Hf : faults hello_hi_deleted = []) by reflexivity.
  assert (Hu : forall row,
             thread_by_id 0%N (threads hello_hi_deleted) = Some row ->
             is_locked row = false).
  { intros row Hrow. vm_compute in Hrow. injection Hrow as <-. reflexivity. }
  destruct (H Hf Hu) as [_ Hreply]. clear H.
  specialize (Hreply
                (touch 300
                   (row_reply_deleted
                      (touch 200
                         (row_reply_created 2%N 200
                            (new_thread_row 0%N "Hello World"
                               "hello-world-a3f7" 7%N 1%N 100)))))
                (set_comments
                   [tombstone 300 (new_comment 1%N 2%N "bob" "Hi" None)]
                   (new_post 0%N 0%N 1%N "alice" "body of ten chars" []))
                (tombstone 300 (new_comment 1%N 2%N "bob" "Hi" None))
                eq_refl eq_refl eq_refl eq_refl).
  destruct Hreply as (Hs & Hok & Hb & Hp).
  split; [exact Hs|]. split; [exact Hok|]. split; [exact Hb|].
  exact (f_equal
           (option_map (fun p => map Comment.isDeleted (Post.comments p))) Hp).
Defined.

(** ** C3: the stored count is the size of the voter set *)




(** ** C4: two toggles by the same voter cancel *)



(** ** C2: the reply count follows creations and soft-deletions *)

(** C2.  Absent store faults, on a thread whose metadata row exists with a
    non-negative [reply_count]: every successful [addComment] adds one to
    [reply_count] and sets [last_reply_at] and [last_reply_by] to the time
    of the call and the acting user; every successful [softDeleteComment]
    takes one from [reply_count], stopping at zero, and leaves
    [last_reply_at] and [last_reply_by] alone; and N successful
    [addComment] calls followed by M successful [softDeleteComment] calls on
    a thread that starts at [reply_count = 0] end with
    [reply_count = max(0, N - M)], which is not negative. *)
Theorem C2_reply_count_tracks_comments
  (w : World) (threadId : Uuid) (row : ThreadRow) :
  faults w = [] ->
  thread_by_id threadId (threads w) = Some row ->
  0 <= reply_count row ->
  (forall d : Draft,
     let out := serve (addComment_on threadId d) w in
     succeeded (fst out) ->
     exists row',
       thread_by_id threadId (threads (snd out)) = Some row'
       /\ reply_count row' = reply_count row + 1
       /\ last_reply_at row' = Some (draft_now d)
       /\ last_reply_by row' = Some (user_id (draft_user d)))
  /\ (forall r : Removal,
        let out := serve (softDelete_on threadId r) w in
        succeeded (fst out) ->
        exists row',
          thread_by_id threadId (threads (snd out)) = Some row'
          /\ reply_count row' = Z.max (reply_count row - 1) 0
          /\ 0 <= reply_count row'
          /\ last_reply_at row' = last_reply_at row
          /\ last_reply_by row' = last_reply_by row)
  /\ (forall (drafts : list Draft) (removals : list Removal),
        reply_count row = 0 ->
        let out := serve_all (map (addComment_on threadId) drafts
                              ++ map (softDelete_on threadId) removals) w in
        Forall succeeded (fst out) ->
        exists row',
          thread_by_id threadId (threads (snd out)) = Some row'
          /\ reply_count row'
             = Z.max 0 (Z.of_nat (List.length drafts)
                        - Z.of_nat (List.length removals))
          /\ 0 <= reply_count row').
Proof.
  intros Hf Hrow Hpos. split; [|split].
  - intros d out Hok. unfold out, addComment_on in *.
    rewrite (createComment_counts w _ _ _ _ _ Hf Hok).
    rewrite thread_by_id_updated by reflexivity. rewrite Hrow. simpl.
    eexists. split; [reflexivity|]. simpl. auto.
  - intros r out Hok. unfold out, softDelete_on in *.
    rewrite (deleteComment_counts w _ _ _ _ Hf Hok).
    rewrite thread_by_id_updated by reflexivity. rewrite Hrow. simpl.
    eexists. split; [reflexivity|]. simpl. repeat split; auto. lia.
  - intros drafts removals Hzero out Hall. unfold out in *. clear out.
    rewrite serve_all_app in *. simpl in *.
    apply Forall_app in Hall. destruct Hall as [Hcreated Hdeleted].
    destruct (creations_count threadId drafts w row Hf Hrow Hcreated)
      as [Hf1 [row1 [Hrow1 Hcount1]]].
    assert (Hpos1 : 0 <= reply_count row1) by lia.
    destruct (deletions_count threadId removals _ row1 Hf1 Hrow1 Hpos1
                Hdeleted) as [row2 [Hrow2 Hcount2]].
    exists row2. split; [exact Hrow2|]. split; lia.
Qed.

Lemma C2_witness :
  let out := serve_all
               (map (addComment_on 0%N)
                  [mkDraft bob 200 "Hi" None;
                   mkDraft alice 210 "Hello" (Some 1%N)]
                ++ map (softDelete_on 0%N) [mkRemoval bob 300 1%N])
               hello_world in
  Forall succeeded (fst out)
  /\ exists row',
       thread_by_id 0%N (threads (snd out)) = Some row'
       /\ reply_count row' = 1
       /\ 0 <= reply_count row'.
Proof.
  cbv zeta.
  assert (Hall : Forall succeeded
                   (fst (serve_all
                           (map (addComment_on 0%N)
                              [mkDraft bob 200 "Hi" None;
                               mkDraft alice 210 "Hello" (Some 1%N)]
                            ++ map (softDelete_on 0%N)
                                 [mkRemoval bob 300 1%N])
                           hello_world))).
  { repeat constructor. }
  split; [exact Hall|].
  destruct (C2_reply_count_tracks_comments hello_world 0%N
              (new_thread_row 0%N "Hello World" "hello-world-a3f7" 7%N 1%N
                 100)
              eq_refl eq_refl (Z.le_refl 0)) as (_ & _ & Hseq).
  exact (Hseq [mkDraft bob 200 "Hi" None; mkDraft alice 210 "Hello" (Some 1%N)]
           [mkRemoval bob 300 1%N] eq_refl Hall).
Defined.

(** ** C5: a tombstone is terminal *)



(** ** C1: the creation saga after a failed content write *)

(** C1 (amended).  For every [createThread] call in which the metadata
    insert succeeds but the content-document write fails: the metadata row
    is never committed, whatever the remaining calls do; and when the
    [ROLLBACK] is answered, the transaction is rolled back, the client is
    released, the clean-up delete of the content document is attempted with
    its failure swallowed, the original error is propagated, and the
    content document is absent afterwards whenever the failed write left
    none or the clean-up delete reached the store. *)
Theorem C1_failed_content_write_is_compensated
  (w : World) (user : User) (now : Date) (newTitle content : string)
  (categoryId : Uuid) (tags : option (list string)) (slugged : string)
  (e : Err) (f : Fault) (rest : list Fault) :
  well_formed w ->
  content_write_fails w e f rest ->
  insert_goes_through w categoryId slugged ->
  let out := run (createThread user now newTitle content categoryId tags
                    slugged) w in
  threads (snd out) = threads w
  /\ thread_by_id (next_uuid w) (threads (snd out)) = None
  /\ (forall f_delete rest',
        rest = Healthy :: f_delete :: rest' ->
        fst out = Rejected e
        /\ tx (snd out) = None
        /\ leased (snd out) = leased w
        /\ (f = FailBefore e \/ (forall e', f_delete <> FailBefore e') ->
            posts (snd out) = posts w
            /\ post_by_thread (next_uuid w) (posts (snd out)) = None)).
Proof.
  intros Hwf [Hfaults Hf] [[cat Hcat] [Htx [Hslug Hfits]]].
  apply fits_column in Hfits.
  pose proof (wf_threadId_bound w Hwf) as Hbound.
  pose proof (thread_by_id_absent _ _ (wf_rows w Hwf)) as Hrow.
  pose proof (post_by_thread_absent _ _ Hbound) as Hdoc.
  destruct w as [ts cats tx0 ls ps act nu nid fs].
  simpl in Hfaults, Hcat, Htx, Hslug, Hbound, Hrow, Hdoc. subst fs tx0.
  cbv zeta.
  assert (Hthreads :
            let out := run (createThread user now newTitle content categoryId
                              tags slugged)
                         (mkWorld ts cats None ls ps act nu nid
                            (Healthy :: Healthy :: Healthy :: Healthy :: f
                             :: rest)) in
            threads (snd out) = ts).
  { destruct Hf as [-> | ->];
      destruct rest as [|[|e1|e1] [|[|e2|e2] rest']];
      unfold createThread, createThread_catch, logActivity;
      cbn; rewrite Hcat; cbn; rewrite Hfits, app_nil_r, Hslug; cbn;
      reflexivity. }
  cbv zeta in Hthreads.
  split; [exact Hthreads|]. split; [rewrite Hthreads; exact Hrow|].
  intros f_delete rest' ->.
  destruct Hf as [-> | ->]; destruct f_delete as [|e'|e'];
    unfold createThread, createThread_catch, logActivity;
    cbn; rewrite Hcat; cbn; rewrite Hfits, app_nil_r, Hslug; cbn;
    (split; [reflexivity|]); (split; [reflexivity|]);
    (split; [reflexivity|]); intros Hcase;
    rewrite ?(remove_first_absent nu ps Hbound);
    try (rewrite remove_first_snoc by (exact Hbound || reflexivity));
    try (split; [reflexivity | exact Hdoc]).
  destruct Hcase as [Hcase | Hcase]; [discriminate|].
  exfalso. now apply (Hcase e').
Qed.

Lemma C1_witness :
  let out := run (createThread alice 100 "Hello World" "body of ten chars"
                    7%N None "hello-world-a3f7") write_times_out in
  fst out = Rejected timed_out
  /\ threads (snd out) = []
  /\ posts (snd out) = []
  /\ tx (snd out) = None
  /\ leased (snd out) = O.
Proof.
  cbv zeta.
  destruct (C1_failed_content_write_is_compensated write_times_out alice 100
              "Hello World" "body of ten chars" 7%N None "hello-world-a3f7"
              timed_out (FailAfter timed_out) [Healthy; Healthy])
    as (Hthreads & _ & Hrest).
  - apply well_formed_boot.
  - split; [reflexivity | right; reflexivity].
  - split; [exists general; reflexivity|].
    split; [reflexivity|]. split; [reflexivity | simpl; lia].
  - destruct (Hrest Healthy [] eq_refl) as (Herr & Htx & Hleased & Hposts).
    destruct Hposts as [Hposts _]; [right; discriminate|].
    repeat split; assumption.
Defined.

(** The claim as stated fails when the failed write did reach the store and
    the clean-up delete does not: the content document of the new thread
    stays behind, without a metadata row. *)
Lemma C1_counterexample :
  ~ saga_leaves_neither lost_acknowledgement alice 100 "Hello World"
      "body of ten chars" 7%N None "hello-world-a3f7".
Proof.
  intros H.
  destruct (H timed_out (FailAfter timed_out) [Healthy; FailBefore timed_out])
    as (_ & _ & Hdoc).
  - split; [reflexivity | right; reflexivity].
  - split; [exists general; reflexivity|].
    split; [reflexivity|]. split; [reflexivity | simpl; lia].
  - vm_compute in Hdoc. discriminate.
Qed.

(** ** C8: a failed counter update after the comment was written *)

(** C8 (amended).  When the comment write succeeds but the following
    [reply_count] update is rejected by the relational store, [addComment]
    answers with the ordinary failure answer of the global error handler for
    that error ([success: false]; it is the very answer a call gets whose
    first lookup is rejected with the same error and which writes nothing),
    the comment already written stays in the document, and when the update
    did not reach the store the metadata row keeps its stale count. *)
Theorem C8_counter_failure_is_a_plain_failure
  (w : World) (user : User) (now : Date) (threadId : Uuid) (content : string)
  (parent : option ObjectId) (row : ThreadRow) (p : Post.t)
  (e : Err) (f : Fault) (rest : list Fault) :
  counter_update_fails w parent e f rest ->
  thread_by_id threadId (threads w) = Some row ->
  is_locked row = false ->
  post_by_thread threadId (posts w) = Some p ->
  (forall parentId, parent = Some parentId ->
                    has_comment parentId p = true) ->
  let req := ReqCreateComment user now threadId content parent in
  let out := serve req w in
  let failed := serve req (set_faults (FailBefore e :: rest) w) in
  fst out = errorHandler e
  /\ success (fst out) = false
  /\ post_by_thread threadId (posts (snd out))
     = Some (set_comments
               (push (Post.comments p)
                  (new_comment (next_oid w) (user_id user) (username user)
                     content parent)) p)
  /\ (f = FailBefore e -> threads (snd out) = threads w)
  /\ fst failed = fst out
  /\ posts (snd failed) = posts w
  /\ threads (snd failed) = threads w.
Proof.
  intros [Hfaults Hf] Hrow Hunlocked Hp Hparent.
  destruct w as [ts cats tx0 ls ps act nu nid fs]. simpl in *. subst fs.
  unfold serve, asyncHandler, handler, createComment.
  assert (Hpushed :
            post_by_thread threadId
              (modify_first (fun q => N.eqb (Post.threadId q) threadId)
                 (fun q =>
                    set_comments
                      (push (Post.comments q)
                         (new_comment nid (user_id user) (username user)
                            content parent)) q) ps)
            = Some (set_comments
                      (push (Post.comments p)
                         (new_comment nid (user_id user) (username user)
                            content parent)) p))
    by (erewrite post_by_thread_pushed; [|exact Hp|]; reflexivity).
  destruct parent as [parentId|]; cbn; rewrite Hrow; cbn;
    rewrite Hunlocked; cbn.
  - rewrite (find_by_comment_first _ _ _ _ Hp (Hparent parentId eq_refl)).
    cbn. rewrite Hpushed. cbn.
    destruct Hf as [-> | ->]; cbn; rewrite ?errorHandler_fails;
      repeat split; auto; try discriminate.
    all: destruct (reply_overflow threadId ts); cbn; exact Hpushed.
  - rewrite Hpushed. cbn.
    destruct Hf as [-> | ->]; cbn; rewrite ?errorHandler_fails;
      repeat split; auto; try discriminate.
    all: destruct (reply_overflow threadId ts); cbn; exact Hpushed.
Qed.

Lemma C8_witness :
  let out := serve (ReqCreateComment bob 200 0%N "Hi" None)
               counter_unreachable in
  status (fst out) = 500
  /\ success (fst out) = false
  /\ option_map (fun p => map Comment.content (Post.comments p))
       (post_by_thread 0%N (posts (snd out))) = Some ["Hi"]
  /\ option_map reply_count (thread_by_id 0%N (threads (snd out))) = Some 0.
Proof.
  cbv zeta.
  destruct (C8_counter_failure_is_a_plain_failure counter_unreachable bob 200
              0%N "Hi" None
              (new_thread_row 0%N "Hello World" "hello-world-a3f7" 7%N 1%N
                 100)
              (new_post 0%N 0%N 1%N "alice" "body of ten chars" [])
              pg_unreachable (FailBefore pg_unreachable) [])
    as (Hres & Hfail & Hdoc & Hstale & _).
  - split; [reflexivity | left; reflexivity].
  - reflexivity.
  - reflexivity.
  - reflexivity.
  - intros parentId H. discriminate H.
  - split; [now rewrite Hres|]. split; [exact Hfail|]. split.
    + exact (f_equal
               (option_map (fun p => map Comment.content (Post.comments p)))
               Hdoc).
    + exact (f_equal
               (fun ts => option_map reply_count (thread_by_id 0%N ts))
               (Hstale eq_refl)).
Defined.

(** The claim as stated fails: the answer to a comment that was written
    while its counter update failed is the answer to the same request when
    the store was out from the start and nothing was written. *)
Lemma C8_counterexample :
  ~ partial_success_distinguishable (ReqCreateComment bob 200 0%N "Hi" None)
      counter_unreachable lookup_unreachable.
Proof.
  intros H. apply H.
  - intros Heq. vm_compute in Heq. discriminate Heq.
  - reflexivity.
  - reflexivity.
Qed.

(** ** C9: a vote toggle is a read, then a save of the changes *)




(** * More properties *)

(** ** [authorize] *)

Lemma math_min_spec (levels : list Z) :
  match math_min levels with
  | None => levels = []
  | Some m => In m levels /\ Forall (fun x => m <= x) levels
  end.
Proof.
  induction levels as [|x rest IH]; simpl; [reflexivity|].
  destruct (math_min rest) as [m|].
  - destruct IH as [Hin Hall]. split.
    + destruct (Z.min_spec x m) as [[_ ->]|[_ ->]]; auto.
    + constructor; [lia|].
      eapply Forall_impl; [|exact Hall]. intros y Hy. simpl in Hy. lia.
  - subst rest. split; [now left|]. constructor; [lia | constructor].
Qed.

(** ** [slugify] *)

Ltac each_char c :=
  destruct c as [[] [] [] [] [] [] [] []]; vm_compute; try tauto;
  try (intros; discriminate); try (split; intros; discriminate).

Lemma kept_is_slug_char (c : Ascii.ascii) :
  is_word (to_lower c) || is_space (to_lower c) || is_hyphen (to_lower c)
  = true ->
  is_separator (to_lower c) = false ->
  is_slug_char (to_lower c) = true.
Proof. each_char c. Qed.

Lemma slug_char_fixed (c : Ascii.ascii) :
  is_slug_char c = true ->
  to_lower c = c
  /\ is_space c = false
  /\ is_word c || is_space c || is_hyphen c = true
  /\ is_separator c = is_hyphen c.
Proof. each_char c. Qed.

Lemma separator_hyphen (c : Ascii.ascii) :
  is_separator c = false -> is_hyphen c = false.
Proof. each_char c. Qed.

Lemma alnum_survives (c : Ascii.ascii) :
  is_alnum c = true ->
  is_space (to_lower c) = false
  /\ is_word (to_lower c) || is_space (to_lower c) || is_hyphen (to_lower c)
     = true
  /\ is_separator (to_lower c) = false.
Proof. each_char c. Qed.

Lemma not_alnum_separates (c : Ascii.ascii) :
  is_alnum c = false ->
  is_word (to_lower c) || is_space (to_lower c) || is_hyphen (to_lower c)
  = true ->
  is_separator (to_lower c) = true.
Proof. each_char c. Qed.

Lemma drop_while_suffix (test : Ascii.ascii -> bool)
  (text : list Ascii.ascii) :
  exists dropped, text = dropped ++ drop_while test text.
Proof.
  induction text as [|c rest [dropped IH]]; simpl.
  - now exists [].
  - destruct (test c).
    + exists (c :: dropped). simpl. now f_equal.
    + now exists [].
Qed.

Lemma drop_while_starts_clean (test : Ascii.ascii -> bool)
  (text : list Ascii.ascii) :
  starts_clean test (drop_while test text).
Proof.
  induction text as [|c rest IH]; simpl; [exact I|].
  destruct (test c) eqn:E; [exact IH | exact E].
Qed.

Lemma drop_while_clean (test : Ascii.ascii -> bool)
  (text : list Ascii.ascii) :
  starts_clean test text -> drop_while test text = text.
Proof.
  destruct text as [|c rest]; simpl; [reflexivity|]. now intros ->.
Qed.

(** What [trim_both] leaves is a stretch of the text. *)
Lemma trim_both_stretch (test : Ascii.ascii -> bool)
  (text : list Ascii.ascii) :
  exists before after, text = before ++ trim_both test text ++ after.
Proof.
  unfold trim_both.
  destruct (drop_while_suffix test text) as [before Hb].
  destruct (drop_while_suffix test (rev (drop_while test text)))
    as [after Ha].
  exists before, (rev after).
  rewrite <- rev_app_distr, <- Ha, rev_involutive. exact Hb.
Qed.

Lemma trim_both_ends_clean (test : Ascii.ascii -> bool)
  (text : list Ascii.ascii) :
  starts_clean test (trim_both test text)
  /\ starts_clean test (rev (trim_both test text)).
Proof.
  unfold trim_both. rewrite rev_involutive. split.
  - pose proof (drop_while_starts_clean test text) as Hm.
    destruct (drop_while_suffix test (rev (drop_while test text)))
      as [after Ha].
    apply (f_equal (@rev _)) in Ha.
    rewrite rev_involutive, rev_app_distr in Ha.
    destruct (rev (drop_while test (rev (drop_while test text))))
      as [|c rest]; [exact I|].
    rewrite Ha in Hm. exact Hm.
  - apply drop_while_starts_clean.
Qed.

Lemma trim_both_clean (test : Ascii.ascii -> bool)
  (text : list Ascii.ascii) :
  starts_clean test text -> starts_clean test (rev text) ->
  trim_both test text = text.
Proof.
  intros Hs He. unfold trim_both.
  rewrite (drop_while_clean test text Hs).
  rewrite (drop_while_clean test (rev text) He).
  apply rev_involutive.
Qed.

Lemma Forall_trim_both (P : Ascii.ascii -> Prop)
  (test : Ascii.ascii -> bool) (text : list Ascii.ascii) :
  Forall P text -> Forall P (trim_both test text).
Proof.
  intros H. destruct (trim_both_stretch test text) as [b [a E]].
  rewrite E in H. apply Forall_app in H. destruct H as [_ H].
  apply Forall_app in H. tauto.
Qed.

Lemma no_double_hyphen_app (l1 l2 : list Ascii.ascii) :
  no_double_hyphen (l1 ++ l2) -> no_double_hyphen l1 /\ no_double_hyphen l2.
Proof.
  induction l1 as [|c rest IH]; simpl.
  - tauto.
  - intros [Hpair Hrest]. destruct (IH Hrest) as [H1 H2].
    split; [|exact H2]. split; [|exact H1].
    destruct rest as [|d rest']; [exact I | exact Hpair].
Qed.

Lemma no_double_hyphen_trim_both (test : Ascii.ascii -> bool)
  (text : list Ascii.ascii) :
  no_double_hyphen text -> no_double_hyphen (trim_both test text).
Proof.
  intros H. destruct (trim_both_stretch test text) as [b [a E]].
  rewrite E in H. apply no_double_hyphen_app in H. destruct H as [_ H].
  apply no_double_hyphen_app in H. tauto.
Qed.

Lemma is_hyphen_hyphen : is_hyphen hyphen = true.
Proof. reflexivity. Qed.

Lemma collapse_in_run_starts_clean (text : list Ascii.ascii) :
  starts_clean is_hyphen (collapse true text).
Proof.
  induction text as [|c rest IH]; simpl; [exact I|].
  destruct (is_separator c) eqn:E; [exact IH|].
  simpl. now apply separator_hyphen.
Qed.

Lemma collapse_no_double_hyphen (inRun : bool) (text : list Ascii.ascii) :
  no_double_hyphen (collapse inRun text).
Proof.
  revert inRun. induction text as [|c rest IH]; intros inRun; simpl;
    [exact I|].
  destruct (is_separator c) eqn:E.
  - destruct inRun; [apply IH|]. simpl. split; [|apply IH].
    pose proof (collapse_in_run_starts_clean rest) as Hs.
    destruct (collapse true rest) as [|d rest']; [exact I|].
    simpl in Hs. rewrite Hs. intros [_ H]. discriminate H.
  - simpl. split; [|apply IH].
    destruct (collapse false rest) as [|d rest']; [exact I|].
    rewrite (separator_hyphen c E). intros [H _]. discriminate H.
Qed.

Lemma collapse_slug_chars (inRun : bool) (text : list Ascii.ascii) :
  Forall (fun c => is_separator c = false -> is_slug_char c = true) text ->
  Forall (fun c => is_slug_char c = true) (collapse inRun text).
Proof.
  intros H. revert inRun.
  induction H as [|c rest Hc _ IH]; intros inRun; simpl; [constructor|].
  destruct (is_separator c) eqn:E.
  - destruct inRun; [apply IH|]. constructor; [reflexivity | apply IH].
  - constructor; [now apply Hc | apply IH].
Qed.

Lemma collapse_fixed (inRun : bool) (text : list Ascii.ascii) :
  Forall (fun c => is_slug_char c = true) text ->
  no_double_hyphen text ->
  (inRun = true -> starts_clean is_hyphen text) ->
  collapse inRun text = text.
Proof.
  intros H. revert inRun.
  induction H as [|c rest Hc _ IH]; intros inRun Hnd Hrun; simpl;
    [reflexivity|].
  destruct Hnd as [Hpair Hnd].
  destruct (slug_char_fixed c Hc) as (_ & _ & _ & Hsep). rewrite Hsep.
  destruct (is_hyphen c) eqn:E.
  - destruct inRun; [specialize (Hrun eq_refl); simpl in Hrun; congruence|].
    assert (Hc' : c = hyphen) by (revert E; clear; each_char c).
    rewrite Hc'. f_equal. apply IH; [exact Hnd|]. intros _.
    destruct rest as [|d rest']; [exact I|]. simpl.
    destruct (is_hyphen d); [exfalso; apply Hpair; auto | reflexivity].
  - f_equal. apply IH; [exact Hnd | discriminate].
Qed.

Lemma In_drop_while (test : Ascii.ascii -> bool) (text : list Ascii.ascii)
  (c : Ascii.ascii) :
  In c text -> test c = false -> In c (drop_while test text).
Proof.
  induction text as [|d rest IH]; simpl; [tauto|].
  intros [->|Hin] Hc.
  - rewrite Hc. now left.
  - destruct (test d); [now apply IH | now right].
Qed.

Lemma In_trim_both (test : Ascii.ascii -> bool) (text : list Ascii.ascii)
  (c : Ascii.ascii) :
  In c text -> test c = false -> In c (trim_both test text).
Proof.
  intros Hin Hc. unfold trim_both. rewrite <- in_rev.
  apply In_drop_while; [|exact Hc]. rewrite <- in_rev.
  now apply In_drop_while.
Qed.

Lemma In_collapse (inRun : bool) (text : list Ascii.ascii) (c : Ascii.ascii) :
  In c text -> is_separator c = false -> In c (collapse inRun text).
Proof.
  revert inRun. induction text as [|d rest IH]; intros inRun; simpl; [tauto|].
  intros [->|Hin] Hc.
  - rewrite Hc. now left.
  - destruct (is_separator d); [destruct inRun|];
      try right; now apply IH.
Qed.

Lemma collapse_separators (inRun : bool) (text : list Ascii.ascii) :
  Forall (fun c => is_separator c = true) text ->
  Forall (fun c => is_hyphen c = true) (collapse inRun text).
Proof.
  intros H. revert inRun.
  induction H as [|c rest Hc _ IH]; intros inRun; simpl; [constructor|].
  rewrite Hc. destruct inRun; [apply IH|].
  constructor; [reflexivity | apply IH].
Qed.

Lemma drop_while_all (test : Ascii.ascii -> bool) (text : list Ascii.ascii) :
  Forall (fun c => test c = true) text -> drop_while test text = [].
Proof.
  induction 1 as [|c rest Hc _ IH]; simpl; [reflexivity|]. now rewrite Hc.
Qed.

(** ** The pool and the schedule under one call *)

Lemma exec_leased {X : Type} (op : StoreOp X) (w : World) :
  match op with
  | GetClient => True
  | Release => leased (snd (exec op w)) = Nat.pred (leased w)
  | _ => leased (snd (exec op w)) = leased w
  end.
Proof.
  destruct op; try exact I; unfold exec, next_fault;
    destruct w as [ts cats tx0 ls ps act nu nid [|[|e|e] rest]]; simpl;
    try reflexivity;
    repeat match goal with
           | |- context [if ?b then _ else _] => destruct b
           | |- context [match ?t with Some _ => _ | None => _ end] =>
               destruct t
           end; reflexivity.
Qed.

Lemma exec_GetClient_leased (w : World) :
  (forall e, hd_error (faults w) <> Some (FailAfter e)) ->
  leased (snd (exec GetClient w))
  = match fst (exec GetClient w) with
    | Resolved _ => S (leased w)
    | Rejected _ => leased w
    end.
Proof.
  intros H. unfold exec, next_fault.
  destruct w as [ts cats tx0 ls ps act nu nid [|[|e|e] rest]]; simpl in *;
    try reflexivity.
  now destruct (H e).
Qed.

Lemma exec_faults {X : Type} (op : StoreOp X) (w : World) :
  faults (snd (exec op w))
  = match op with
    | Release => faults w
    | _ => tl (faults w)
    end.
Proof.
  assert (H : forall Y (o : StoreOp Y),
             faults (snd (let (f, w0) := next_fault w in
                          match f with
                          | Healthy => answer o w0
                          | FailBefore e => (Rejected e, w0)
                          | FailAfter e => (Rejected e, snd (answer o w0))
                          end)) = tl (faults w)).
  { intros Y o. unfold next_fault.
    destruct (faults w) as [|[|e|e] rest] eqn:E; simpl;
      rewrite ?answer_faults; simpl; try rewrite E; reflexivity. }
  destruct op; try apply H. apply answer_faults.
Qed.

(** Every call but [getClient] and [release] leaves the pool alone; the
    [release] of the [finally] block gives back the one client taken. *)
Ltac lease_auto n :=
  simpl;
  lazymatch goal with
  | |- triple _ (Ret _) _ => apply triple_ret; intros ? H; exact H
  | |- triple _ (Throw _) _ => apply triple_throw; intros ? H; exact H
  | |- triple _ (Call Release _) _ =>
      eapply triple_call with (R := fun _ w => leased w = n);
      [ let w := fresh "w" in
        let H := fresh "H" in
        intros w H; cbv beta in *;
        pose proof (exec_leased Release w) as Hl; cbv beta iota in Hl;
        rewrite Hl, H; reflexivity
      | intros [?|?]; lease_auto n ]
  | |- triple ?P (Call ?op _) _ =>
      eapply triple_call with (R := fun _ => P);
      [ let w := fresh "w" in
        let H := fresh "H" in
        intros w H; cbv beta in *;
        pose proof (exec_leased op w) as Hl; cbv beta iota in Hl; congruence
      | intros [?|?]; lease_auto n ]
  end.

(** ** Rows under DELETE and UPDATE *)

Lemma thread_by_id_deleted (threadId other : Uuid) (ts : list ThreadRow) :
  thread_by_id other
    (filter (fun r => negb (N.eqb (id r) threadId)) ts)
  = if N.eqb threadId other then None else thread_by_id other ts.
Proof.
  unfold thread_by_id. induction ts as [|r rest IH]; simpl.
  - now destruct (N.eqb threadId other).
  - destruct (N.eqb_spec (id r) threadId) as [Hr|Hr]; simpl.
    + rewrite IH. destruct (N.eqb_spec threadId other) as [Ho|Ho];
        [reflexivity|].
      destruct (N.eqb_spec (id r) other); [congruence | reflexivity].
    + destruct (N.eqb_spec (id r) other) as [Ho|Ho].
      * destruct (N.eqb_spec threadId other); [congruence | reflexivity].
      * exact IH.
Qed.

Lemma update_where_id_absent (threadId : Uuid) (f : ThreadRow -> ThreadRow)
  (ts : list ThreadRow) :
  thread_by_id threadId ts = None -> update_where_id threadId f ts = ts.
Proof.
  unfold thread_by_id, update_where_id.
  induction ts as [|r rest IH]; simpl; [reflexivity|].
  destruct (N.eqb (id r) threadId); [discriminate|].
  intros H. now rewrite (IH H).
Qed.

Lemma update_where_id_twice (threadId : Uuid) (f g : ThreadRow -> ThreadRow)
  (ts : list ThreadRow) :
  (forall r, id (f r) = id r) ->
  update_where_id threadId g (update_where_id threadId f ts)
  = update_where_id threadId (fun r => g (f r)) ts.
Proof.
  intros Hf. unfold update_where_id. rewrite map_map.
  apply map_ext. intros r.
  destruct (N.eqb (id r) threadId) eqn:E; [now rewrite Hf, E | now rewrite E].
Qed.

Lemma touch_toggle_locked_twice (now1 now2 : Date) (r : ThreadRow) :
  touch now2 (row_toggle_locked (touch now1 (row_toggle_locked r)))
  = touch now2 r.
Proof. destruct r. unfold touch, row_toggle_locked. simpl.
  now rewrite negb_involutive. Qed.

Lemma touch_toggle_pinned_twice (now1 now2 : Date) (r : ThreadRow) :
  touch now2 (row_toggle_pinned (touch now1 (row_toggle_pinned r)))
  = touch now2 r.
Proof. destruct r. unfold touch, row_toggle_pinned. simpl.
  now rewrite negb_involutive. Qed.

(** ** Comments under a rewrite of one of them *)

Lemma comments_id_mutated_other (commentId other : ObjectId)
  (f : Comment.t -> Comment.t) (cs : list Comment.t) :
  (forall c, Comment._id (f c) = Comment._id c) -> other <> commentId ->
  comments_id other
    (modify_first (fun x => N.eqb (Comment._id x) commentId) f cs)
  = comments_id other cs.
Proof.
  intros Hf Hne. unfold comments_id. apply find_modify_first_other.
  intros c Hc. apply N.eqb_eq in Hc. rewrite Hf.
  assert (H : N.eqb (Comment._id c) other = false)
    by (apply N.eqb_neq; congruence).
  now rewrite H.
Qed.

Lemma may_not_edit (owner : Uuid) (user : User) :
  owner <> user_id user -> isModRole (role user) = false ->
  negb (N.eqb owner (user_id user)) && negb (isModRole (role user)) = true.
Proof.
  intros Hne Hmod. rewrite Hmod.
  destruct (N.eqb_spec owner (user_id user)); [contradiction | reflexivity].
Qed.

Lemma modify_first_same {A : Type} (test : A -> bool) (g : A -> A)
  (l : list A) :
  (forall x, g x = x) -> modify_first test g l = l.
Proof.
  intros Hg. induction l as [|x rest IH]; simpl; [reflexivity|].
  destruct (test x); [now rewrite Hg | now rewrite IH].
Qed.


(** ** Tags as the schema stores them *)

Lemma to_lower_twice (c : Ascii.ascii) : to_lower (to_lower c) = to_lower c.
Proof. each_char c. Qed.

Lemma is_space_to_lower (c : Ascii.ascii) :
  is_space (to_lower c) = is_space c.
Proof. each_char c. Qed.

Lemma drop_while_map (test : Ascii.ascii -> bool)
  (f : Ascii.ascii -> Ascii.ascii) (text : list Ascii.ascii) :
  (forall c, test (f c) = test c) ->
  drop_while test (map f text) = map f (drop_while test text).
Proof.
  intros Hf. induction text as [|c rest IH]; simpl; [reflexivity|].
  rewrite Hf. destruct (test c); [exact IH | reflexivity].
Qed.

Lemma trim_both_map (test : Ascii.ascii -> bool)
  (f : Ascii.ascii -> Ascii.ascii) (text : list Ascii.ascii) :
  (forall c, test (f c) = test c) ->
  trim_both test (map f text) = map f (trim_both test text).
Proof.
  intros Hf. unfold trim_both.
  rewrite (drop_while_map test f text Hf), <- map_rev.
  rewrite (drop_while_map test f _ Hf). now rewrite map_rev.
Qed.

Lemma trim_both_twice (test : Ascii.ascii -> bool) (text : list Ascii.ascii) :
  trim_both test (trim_both test text) = trim_both test text.
Proof.
  destruct (trim_both_ends_clean test text) as [Hs He].
  now apply trim_both_clean.
Qed.

Lemma normalize_tag_twice (tag : string) :
  normalize_tag (normalize_tag tag) = normalize_tag tag.
Proof.
  unfold normalize_tag. rewrite list_ascii_of_string_of_list_ascii.
  rewrite (trim_both_map is_space to_lower _ is_space_to_lower).
  rewrite trim_both_twice.
  rewrite <- (trim_both_map is_space to_lower _ is_space_to_lower).
  rewrite map_map.
  rewrite (map_ext (fun c => to_lower (to_lower c)) to_lower to_lower_twice).
  reflexivity.
Qed.

(** * Further verified properties *)

(** ** X1: who passes a role check *)

(** X1.  [authorize(...roles)] lets an authenticated user through exactly
    when one of the listed roles is at or below the user's own in the
    hierarchy user < moderator < admin; with no role listed nobody passes.
    So [authorize('moderator', 'admin')] passes exactly the users for whom
    the handlers' own [isMod] test holds, and [authorize('admin')] exactly
    the admins.  A request without user is answered 401. *)
Theorem X1_authorize_passes_at_or_above (roles : list Role) (u : User) :
  (authorize roles (Some u) = Next
   <-> exists r, In r roles /\ role_level r <= role_level (role u))
  /\ (authorize [RoleModerator; RoleAdmin] (Some u) = Next
      <-> isModRole (role u) = true)
  /\ (authorize [RoleAdmin] (Some u) = Next <-> role u = RoleAdmin)
  /\ authorize roles None
     = Answered (mkResponse 401 false "Not authenticated." BodyNone).
Proof.
  split; [|split; [|split; [|reflexivity]]].
  - unfold authorize.
    pose proof (math_min_spec (map role_level roles)) as Hmin.
    destruct (math_min (map role_level roles)) as [m|].
    + destruct Hmin as [Hin Hall].
      destruct (Z.ltb_spec (role_level (role u)) m) as [Hlt|Hge].
      * split; [discriminate|].
        intros [r [Hr Hle]]. exfalso.
        rewrite Forall_forall in Hall.
        specialize (Hall (role_level r) (in_map role_level roles r Hr)).
        lia.
      * split; [|reflexivity]. intros _.
        apply in_map_iff in Hin. destruct Hin as [r [Hr Hin]].
        exists r. split; [exact Hin | lia].
    + split; [discriminate|].
      intros [r [Hr _]]. destruct roles; [contradiction | discriminate].
  - unfold authorize. destruct (role u); simpl; split;
      try discriminate; reflexivity.
  - unfold authorize. destruct (role u); simpl; split;
      try discriminate; reflexivity.
Qed.

Lemma X1_witness :
  authorize [RoleModerator; RoleAdmin] (Some carol) = Next
  /\ authorize [RoleAdmin] (Some carol)
     = Answered
         (mkResponse 403 false "Access denied. Required role: admin."
            BodyNone).
Proof.
  split.
  - apply (proj1 (X1_authorize_passes_at_or_above
                    [RoleModerator; RoleAdmin] carol)).
    exists RoleModerator. split; [now left | simpl; lia].
  - reflexivity.
Defined.

(** ** X2: the moderation routes turn plain users away *)

(** X2.  On the routes DELETE /:id, PATCH /:id/pin and PATCH /:id/lock, an
    authenticated user who is neither moderator nor admin is answered 403
    by the role check and the handler is never run: both stores and the
    fault schedule are exactly as before.  A moderator or admin gets the
    handler itself. *)
Theorem X2_moderation_routes_are_guarded
  (w : World) (user : User) (now : Date) (threadId : Uuid) :
  (isModRole (role user) = false ->
   let denied :=
     mkResponse 403 false "Access denied. Required role: moderator or admin."
       BodyNone in
   asyncHandler (route_deleteThread user threadId) w = (denied, w)
   /\ asyncHandler (route_pinThread user now threadId) w = (denied, w)
   /\ asyncHandler (route_lockThread user now threadId) w = (denied, w))
  /\ (isModRole (role user) = true ->
      route_deleteThread user threadId = deleteThread user threadId
      /\ route_pinThread user now threadId = pinThread now threadId
      /\ route_lockThread user now threadId = lockThread now threadId).
Proof.
  unfold route_deleteThread, route_pinThread, route_lockThread, guarded,
    authorize.
  destruct (role user); simpl; split; intros H; try discriminate H;
    repeat split.
Qed.

Lemma X2_witness :
  asyncHandler (route_lockThread alice 150 0%N) hello_world
  = (mkResponse 403 false "Access denied. Required role: moderator or admin."
       BodyNone, hello_world)
  /\ route_lockThread carol 150 0%N = lockThread 150 0%N.
Proof.
  split.
  - apply (proj1 (X2_moderation_routes_are_guarded hello_world alice 150 0%N)).
    reflexivity.
  - apply (proj2 (X2_moderation_routes_are_guarded hello_world carol 150 0%N)).
    reflexivity.
Defined.

(** ** X3: the bounds of a page request *)

(** X3.  Whatever [parseInt] made of the query ([NaN], an infinity or a
    number), [getPagination] yields a limit that is a number between 1 and
    100: a missing, unparsable or zero limit counts as 20, a negative one
    as 1 and one above 100 as 100, and a limit between 1 and 100 is taken
    as it is.  The page is at least 1: a missing, unparsable, zero or
    negative page counts as page 1, a page of at least 1 is taken as it
    is, and the offset is then (page - 1) * limit, not negative (for pages
    up to 2^53 / 100, where the doubles of the source are exact); an
    infinite page gives an infinite offset. *)
Theorem X3_getPagination_bounds (parsedPage parsedLimit : JsNumber) :
  (forall n, parsedPage = Num n -> n <= MAX_EXACT_PAGE) ->
  let p := getPagination parsedPage parsedLimit in
  (exists l,
     limit p = Num l
     /\ 1 <= l <= 100
     /\ (parsedLimit = NaN \/ parsedLimit = Num 0 -> l = 20)
     /\ (parsedLimit = NegInfinity -> l = 1)
     /\ (parsedLimit = PosInfinity -> l = 100)
     /\ (forall n, parsedLimit = Num n -> n < 0 -> l = 1)
     /\ (forall n, parsedLimit = Num n -> 100 < n -> l = 100)
     /\ (forall n, parsedLimit = Num n -> 1 <= n <= 100 -> l = n)
     /\ (parsedPage = PosInfinity ->
         page p = PosInfinity /\ offset p = PosInfinity)
     /\ (parsedPage <> PosInfinity ->
         exists n,
           page p = Num n
           /\ 1 <= n
           /\ offset p = Num ((n - 1) * l)
           /\ 0 <= (n - 1) * l <= 2 ^ 53
           /\ (forall m, parsedPage = Num m -> 1 <= m -> n = m)
           /\ (forall m, parsedPage = Num m -> m < 1 -> n = 1)
           /\ (parsedPage = NaN \/ parsedPage = NegInfinity -> n = 1))).
Proof.
  intros Hsafe. unfold getPagination. cbv zeta.
  assert (Hl : exists l,
             math_min_with 100 (math_max 1 (or_default parsedLimit 20))
             = Num l
             /\ 1 <= l <= 100
             /\ (parsedLimit = NaN \/ parsedLimit = Num 0 -> l = 20)
             /\ (parsedLimit = NegInfinity -> l = 1)
             /\ (parsedLimit = PosInfinity -> l = 100)
             /\ (forall n, parsedLimit = Num n -> n < 0 -> l = 1)
             /\ (forall n, parsedLimit = Num n -> 100 < n -> l = 100)
             /\ (forall n, parsedLimit = Num n -> 1 <= n <= 100 -> l = n)).
  { destruct parsedLimit as [| | |[|n|n]]; simpl; eexists;
      (split; [reflexivity|]);
      repeat split; try lia; try discriminate; try tauto;
      try (intros [H | H]; discriminate H);
      try (intros m [= <-] Hm; lia). }
  destruct Hl as (l & Hlimit & Hbounds & Hrest).
  exists l. simpl. rewrite Hlimit.
  split; [reflexivity|]. split; [exact Hbounds|].
  destruct Hrest as (H1 & H2 & H3 & H4 & H5 & H6).
  do 6 (split; [assumption|]).
  split.
  - intros ->. simpl. split; [reflexivity|].
    destruct (Z.eqb_spec l 0); [lia|].
    destruct (Z.ltb_spec 0 l); [reflexivity | lia].
  - intros Hfinite. unfold MAX_EXACT_PAGE in Hsafe.
    destruct parsedPage as [| | |[|n|n]]; simpl;
      try (now destruct Hfinite);
      eexists; (split; [reflexivity|]);
      try specialize (Hsafe _ eq_refl);
      repeat split; try lia; try nia; try discriminate;
      try (intros m [= <-] Hm; lia);
      try (intros [H | H]; discriminate H).
Qed.

Lemma X3_witness :
  limit (getPagination (Num 3) (Num 500)) = Num 100
  /\ offset (getPagination (Num 3) (Num 500)) = Num 200
  /\ page (getPagination NaN (Num (-5))) = Num 1
  /\ limit (getPagination NaN (Num (-5))) = Num 1.
Proof.
  destruct (X3_getPagination_bounds (Num 3) (Num 500))
    as (l & Hl & _ & _ & _ & _ & _ & Hcap & _ & _ & Hpage).
  { intros n [= <-]. unfold MAX_EXACT_PAGE. lia. }
  destruct (X3_getPagination_bounds NaN (Num (-5)))
    as (l' & Hl' & _ & _ & _ & _ & Hneg & _ & _ & _ & Hpage').
  { intros n H. discriminate H. }
  destruct Hpage as (n & _ & _ & Hoff & _ & Hsame & _); [discriminate|].
  destruct Hpage' as (n' & Hn' & _ & _ & _ & _ & _ & Hone); [discriminate|].
  rewrite (Hcap 500 eq_refl ltac:(lia)) in *.
  rewrite (Hneg (-5) eq_refl ltac:(lia)) in *.
  rewrite (Hsame 3 eq_refl ltac:(lia)) in *.
  rewrite (Hone (or_introl eq_refl)) in *.
  repeat split; assumption.
Defined.

(** ** X4: page counts and the next-page flag agree *)

(** X4.  For a limit between 1 and 100 (as [getPagination] always gives),
    a total that a table can hold (below 2^31 rows) and a finite page
    within the exact range, [paginatedResponse] reports the least number
    of pages that holds all rows, says there is a next page exactly when
    the page is below that number, and a previous page exactly when the
    page is above 1; with no rows there are 0 pages and no next page. *)
Theorem X4_paginatedResponse_pages (rows pageNo lim : Z) :
  1 <= lim <= 100 -> 0 <= rows < 2 ^ 31 ->
  - MAX_EXACT_PAGE <= pageNo <= MAX_EXACT_PAGE ->
  let info := paginatedResponse rows pageNo lim in
  rows <= totalPages info * lim
  /\ (0 < rows -> (totalPages info - 1) * lim < rows)
  /\ (hasNext info = true <-> pageNo < totalPages info)
  /\ (hasPrev info = true <-> 1 < pageNo)
  /\ (rows = 0 -> totalPages info = 0).
Proof.
  intros [Hlim _] [Hrows _] _. unfold paginatedResponse, ceil_div. simpl.
  pose proof (Z.div_mod (- rows) lim ltac:(lia)) as Hdm.
  pose proof (Z.mod_pos_bound (- rows) lim ltac:(lia)) as Hb.
  set (q := (- rows) / lim) in *. set (m := (- rows) mod lim) in *.
  assert (Hq : rows = - (lim * q) - m) by lia.
  repeat split.
  - nia.
  - intros Hpos. nia.
  - intros H. apply Z.ltb_lt in H. nia.
  - intros H. apply Z.ltb_lt. nia.
  - intros H. apply Z.ltb_lt in H. exact H.
  - intros H. apply Z.ltb_lt. exact H.
  - intros ->. nia.
Qed.

Lemma X4_witness :
  let info := paginatedResponse 41 2 20 in
  totalPages info = 3 /\ hasNext info = true /\ hasPrev info = true.
Proof.
  cbv zeta.
  destruct (X4_paginatedResponse_pages 41 2 20 ltac:(lia) ltac:(lia)
              ltac:(unfold MAX_EXACT_PAGE; lia))
    as (_ & _ & Hnext & Hprev & _).
  split; [reflexivity|]. split.
  - apply Hnext. reflexivity.
  - apply Hprev. reflexivity.
Defined.

(** ** X5: which rule of the error handler wins *)

(** X5.  [errorHandler] tests the error against its rules one after the
    other and lets each later match overwrite the answer; so the answer is
    that of the last rule in source order that applies:
    JsonWebTokenError (401) before CastError (400) before ValidationError
    (400) before the PostgreSQL codes 23514 (400), 23503 (400) and 23505
    (409), and only when none applies the error's own status and message,
    with 500 and 'Internal Server Error' for a missing or zero status and an
    empty message.  The answer never reports success. *)
Theorem X5_errorHandler_last_match_wins (err : Err) :
  errorHandler err = errorHandler_table err
  /\ success (errorHandler err) = false
  /\ body (errorHandler err) = BodyNone.
Proof.
  unfold errorHandler, errorHandler_table, errorHandler_rules.
  destruct (String.eqb (err_name err) "JsonWebTokenError");
    destruct (String.eqb (err_name err) "CastError");
    destruct (String.eqb (err_name err) "ValidationError");
    destruct (code_is "23514" err);
    destruct (code_is "23503" err);
    destruct (code_is "23505" err); simpl; auto.
Qed.

(** ** X6: the shape of a slug *)

(** X6.  For a title of ASCII characters, the base of the slug is made of
    lower-case letters, digits and hyphens only, has no hyphen at either
    end and no two hyphens in a row, and slugifying it again leaves it as it
    is. *)
Theorem X6_slug_base_shape (text : list Ascii.ascii) :
  is_ascii text ->
  let base := slug_base text in
  Forall (fun c => is_slug_char c = true) base
  /\ no_double_hyphen base
  /\ starts_clean is_hyphen base
  /\ starts_clean is_hyphen (rev base)
  /\ slug_base base = base.
Proof.
  intros _ base.
  assert (Hchars : Forall (fun c => is_slug_char c = true) base).
  { unfold base, slug_base. apply Forall_trim_both.
    apply collapse_slug_chars. rewrite Forall_forall.
    intros c Hc Hsep. apply filter_In in Hc. destruct Hc as [Hin Hkeep].
    destruct (trim_both_stretch is_space (map to_lower text)) as [b [a E]].
    assert (Hmap : In c (map to_lower text))
      by (rewrite E, !in_app_iff; tauto).
    apply in_map_iff in Hmap. destruct Hmap as [d [<- _]].
    now apply kept_is_slug_char. }
  assert (Hnd : no_double_hyphen base).
  { unfold base, slug_base. apply no_double_hyphen_trim_both.
    apply collapse_no_double_hyphen. }
  destruct (trim_both_ends_clean is_hyphen
              (collapse false
                 (filter (fun c => is_word c || is_space c || is_hyphen c)
                    (trim_both is_space (map to_lower text)))))
    as [Hstart Hend].
  fold (slug_base text) in Hstart, Hend. fold base in Hstart, Hend.
  repeat split; try assumption.
  (* once more *)
  assert (Hspace : forall l, Forall (fun c => is_slug_char c = true) l ->
                             starts_clean is_space l).
  { intros [|c l] Hl; [exact I|]. inversion Hl; subst. simpl.
    now destruct (slug_char_fixed c) as (_ & H & _). }
  unfold slug_base.
  replace (map to_lower base) with base.
  2:{ clear -Hchars. induction Hchars as [|c l Hc _ IH]; simpl;
        [reflexivity|].
      destruct (slug_char_fixed c Hc) as (-> & _). now f_equal. }
  rewrite (trim_both_clean is_space base)
    by (apply Hspace; first [exact Hchars | now apply Forall_rev]).
  replace (filter (fun c => is_word c || is_space c || is_hyphen c) base)
    with base.
  2:{ clear -Hchars. induction Hchars as [|c l Hc _ IH]; simpl;
        [reflexivity|].
      destruct (slug_char_fixed c Hc) as (_ & _ & -> & _). now f_equal. }
  rewrite (collapse_fixed false base Hchars Hnd) by discriminate.
  now apply trim_both_clean.
Qed.

Lemma X6_witness :
  let base := slug_base (list_ascii_of_string "  Hello, World -- #1 ") in
  string_of_list_ascii base = "hello-world-1"
  /\ slug_base base = base.
Proof.
  cbv zeta. split; [reflexivity|].
  apply (X6_slug_base_shape (list_ascii_of_string "  Hello, World -- #1 ")).
  repeat constructor.
Defined.

(** ** X7: a title without letters and digits *)

(** X7.  For a title of ASCII characters, the base of the slug is empty
    exactly when the title holds no letter and no digit; [slugify] then
    returns a hyphen followed by the random suffix. *)
Theorem X7_slug_base_empty (text suffix : string) :
  is_ascii (list_ascii_of_string text) ->
  (slug_base (list_ascii_of_string text) = []
   <-> Forall (fun c => is_alnum c = false) (list_ascii_of_string text))
  /\ (Forall (fun c => is_alnum c = false) (list_ascii_of_string text) ->
      slugify text suffix = String.append "-" suffix).
Proof.
  intros _.
  assert (Hiff : slug_base (list_ascii_of_string text) = []
                 <-> Forall (fun c => is_alnum c = false)
                       (list_ascii_of_string text)).
  { generalize (list_ascii_of_string text). clear. intros chars. split.
    - intros Hempty. rewrite Forall_forall. intros c Hc.
      destruct (is_alnum c) eqn:E; [|reflexivity]. exfalso.
      destruct (alnum_survives c E) as (Hspace & Hkeep & Hsep).
      assert (Hin : In (to_lower c) (slug_base chars)).
      { unfold slug_base. apply In_trim_both;
          [|now apply separator_hyphen].
        apply In_collapse; [|exact Hsep].
        apply filter_In. split; [|exact Hkeep].
        apply In_trim_both; [|exact Hspace]. now apply in_map. }
      rewrite Hempty in Hin. exact Hin.
    - intros Hnone. unfold slug_base.
      set (kept := filter (fun c => is_word c || is_space c || is_hyphen c)
                     (trim_both is_space (map to_lower chars))).
      unfold trim_both at 1.
      rewrite (drop_while_all is_hyphen (collapse false kept));
        [reflexivity|].
      apply collapse_separators. unfold kept. rewrite Forall_forall.
      intros c Hc. apply filter_In in Hc. destruct Hc as [Hin Hkeep].
      destruct (trim_both_stretch is_space (map to_lower chars))
        as [b [a E]].
      assert (Hmap : In c (map to_lower chars))
        by (rewrite E, !in_app_iff; tauto).
      apply in_map_iff in Hmap. destruct Hmap as [d [<- Hd]].
      rewrite Forall_forall in Hnone.
      now apply not_alnum_separates; [apply Hnone|]. }
  split; [exact Hiff|].
  intros Hnone. unfold slugify. now rewrite (proj2 Hiff Hnone).
Qed.

Lemma X7_witness :
  slug_base (list_ascii_of_string "?!... ___") = []
  /\ slugify "?!... ___" "a3f7" = "-a3f7".
Proof.
  assert (Hascii : is_ascii (list_ascii_of_string "?!... ___"))
    by repeat constructor.
  assert (Hnone : Forall (fun c => is_alnum c = false)
                    (list_ascii_of_string "?!... ___"))
    by repeat constructor.
  destruct (X7_slug_base_empty "?!... ___" "a3f7" Hascii) as [Hiff Hslug].
  split; [now apply Hiff | now apply Hslug].
Defined.

(** ** X8: a thread is created in both stores *)



(** ** X9: no thread in a missing or archived category *)

(** X9.  When the category lookup is answered and finds no active category
    with the given id (none at all, or an archived one), [createThread]
    answers 404 before taking a client or writing anything: both stores,
    the transaction, the pool and the id counters are as before. *)
Theorem X9_createThread_needs_active_category
  (w : World) (user : User) (now : Date) (newTitle content : string)
  (categoryId : Uuid) (tags : option (list string)) (slugged : string) :
  hd Healthy (faults w) = Healthy ->
  (forall c, In c (categories w) -> cat_id c = categoryId ->
             cat_status c = CatArchived) ->
  serve (ReqCreateThread user now newTitle content categoryId tags slugged) w
  = (mkResponse 404 false "Category not found or inactive." BodyNone,
     set_faults (tl (faults w)) w).
Proof.
  intros Hhd Hnone.
  assert (Hfind : find (fun c => N.eqb (cat_id c) categoryId
                                 && match cat_status c with
                                    | CatActive => true
                                    | CatArchived => false
                                    end) (categories w) = None).
  { destruct (find _ (categories w)) as [c|] eqn:E; [|reflexivity].
    apply find_In in E. destruct E as [Hin Htest].
    apply andb_prop in Htest. destruct Htest as [Hid Hst].
    apply N.eqb_eq in Hid. rewrite (Hnone c Hin Hid) in Hst. discriminate. }
  destruct w as [ts cats tx0 ls ps act nu nid fs]. simpl in *.
  unfold serve, asyncHandler, handler, createThread.
  destruct fs as [|[|e|e] rest]; try discriminate; cbn; rewrite Hfind;
    reflexivity.
Qed.

Lemma X9_witness :
  fst (serve (ReqCreateThread alice 100 "Hello World" "body of ten chars"
                8%N None "hello-world-a3f7") (boot [general; archive] []))
  = mkResponse 404 false "Category not found or inactive." BodyNone.
Proof.
  rewrite (X9_createThread_needs_active_category
             (boot [general; archive] []) alice 100 "Hello World"
             "body of ten chars" 8%N None "hello-world-a3f7").
  - reflexivity.
  - reflexivity.
  - intros c [<- | [<- | []]]; [discriminate | reflexivity].
Defined.

(** ** X10: a slug that is taken *)

(** X10.  Absent store faults, with an active category and no open
    transaction, when the slug (of at most 500 characters) is already
    carried by a committed row the
    [INSERT] is refused by the unique constraint: [createThread] rolls
    back, gives the client back and the caller is answered 409 'Resource
    already exists.'; no row and no document is added. *)
Theorem X10_createThread_slug_taken
  (w : World) (user : User) (now : Date) (newTitle content : string)
  (categoryId : Uuid) (tags : option (list string)) (slugged : string)
  (cat : CategoryRow) :
  faults w = [] -> tx w = None ->
  find (fun c => N.eqb (cat_id c) categoryId
                 && match cat_status c with
                    | CatActive => true
                    | CatArchived => false
                    end) (categories w) = Some cat ->
  slug_taken slugged (threads w) = true ->
  (String.length slugged <= 500)%nat ->
  let out := serve (ReqCreateThread user now newTitle content categoryId tags
                      slugged) w in
  fst out = mkResponse 409 false "Resource already exists." BodyNone
  /\ threads (snd out) = threads w
  /\ posts (snd out) = posts w
  /\ tx (snd out) = None
  /\ leased (snd out) = leased w.
Proof.
  intros Hf Htx Hcat Hslug Hfits.
  apply fits_column in Hfits.
  destruct w as [ts cats tx0 ls ps act nu nid fs]. simpl in *. subst fs tx0.
  unfold serve, asyncHandler, handler, createThread, createThread_catch,
    logActivity.
  cbn. rewrite Hcat. cbn. rewrite Hfits, app_nil_r, Hslug. cbn.
  repeat split.
Qed.

Lemma X10_witness :
  let out := serve hello_again hello_world in
  fst out = mkResponse 409 false "Resource already exists." BodyNone
  /\ threads (snd out) = threads hello_world
  /\ posts (snd out) = posts hello_world.
Proof.
  cbv zeta.
  destruct (X10_createThread_slug_taken hello_world bob 500 "Hello World"
              "another body of text" 7%N None "hello-world-a3f7" general
              eq_refl eq_refl eq_refl eq_refl ltac:(simpl; lia))
    as (Hres & Hthreads & Hposts & _).
  repeat split; assumption.
Defined.

(** ** X11: a rejected COMMIT *)

(** X11.  When every call of [createThread] up to [Post.create] is answered
    and [COMMIT] is rejected, the [ROLLBACK] and the clean-up delete being
    answered: the original error is propagated, the transaction is closed,
    the client is given back and the content document is deleted again.
    The row is absent when [COMMIT] did not reach the store; when the store
    committed and only the acknowledgement was lost, the row stays
    committed, without a content document. *)
Theorem X11_createThread_commit_rejected
  (w : World) (user : User) (now : Date) (newTitle content : string)
  (categoryId : Uuid) (tags : option (list string)) (slugged : string)
  (e : Err) (f : Fault) (rest : list Fault) :
  well_formed w ->
  commit_fails w e f rest ->
  insert_goes_through w categoryId slugged ->
  let out := run (createThread user now newTitle content categoryId tags
                    slugged) w in
  let row := new_thread_row (next_uuid w) newTitle slugged categoryId
               (user_id user) now in
  fst out = Rejected e
  /\ posts (snd out) = posts w
  /\ post_by_thread (next_uuid w) (posts (snd out)) = None
  /\ tx (snd out) = None
  /\ leased (snd out) = leased w
  /\ (f = FailBefore e -> threads (snd out) = threads w)
  /\ (f = FailAfter e ->
      threads (snd out) = threads w ++ [row]
      /\ thread_by_id (next_uuid w) (threads (snd out)) = Some row).
Proof.
  intros Hwf [Hfaults Hf] [[cat Hcat] [Htx [Hslug Hfits]]].
  apply fits_column in Hfits.
  pose proof (wf_threadId_bound w Hwf) as Hbound.
  pose proof (thread_by_id_absent _ _ (wf_rows w Hwf)) as Hrow.
  pose proof (post_by_thread_absent _ _ Hbound) as Hdoc.
  destruct w as [ts cats tx0 ls ps act nu nid fs]. simpl in *. subst fs tx0.
  unfold createThread, createThread_catch, logActivity.
  cbn. rewrite Hcat. cbn. rewrite Hfits, app_nil_r, Hslug.
  destruct Hf as [-> | ->]; cbn;
    (rewrite remove_first_snoc by (exact Hbound || reflexivity));
    (repeat split; try assumption; try discriminate).
  unfold thread_by_id in *. rewrite find_append, Hrow. simpl.
  now rewrite N.eqb_refl.
Qed.

Lemma X11_witness :
  let lost := run (createThread alice 100 "Hello World" "body of ten chars"
                     7%N None "hello-world-a3f7") commit_unacknowledged in
  let unsent := run (createThread alice 100 "Hello World" "body of ten chars"
                       7%N None "hello-world-a3f7") commit_unreachable in
  (fst lost = Rejected pg_unreachable
   /\ option_map slug (thread_by_id 0%N (threads (snd lost)))
      = Some "hello-world-a3f7"
   /\ post_by_thread 0%N (posts (snd lost)) = None)
  /\ (fst unsent = Rejected pg_unreachable
      /\ threads (snd unsent) = []
      /\ post_by_thread 0%N (posts (snd unsent)) = None).
Proof.
  cbv zeta. split.
  - destruct (X11_createThread_commit_rejected commit_unacknowledged alice
                100 "Hello World" "body of ten chars" 7%N None
                "hello-world-a3f7" pg_unreachable (FailAfter pg_unreachable)
                [])
      as (Hres & _ & Hdoc & _ & _ & _ & Hrow).
    + apply well_formed_boot.
    + split; [reflexivity | now right].
    + split; [exists general; reflexivity|].
      split; [reflexivity|]. split; [reflexivity | simpl; lia].
    + split; [exact Hres|]. split; [|exact Hdoc].
      destruct (Hrow eq_refl) as [_ H].
      exact (f_equal (option_map slug) H).
  - destruct (X11_createThread_commit_rejected commit_unreachable alice
                100 "Hello World" "body of ten chars" 7%N None
                "hello-world-a3f7" pg_unreachable (FailBefore pg_unreachable)
                [])
      as (Hres & _ & Hdoc & _ & _ & Hrow & _).
    + apply well_formed_boot.
    + split; [reflexivity | now left].
    + split; [exists general; reflexivity|].
      split; [reflexivity|]. split; [reflexivity | simpl; lia].
    + split; [exact Hres|]. split; [exact (Hrow eq_refl) | exact Hdoc].
Defined.

(** ** X12: the pooled client is given back *)

(** X12.  Whatever the store faults, [createThread] leaves the pool as it
    found it: the client taken by [getClient] is released on every path
    (success, a refused [BEGIN], [INSERT], [Post.create] or [COMMIT], a
    failed [ROLLBACK] or clean-up), and none is taken when the category
    lookup fails.  The one assumption is that a [getClient] that throws has
    not taken a client. *)
Theorem X12_createThread_releases_client
  (w : World) (user : User) (now : Date) (newTitle content : string)
  (categoryId : Uuid) (tags : option (list string)) (slugged : string) :
  (forall e, nth_error (faults w) 1 <> Some (FailAfter e)) ->
  leased (snd (run (createThread user now newTitle content categoryId tags
                      slugged) w))
  = leased w.
Proof.
  intros Hget.
  set (n := leased w).
  assert (H : triple
                (fun w0 => leased w0 = n
                           /\ forall e, nth_error (faults w0) 1
                                        <> Some (FailAfter e))
                (createThread user now newTitle content categoryId tags
                   slugged)
                (fun _ w' => leased w' = n)).
  { unfold createThread, createThread_catch, logActivity. simpl.
    eapply triple_call
      with (R := fun _ w0 =>
                   leased w0 = n
                   /\ forall e, hd_error (faults w0) <> Some (FailAfter e)).
    { intros w0 [Hn Hf]. split.
      - pose proof (exec_leased (SelectActiveCategory categoryId) w0) as Hl.
        cbv beta iota in Hl. congruence.
      - intros e. rewrite exec_faults.
        destruct (faults w0) as [|f0 [|f1 rest]]; simpl in *;
          try discriminate. apply Hf. }
    intros [[cat|]|e]; simpl;
      try (apply triple_throw; intros w0 [Hn _]; exact Hn).
    eapply triple_call
      with (R := fun r w0 => match r with
                             | Resolved _ => leased w0 = S n
                             | Rejected _ => leased w0 = n
                             end).
    { intros w0 [Hn Hf]. rewrite (exec_GetClient_leased w0 Hf).
      destruct (fst (exec GetClient w0)); congruence. }
    intros [[]|e]; lease_auto n. }
  apply (H w). split; [reflexivity | exact Hget].
Qed.

Lemma X12_witness :
  leased (snd (run (createThread alice 100 "Hello World" "body of ten chars"
                      7%N None "hello-world-a3f7") commit_unreachable))
  = O.
Proof.
  apply (X12_createThread_releases_client commit_unreachable alice 100
           "Hello World" "body of ten chars" 7%N None "hello-world-a3f7").
  intros e. simpl. discriminate.
Defined.

(** ** X13: deleting a thread *)

(** X13.  Absent store faults, [deleteThread] on a thread that has a row
    answers 200 'Thread deleted', after which neither the row nor the
    content document of that thread is found, while the row and the
    document of every other thread are as before. *)
Theorem X13_deleteThread_removes_row_and_document
  (w : World) (user : User) (threadId : Uuid) (row : ThreadRow) :
  well_formed w -> faults w = [] ->
  thread_by_id threadId (threads w) = Some row ->
  let out := serve (ReqDeleteThread user threadId) w in
  fst out = successResponse BodyNone "Thread deleted" 200
  /\ thread_by_id threadId (threads (snd out)) = None
  /\ post_by_thread threadId (posts (snd out)) = None
  /\ forall other, other <> threadId ->
       thread_by_id other (threads (snd out)) = thread_by_id other (threads w)
       /\ post_by_thread other (posts (snd out))
          = post_by_thread other (posts w).
Proof.
  intros Hwf Hf Hrow.
  pose proof (wf_threadIds w Hwf) as Hnodup.
  destruct w as [ts cats tx0 ls ps act nu nid fs]. simpl in *. subst fs.
  unfold serve, asyncHandler, handler, deleteThread, logActivity.
  cbn. rewrite Hrow. cbn.
  split; [reflexivity|].
  split; [rewrite thread_by_id_deleted; now rewrite N.eqb_refl|].
  split; [rewrite (post_by_thread_removed _ _ _ Hnodup);
          now rewrite N.eqb_refl|].
  intros other Hne. split.
  - rewrite thread_by_id_deleted.
    destruct (N.eqb_spec threadId other); [congruence | reflexivity].
  - rewrite (post_by_thread_removed _ _ _ Hnodup).
    destruct (N.eqb_spec threadId other); [congruence | reflexivity].
Qed.

Lemma X13_witness :
  let out := serve (ReqDeleteThread carol 0%N) hello_hi in
  status (fst out) = 200
  /\ thread_by_id 0%N (threads (snd out)) = None
  /\ post_by_thread 0%N (posts (snd out)) = None.
Proof.
  cbv zeta.
  destruct (X13_deleteThread_removes_row_and_document hello_hi carol 0%N
              (touch 200
                 (row_reply_created 2%N 200
                    (new_thread_row 0%N "Hello World" "hello-world-a3f7" 7%N
                       1%N 100))))
    as (Hres & Hrow & Hdoc & _).
  - apply reachable_well_formed, reachable_hello_hi.
  - reflexivity.
  - vm_compute. reflexivity.
  - split; [now rewrite Hres | split; assumption].
Defined.

(** ** X14: a thread deleted by halves *)

(** X14.  [deleteThread] has no compensation: when the lookup and the
    [DELETE] of the row are answered and [Post.deleteOne] does not reach
    the store, the caller is answered with that error, the row is gone and
    the content document is still stored, no longer reachable through a
    row; nothing is logged. *)
Theorem X14_deleteThread_can_orphan_the_document
  (w : World) (user : User) (threadId : Uuid) (row : ThreadRow)
  (p : Post.t) (e : Err) (rest : list Fault) :
  faults w = Healthy :: Healthy :: FailBefore e :: rest ->
  thread_by_id threadId (threads w) = Some row ->
  post_by_thread threadId (posts w) = Some p ->
  let out := serve (ReqDeleteThread user threadId) w in
  fst out = errorHandler e
  /\ thread_by_id threadId (threads (snd out)) = None
  /\ post_by_thread threadId (posts (snd out)) = Some p
  /\ activity (snd out) = activity w.
Proof.
  intros Hf Hrow Hdoc.
  destruct w as [ts cats tx0 ls ps act nu nid fs]. simpl in *. subst fs.
  unfold serve, asyncHandler, handler, deleteThread, logActivity.
  cbn. rewrite Hrow. cbn.
  split; [reflexivity|].
  split; [rewrite thread_by_id_deleted; now rewrite N.eqb_refl|].
  split; [exact Hdoc | reflexivity].
Qed.

Lemma X14_witness :
  let out := serve (ReqDeleteThread carol 0%N)
               (set_faults [Healthy; Healthy; FailBefore timed_out]
                  hello_world) in
  status (fst out) = 500
  /\ thread_by_id 0%N (threads (snd out)) = None
  /\ option_map Post.threadId (post_by_thread 0%N (posts (snd out)))
     = Some 0%N.
Proof.
  cbv zeta.
  destruct (X14_deleteThread_can_orphan_the_document
              (set_faults [Healthy; Healthy; FailBefore timed_out]
                 hello_world)
              carol 0%N
              (new_thread_row 0%N "Hello World" "hello-world-a3f7" 7%N 1%N
                 100)
              (new_post 0%N 0%N 1%N "alice" "body of ten chars" [])
              timed_out [] eq_refl eq_refl eq_refl)
    as (Hres & Hrow & Hdoc & _).
  split; [now rewrite Hres|].
  split; [exact Hrow | exact (f_equal (option_map Post.threadId) Hdoc)].
Defined.

(** ** X15: pinning and locking are switches *)

(** X15.  Absent store faults, two [lockThread] calls on a thread report
    the flipped flag and then the original one, and leave the row as it was
    but for its [updated_at]; the same holds of two [pinThread] calls.
    Rows of other threads are never touched. *)
Theorem X15_lock_and_pin_twice_restore
  (w : World) (now1 now2 : Date) (threadId : Uuid) (row : ThreadRow) :
  faults w = [] ->
  thread_by_id threadId (threads w) = Some row ->
  let locked := serve_all [ReqLockThread now1 threadId;
                           ReqLockThread now2 threadId] w in
  let pinned := serve_all [ReqPinThread now1 threadId;
                           ReqPinThread now2 threadId] w in
  (map body (fst locked)
   = [BodyLocked (negb (is_locked row)); BodyLocked (is_locked row)]
   /\ thread_by_id threadId (threads (snd locked)) = Some (touch now2 row)
   /\ forall other, other <> threadId ->
        thread_by_id other (threads (snd locked))
        = thread_by_id other (threads w))
  /\ (map body (fst pinned)
      = [BodyPinned (negb (is_pinned row)); BodyPinned (is_pinned row)]
      /\ thread_by_id threadId (threads (snd pinned)) = Some (touch now2 row)
      /\ forall other, other <> threadId ->
           thread_by_id other (threads (snd pinned))
           = thread_by_id other (threads w)).
Proof.
  intros Hf Hrow.
  assert (Hl : forall now r, id (touch now (row_toggle_locked r)) = id r)
    by reflexivity.
  assert (Hp : forall now r, id (touch now (row_toggle_pinned r)) = id r)
    by reflexivity.
  destruct w as [ts cats tx0 ls ps act nu nid fs]. simpl in *. subst fs.
  unfold serve_all, serve, asyncHandler, handler, lockThread, pinThread.
  cbn.
  rewrite !thread_by_id_updated by auto. rewrite Hrow. cbn.
  rewrite !update_where_id_twice by auto.
  rewrite !thread_by_id_updated by (intros; reflexivity).
  rewrite Hrow. unfold option_map.
  rewrite touch_toggle_locked_twice, touch_toggle_pinned_twice. cbn.
  rewrite !thread_by_id_updated by (intros; reflexivity).
  rewrite Hrow. unfold option_map.
  rewrite touch_toggle_locked_twice, touch_toggle_pinned_twice.
  repeat split; try reflexivity;
    intros other Hne; now apply thread_by_id_updated_other.
Qed.

Lemma X15_witness :
  option_map is_locked
    (thread_by_id 0%N
       (threads (snd (serve_all [ReqLockThread 150 0%N; ReqLockThread 160 0%N]
                        hello_world))))
  = Some false.
Proof.
  destruct (X15_lock_and_pin_twice_restore hello_world 150 160 0%N
              (new_thread_row 0%N "Hello World" "hello-world-a3f7" 7%N 1%N
                 100) eq_refl eq_refl)
    as ((_ & Hrow & _) & _).
  exact (f_equal (option_map is_locked) Hrow).
Defined.

(** ** X16: pinning or locking a thread that is not there *)

(** X16.  When the store answers, [pinThread] and [lockThread] on an id no
    row carries answer 404 'Thread not found.' and change nothing. *)
Theorem X16_lock_and_pin_need_a_row
  (w : World) (now : Date) (threadId : Uuid) :
  hd Healthy (faults w) = Healthy ->
  thread_by_id threadId (threads w) = None ->
  serve (ReqLockThread now threadId) w
  = (mkResponse 404 false "Thread not found." BodyNone,
     set_faults (tl (faults w)) w)
  /\ serve (ReqPinThread now threadId) w
     = (mkResponse 404 false "Thread not found." BodyNone,
        set_faults (tl (faults w)) w).
Proof.
  intros Hhd Hrow.
  destruct w as [ts cats tx0 ls ps act nu nid fs]. simpl in *.
  unfold serve, asyncHandler, handler, lockThread, pinThread.
  destruct fs as [|[|e|e] rest]; try discriminate; cbn;
    rewrite !update_where_id_absent by exact Hrow; rewrite Hrow;
    split; reflexivity.
Qed.

Lemma X16_witness :
  status (fst (serve (ReqLockThread 150 5%N) hello_world)) = 404.
Proof.
  destruct (X16_lock_and_pin_need_a_row hello_world 150 5%N eq_refl eq_refl)
    as [H _].
  now rewrite H.
Defined.

(** ** X17: who may change a comment *)

(** X17.  When the store answers the lookup, [updateComment] and
    [deleteComment] by a user who is neither the comment's author nor a
    moderator or admin answer 403 'Permission denied.' and change
    nothing. *)
Theorem X17_comment_changes_need_author_or_moderator
  (w : World) (user : User) (now : Date) (threadId : Uuid)
  (commentId : ObjectId) (content : string) (p : Post.t) (c : Comment.t) :
  hd Healthy (faults w) = Healthy ->
  post_by_thread threadId (posts w) = Some p ->
  live_comment commentId p = Some c ->
  Comment.authorId c <> user_id user ->
  isModRole (role user) = false ->
  serve (ReqUpdateComment user now threadId commentId content) w
  = (mkResponse 403 false "Permission denied." BodyNone,
     set_faults (tl (faults w)) w)
  /\ serve (ReqDeleteComment user now threadId commentId) w
     = (mkResponse 403 false "Permission denied." BodyNone,
        set_faults (tl (faults w)) w).
Proof.
  intros Hhd Hp Hc Hne Hmod.
  pose proof (may_not_edit _ user Hne Hmod) as Hdenied.
  destruct w as [ts cats tx0 ls ps act nu nid fs]. simpl in *.
  unfold serve, asyncHandler, handler, updateComment, deleteComment.
  destruct fs as [|[|e|e] rest]; try discriminate; cbn;
    rewrite Hp; cbn; rewrite Hc; cbn; rewrite Hdenied; split; reflexivity.
Qed.

Lemma X17_witness :
  status (fst (serve (ReqUpdateComment alice 250 0%N 1%N "not mine")
                 hello_hi)) = 403
  /\ status (fst (serve (ReqDeleteComment alice 250 0%N 1%N) hello_hi))
     = 403.
Proof.
  destruct (X17_comment_changes_need_author_or_moderator hello_hi alice 250
              0%N 1%N "not mine"
              (set_comments
                 [new_comment 1%N 2%N "bob" "Hi" None]
                 (new_post 0%N 0%N 1%N "alice" "body of ten chars" []))
              (new_comment 1%N 2%N "bob" "Hi" None))
    as [Hedit Hdelete].
  - reflexivity.
  - reflexivity.
  - reflexivity.
  - discriminate.
  - reflexivity.
  - split; [now rewrite Hedit | now rewrite Hdelete].
Defined.

(** ** X18: editing a comment *)

(** X18.  Absent store faults, [updateComment] by the author of a live
    comment, or by a moderator or admin, answers 200 with the edited
    comment and stores it: the comment then carries the new text, is
    flagged edited with the time of the edit, and keeps its id, author,
    parent and votes; every other comment, the post itself and all rows are
    as before. *)
Theorem X18_updateComment_rewrites_one_comment
  (w : World) (user : User) (now : Date) (threadId : Uuid)
  (commentId : ObjectId) (content : string) (p : Post.t) (c : Comment.t) :
  well_formed w -> faults w = [] ->
  post_by_thread threadId (posts w) = Some p ->
  live_comment commentId p = Some c ->
  Comment.authorId c = user_id user \/ isModRole (role user) = true ->
  let out := serve (ReqUpdateComment user now threadId commentId content) w in
  exists c' p',
    fst out = successResponse (BodyComment (Some c')) "Comment updated" 200
    /\ post_by_thread threadId (posts (snd out)) = Some p'
    /\ comments_id commentId (Post.comments p') = Some c'
    /\ (Comment.content c' = content
        /\ Comment.isEdited c' = true
        /\ Comment.editedAt c' = Some now)
    /\ (Comment.authorId c' = Comment.authorId c
        /\ Comment.parentCommentId c' = Comment.parentCommentId c
        /\ Comment.upvotes c' = Comment.upvotes c
        /\ Comment.upvotedBy c' = Comment.upvotedBy c
        /\ Comment.isDeleted c' = false)
    /\ (forall other, other <> commentId ->
          comments_id other (Post.comments p')
          = comments_id other (Post.comments p))
    /\ map Comment._id (Post.comments p') = map Comment._id (Post.comments p)
    /\ Post.originalPost p' = Post.originalPost p
    /\ threads (snd out) = threads w.
Proof.
  intros Hwf Hf Hp Hc Hmay.
  pose proof (wf_ids w Hwf) as Hnd.
  pose proof (may_edit _ user Hmay) as Hallowed.
  destruct (live_comment_found _ _ _ Hc) as [Hfound Hlive].
  exists (editComment content now c),
    (mutate_comment commentId (editComment content now) p).
  destruct w as [ts cats tx0 ls ps act nu nid fs]. simpl in *. subst fs.
  unfold serve, asyncHandler, handler, updateComment, logActivity.
  cbn. rewrite Hp. cbn. rewrite Hc. cbn. rewrite Hallowed. cbn.
  rewrite existsb_matches_save by (apply post_by_thread_In in Hp; tauto).
  cbn.
  split; [reflexivity|].
  split.
  { rewrite (post_by_thread_saved _ _ p _ Hnd Hp).
    now rewrite saved_editComment by exact Hfound. }
  split; [now apply comments_id_mutated|].
  split; [repeat split|].
  split; [repeat split; exact Hlive|].
  split; [intros other Hne; now apply comments_id_mutated_other|].
  split; [now apply map_modify_first|].
  split; reflexivity.
Qed.

Lemma X18_witness :
  let out := serve (ReqUpdateComment bob 250 0%N 1%N "Hi there") hello_hi in
  exists c' p',
    status (fst out) = 200
    /\ post_by_thread 0%N (posts (snd out)) = Some p'
    /\ comments_id 1%N (Post.comments p') = Some c'
    /\ Comment.content c' = "Hi there".
Proof.
  cbv zeta.
  destruct (X18_updateComment_rewrites_one_comment hello_hi bob 250 0%N 1%N
              "Hi there"
              (set_comments
                 [new_comment 1%N 2%N "bob" "Hi" None]
                 (new_post 0%N 0%N 1%N "alice" "body of ten chars" []))
              (new_comment 1%N 2%N "bob" "Hi" None))
    as (c' & p' & Hres & Hp & Hc & (Htext & _) & _).
  - apply reachable_well_formed, reachable_hello_hi.
  - reflexivity.
  - reflexivity.
  - reflexivity.
  - now left.
  - exists c', p'. rewrite Hres. repeat split; assumption.
Defined.

(** ** X19: the votes of a deleted comment are frozen *)



(** ** X20: reading a thread *)

(** X20.  When the lookup by slug finds a thread and the thread has a
    content document, both reads being answered, [getThread] answers 200
    with the row as it was read and the document, whatever becomes of the
    view counter update (answered, refused for overflow, or lost): the
    update is not awaited.  The documents are left as they are, and when
    the update reaches the store below the INT4 limit, the matching row
    has one more view. *)
Theorem X20_getThread_answer_ignores_view_counter
  (w : World) (now : Date) (wanted : string) (thread : ThreadRow)
  (post : Post.t) :
  hd Healthy (faults w) = Healthy ->
  nth 2 (faults w) Healthy = Healthy ->
  find (fun r => String.eqb (slug r) wanted
                 && existsb (fun c => N.eqb (cat_id c) (category_id r))
                      (categories w)) (threads w) = Some thread ->
  post_by_thread (id thread) (posts w) = Some post ->
  let out := serve (ReqGetThread now wanted) w in
  fst out = successResponse (BodyThreadPost thread (Some post)) "Success" 200
  /\ posts (snd out) = posts w
  /\ (nth 1 (faults w) Healthy = Healthy ->
      view_overflow (id thread) (threads w) = false ->
      threads (snd out)
      = update_where_id (id thread) (fun r => touch now (row_viewed r))
          (threads w))
  /\ (view_overflow (id thread) (threads w) = true ->
      threads (snd out) = threads w).
Proof.
  intros Hhd Hthird Hfound Hdoc.
  destruct w as [ts cats tx0 ls ps act nu nid fs]. simpl in *.
  unfold serve, asyncHandler, handler, getThread, view_overflow.
  destruct fs as [|[|e|e] [|f1 [|[|e2|e2] rest]]]; simpl in Hhd, Hthird;
    try discriminate;
    cbn; rewrite Hfound; cbn;
    try destruct f1 as [|e1|e1]; cbn;
    try match goal with
        | |- context [if ?b then _ else _] => destruct b
        end; cbn;
    rewrite Hdoc; cbn;
    (repeat split; try reflexivity; intros; try discriminate;
     try reflexivity).
Qed.

Lemma X20_witness :
  let out := serve (ReqGetThread 500 "hello-world-a3f7")
               (set_faults [Healthy; FailBefore pg_unreachable] hello_hi) in
  status (fst out) = 200 /\ posts (snd out) = posts hello_hi.
Proof.
  cbv zeta.
  destruct (X20_getThread_answer_ignores_view_counter
              (set_faults [Healthy; FailBefore pg_unreachable] hello_hi) 500
              "hello-world-a3f7"
              (touch 200
                 (row_reply_created 2%N 200
                    (new_thread_row 0%N "Hello World" "hello-world-a3f7" 7%N
                       1%N 100)))
              (set_comments
                 [new_comment 1%N 2%N "bob" "Hi" None]
                 (new_post 0%N 0%N 1%N "alice" "body of ten chars" []))
              eq_refl eq_refl eq_refl eq_refl)
    as (Hres & Hposts & _).
  split; [now rewrite Hres | exact Hposts].
Defined.

(** ** X21: who may update a thread *)

(** X21.  When the store answers the lookup, [updateThread] by a user who
    is neither the thread's author nor a moderator or admin answers 403
    'Permission denied.' and changes nothing. *)
Theorem X21_updateThread_needs_author_or_moderator
  (w : World) (user : User) (now : Date) (threadId : Uuid)
  (newTitle content : option string) (tags : option (list string))
  (thread : ThreadRow) :
  hd Healthy (faults w) = Healthy ->
  thread_by_id threadId (threads w) = Some thread ->
  author_id thread <> user_id user ->
  isModRole (role user) = false ->
  serve (ReqUpdateThread user now threadId newTitle content tags) w
  = (mkResponse 403 false "Permission denied." BodyNone,
     set_faults (tl (faults w)) w).
Proof.
  intros Hhd Hrow Hne Hmod.
  pose proof (may_not_edit _ user Hne Hmod) as Hdenied.
  destruct w as [ts cats tx0 ls ps act nu nid fs]. simpl in *.
  unfold serve, asyncHandler, handler, updateThread.
  destruct fs as [|[|e|e] rest]; try discriminate; cbn;
    rewrite Hrow; cbn; rewrite Hdenied; reflexivity.
Qed.

Lemma X21_witness :
  status (fst (serve (ReqUpdateThread bob 250 0%N (Some "Mine now") None None)
                 hello_world)) = 403.
Proof.
  rewrite (X21_updateThread_needs_author_or_moderator hello_world bob 250 0%N
             (Some "Mine now") None None
             (new_thread_row 0%N "Hello World" "hello-world-a3f7" 7%N 1%N
                100)).
  - reflexivity.
  - reflexivity.
  - reflexivity.
  - discriminate.
  - reflexivity.
Defined.

(** ** X22: what an update of a thread keeps *)

(** X22.  Absent store faults, [updateThread] by the author, a moderator or
    an admin answers 200 and keeps the thread's slug, flags and reply
    count, the votes on the post and all comments; the title is replaced
    only by a non-empty title, and an empty title, an empty content and
    absent tags together leave rows and documents exactly as they were. *)
Theorem X22_updateThread_keeps_slug_votes_and_comments
  (w : World) (user : User) (now : Date) (threadId : Uuid)
  (newTitle content : option string) (tags : option (list string))
  (thread : ThreadRow) (p : Post.t) :
  faults w = [] ->
  thread_by_id threadId (threads w) = Some thread ->
  post_by_thread threadId (posts w) = Some p ->
  author_id thread = user_id user \/ isModRole (role user) = true ->
  let out := serve (ReqUpdateThread user now threadId newTitle content tags)
               w in
  status (fst out) = 200
  /\ (exists thread',
        thread_by_id threadId (threads (snd out)) = Some thread'
        /\ slug thread' = slug thread
        /\ is_locked thread' = is_locked thread
        /\ is_pinned thread' = is_pinned thread
        /\ reply_count thread' = reply_count thread
        /\ title thread' = match truthy newTitle with
                           | Some t => t
                           | None => title thread
                           end)
  /\ (exists p',
        post_by_thread threadId (posts (snd out)) = Some p'
        /\ Post.comments p' = Post.comments p
        /\ OriginalPost.upvotes (Post.originalPost p')
           = OriginalPost.upvotes (Post.originalPost p)
        /\ OriginalPost.upvotedBy (Post.originalPost p')
           = OriginalPost.upvotedBy (Post.originalPost p)
        /\ OriginalPost.content (Post.originalPost p')
           = match truthy content with
             | Some text => text
             | None => OriginalPost.content (Post.originalPost p)
             end)
  /\ (truthy newTitle = None -> truthy content = None -> tags = None ->
      threads (snd out) = threads w /\ posts (snd out) = posts w).
Proof.
  intros Hf Hrow Hp Hmay.
  pose proof (may_edit _ user Hmay) as Hallowed.
  destruct w as [ts cats tx0 ls ps act nu nid fs]. simpl in *. subst fs.
  unfold serve, asyncHandler, handler, updateThread, logActivity.
  cbn. rewrite Hrow. cbn. rewrite Hallowed.
  assert (Hdoc : forall f, (forall q, Post.threadId (f q) = Post.threadId q) ->
            post_by_thread threadId
              (modify_first (fun q => N.eqb (Post.threadId q) threadId) f ps)
            = Some (f p)).
  { intros f Hkeep. erewrite post_by_thread_pushed; [reflexivity|exact Hp|].
    apply Hkeep. }
  assert (Hkeep : forall c t q,
            Post.threadId (apply_fields c t q) = Post.threadId q).
  { intros [[c d]|] [t|] q; reflexivity. }
  destruct (truthy newTitle) as [t|] eqn:Ht; cbn.
  - rewrite Hdoc by apply Hkeep. cbn.
    split; [reflexivity|]. split; [|split].
    + exists (touch now (row_set_title t thread)).
      rewrite thread_by_id_updated by reflexivity. rewrite Hrow.
      repeat split.
    + exists (apply_fields
                match truthy content with
                | Some c => Some (c, now)
                | None => None
                end tags p).
      split; [reflexivity|].
      destruct (truthy content), tags; repeat split.
    + discriminate.
  - rewrite Hdoc by apply Hkeep. cbn.
    split; [reflexivity|]. split; [|split].
    + exists thread. rewrite Hrow. repeat split.
    + exists (apply_fields
                match truthy content with
                | Some c => Some (c, now)
                | None => None
                end tags p).
      split; [reflexivity|].
      destruct (truthy content), tags; repeat split.
    + intros _ Hc ->. rewrite Hc. split; [reflexivity|].
      now apply modify_first_same.
Qed.

Lemma X22_witness :
  let out := serve (ReqUpdateThread alice 250 0%N (Some "") (Some "") None)
               hello_hi in
  status (fst out) = 200
  /\ threads (snd out) = threads hello_hi
  /\ posts (snd out) = posts hello_hi.
Proof.
  cbv zeta.
  destruct (X22_updateThread_keeps_slug_votes_and_comments hello_hi alice 250
              0%N (Some "") (Some "") None
              (touch 200
                 (row_reply_created 2%N 200
                    (new_thread_row 0%N "Hello World" "hello-world-a3f7" 7%N
                       1%N 100)))
              (set_comments
                 [new_comment 1%N 2%N "bob" "Hi" None]
                 (new_post 0%N 0%N 1%N "alice" "body of ten chars" []))
              eq_refl eq_refl eq_refl (or_introl eq_refl))
    as (Hstatus & _ & _ & Hnoop).
  split; [exact Hstatus|]. now apply Hnoop.
Defined.

(** ** X23: an edit that overlaps a delete *)

(** X23.  [save()] sends the fields a handler changed, under a version
    check that a soft-delete does not move.  So when [updateComment] has
    read a live comment before [deleteComment] saves its tombstone, and
    saves after it, both are answered 200 and the comment ends flagged
    deleted with the edited text as its body, not the placeholder
    (absent store faults, both callers being allowed, the text being a
    new one). *)
Theorem X23_edit_overlapping_a_delete_rewrites_the_placeholder
  (w : World) (deleter editor : User) (deleted edited : Date)
  (threadId : Uuid) (commentId : ObjectId) (content : string)
  (p : Post.t) (c : Comment.t) :
  well_formed w -> faults w = [] ->
  post_by_thread threadId (posts w) = Some p ->
  live_comment commentId p = Some c ->
  Comment.authorId c = user_id deleter \/ isModRole (role deleter) = true ->
  Comment.authorId c = user_id editor \/ isModRole (role editor) = true ->
  Comment.content c <> content ->
  let out := race [First; Second]
               (deleteComment deleter deleted threadId commentId)
               (updateComment editor edited threadId commentId content) w in
  (exists res, fst (fst out) = Resolved res /\ status res = 200)
  /\ (exists res, snd (fst out) = Resolved res /\ status res = 200)
  /\ exists p' c',
       post_by_thread threadId (posts (snd out)) = Some p'
       /\ comments_id commentId (Post.comments p') = Some c'
       /\ Comment.isDeleted c' = true
       /\ Comment.content c' = content.
Proof.
  intros Hwf Hf Hp Hc Hdel Hedit Hnew.
  pose proof (wf_ids w Hwf) as Hnd.
  pose proof (may_edit _ deleter Hdel) as Hd.
  pose proof (may_edit _ editor Hedit) as He.
  destruct (live_comment_found _ _ _ Hc) as [Hfound Hlive].
  assert (Hin : In p (posts w)) by (apply post_by_thread_In in Hp; tauto).
  destruct w as [ts cats tx0 ls ps act nu nid fs]. simpl in *. subst fs.
  unfold deleteComment, updateComment, logActivity.
  cbn. rewrite Hp. cbn. rewrite Hc. cbn. rewrite Hd, He. cbn.
  rewrite existsb_matches_save by exact Hin. cbn.
  set (i := comment_index commentId (Post.comments p)).
  set (chd := tombstone_changes i deleted c).
  set (che := editComment_changes i content edited c).
  assert (Hpd : post_by_thread threadId
                  (modify_first (matches_save p chd) (saved chd) ps)
                = Some (saved chd p))
    by now apply post_by_thread_saved.
  assert (Hsaved : saved chd p
                   = mutate_comment commentId (tombstone deleted) p)
    by (unfold chd, i; now apply saved_tombstone).
  assert (Hhit : matches_save p che (saved chd p) = true).
  { unfold matches_save. rewrite Hsaved. simpl.
    rewrite N.eqb_refl, Z.eqb_refl. now rewrite orb_true_r. }
  assert (Hex : existsb (matches_save p che)
                  (modify_first (matches_save p chd) (saved chd) ps) = true).
  { apply existsb_exists. exists (saved chd p). split; [|exact Hhit].
    apply post_by_thread_In in Hpd. tauto. }
  rewrite Hex. cbn.
  split; [eexists; split; reflexivity|].
  split; [eexists; split; reflexivity|].
  exists (saved che (saved chd p)).
  assert (Hgoal : exists c',
            comments_id commentId (Post.comments (saved che (saved chd p)))
            = Some c'
            /\ Comment.isDeleted c' = true /\ Comment.content c' = content).
  { destruct (saved_keeps che (saved chd p)) as (_ & _ & _ & ->).
    rewrite Hsaved, mutate_comment_at. fold i.
    unfold che, editComment_changes.
    destruct (String.eqb_spec (Comment.content c) content) as [|_];
      [contradiction|].
    destruct (Comment.isEdited c), (same_date (Comment.editedAt c) edited);
      unfold apply_changes; simpl fold_left; unfold apply_update;
      rewrite !at_comment_twice;
      unfold i; rewrite <- mutate_comment_at;
      (eexists; split;
       [unfold mutate_comment; simpl;
        apply (comments_id_mutated _ _ _ c Hfound); reflexivity
       | split; reflexivity]). }
  destruct Hgoal as (c' & Hc' & Hdead & Htext).
  exists c'. split; [|auto].
  apply post_by_thread_saved_over; auto.
  apply NoDup_map_modify_first; [|exact Hnd].
  intros x. apply saved_keeps.
Qed.

Lemma X23_witness :
  let out := race [First; Second] (deleteComment carol 300 0%N 1%N)
               (updateComment bob 310 0%N 1%N "Hi again") hello_hi in
  exists p' c',
    post_by_thread 0%N (posts (snd out)) = Some p'
    /\ comments_id 1%N (Post.comments p') = Some c'
    /\ Comment.isDeleted c' = true
    /\ Comment.content c' = "Hi again".
Proof.
  cbv zeta.
  destruct (X23_edit_overlapping_a_delete_rewrites_the_placeholder hello_hi
              carol bob 300 310 0%N 1%N "Hi again"
              (set_comments [new_comment 1%N 2%N "bob" "Hi" None]
                 (new_post 0%N 0%N 1%N "alice" "body of ten chars" []))
              (new_comment 1%N 2%N "bob" "Hi" None))
    as (_ & _ & Hdoc).
  - apply reachable_well_formed, reachable_hello_hi.
  - reflexivity.
  - reflexivity.
  - reflexivity.
  - now right.
  - now left.
  - discriminate.
  - exact Hdoc.
Defined.

(** ** X24: one document per thread, no negative count *)

(** X24.  In every world the portal reaches by serving its requests one at
    a time, whatever the store faults: no two content documents carry the
    same thread id (the index on [threadId] is not unique; the ids are
    fresh), no two carry the same [_id], and no row has a negative
    [reply_count]. *)
Theorem X24_one_document_per_thread (w : World) :
  reachable w ->
  (forall p q, In p (posts w) -> In q (posts w) ->
               Post.threadId p = Post.threadId q -> p = q)
  /\ (forall p q, In p (posts w) -> In q (posts w) ->
                  Post._id p = Post._id q -> p = q)
  /\ (forall row, In row (threads w) -> 0 <= reply_count row).
Proof.
  intros Hreach. pose proof (reachable_well_formed w Hreach) as Hwf.
  split; [|split].
  - intros p q Hp Hq Heq.
    apply (NoDup_map_inj Post.threadId (posts w)); auto.
    exact (wf_threadIds w Hwf).
  - intros p q Hp Hq Heq.
    apply (NoDup_map_inj Post._id (posts w)); auto.
    exact (wf_ids w Hwf).
  - intros row Hrow. pose proof (wf_rows w Hwf) as Hrows.
    rewrite Forall_forall in Hrows. now destruct (Hrows row Hrow).
Qed.

Lemma X24_witness :
  reachable hello_hi_deleted
  /\ Forall (fun row => 0 <= reply_count row) (threads hello_hi_deleted).
Proof.
  assert (Hreach : reachable hello_hi_deleted).
  { unfold hello_hi_deleted. apply reach_serve, reachable_hello_hi. }
  split; [exact Hreach|]. apply Forall_forall.
  destruct (X24_one_document_per_thread hello_hi_deleted Hreach)
    as (_ & _ & H).
  exact H.
Defined.

(** ** X25: tags are stored in one form *)

(** X25.  The schema lower-cases and trims every tag it stores (on ASCII
    text): the tags of the document [Post.create] builds and the tags an
    update sets are the given ones so normalized, no stored tag keeps an
    upper-case letter or a space at either end, and storing a stored tag
    again leaves it as it is. *)
Theorem X25_tags_are_stored_normalized
  (newId : ObjectId) (threadId authorId : Uuid)
  (authorUsername content : string) (given : list string) (p : Post.t) :
  let created := new_post newId threadId authorId authorUsername content
                   given in
  let updated := apply_fields None (Some given) p in
  Post.tags created = map normalize_tag given
  /\ Post.tags updated = map normalize_tag given
  /\ Forall (fun tag => normalize_tag tag = tag) (Post.tags created)
  /\ (forall tag c,
        In tag (Post.tags created) ->
        In c (list_ascii_of_string tag) -> is_upper c = false)
  /\ (forall tag,
        In tag (Post.tags created) ->
        starts_clean is_space (list_ascii_of_string tag)
        /\ starts_clean is_space (rev (list_ascii_of_string tag))).
Proof.
  cbv zeta. simpl. split; [reflexivity|]. split; [reflexivity|].
  split; [|split].
  - apply Forall_forall. intros tag Hin. apply in_map_iff in Hin.
    destruct Hin as (g & <- & _). apply normalize_tag_twice.
  - intros tag c Hin Hc. apply in_map_iff in Hin.
    destruct Hin as (g & <- & _). unfold normalize_tag in Hc.
    rewrite list_ascii_of_string_of_list_ascii in Hc.
    destruct (trim_both_stretch is_space
                (map to_lower (list_ascii_of_string g)))
      as (before & after & E).
    assert (Hin : In c (map to_lower (list_ascii_of_string g))).
    { rewrite E. apply in_or_app. right. apply in_or_app. now left. }
    apply in_map_iff in Hin. destruct Hin as (d & <- & _).
    clear. each_char d.
  - intros tag Hin. apply in_map_iff in Hin.
    destruct Hin as (g & <- & _). unfold normalize_tag.
    rewrite list_ascii_of_string_of_list_ascii.
    apply trim_both_ends_clean.
Qed.
